(** * Refigma plugin: token resolution, scene building and content application

    A shallow embedding of the plugin sources

      - [refigma-plugin/src/tokens.ts]: [resolveInterFont], [getColor],
        [hexToRgbaColor] and the section builders up to [applyTokensDemo];
      - the plugin entry point: [handleGenerateAiSite],
        [requestGeminiContent], [parseGeminiJson], [applyGeminiContent],
        [setText] and [findText].

    JavaScript strings are sequences of UTF-16 code units.  Numbers are
    rationals: the numbers of the schema are finite doubles, which are
    rationals; what [Number] and [parseInt] give and the quotients of the
    [rgba(...)] codec are rounded to doubles as the host rounds them; the
    quotients of the hex codec are kept exact.  Objects used as maps are
    finite maps of their own properties, with the members that every
    object inherits beside them; values of a declared TypeScript type are
    values of that type.  The Figma host is an explicit world (page,
    node-identity counter, log of outgoing calls) threaded through a
    state-and-exception monad; the provider behind [fetch] and the host's
    [JSON.parse] are parameters. *)

From Stdlib Require Import String Ascii.
From Stdlib Require Import NArith ZArith QArith Lia Lqa List Sorted.
From stdpp Require Import base option list gmap.

Local Open Scope N_scope.

(** ** JavaScript strings *)

(** A string is its list of UTF-16 code units. *)
Abbreviation jsstring := (list N).

Definition str (s : String.string) : jsstring :=
  map N_of_ascii (list_ascii_of_string s).
Arguments str s%_string.

(** Truthiness of a string value: every string but the empty one. *)
Definition truthy (s : jsstring) : bool :=
  match s with [] => false | _ => true end.

(** [String.prototype.split] with a one-unit separator. *)
Fixpoint split (sep : N) (s : jsstring) : list jsstring :=
  match s with
  | [] => [[]]
  | c :: s' =>
      if N.eqb c sep then [] :: split sep s'
      else match split sep s' with
           | seg :: segs => (c :: seg) :: segs
           | [] => [[c]]
           end
  end.

(** The members of the [\s] class, which are also what [trim] strips:
    WhiteSpace and LineTerminator code units. *)
Definition is_space (c : N) : bool :=
  ((9 <=? c) && (c <=? 13)) || (c =? 32) || (c =? 160) || (c =? 5760)
  || ((8192 <=? c) && (c <=? 8202)) || (c =? 8232) || (c =? 8233)
  || (c =? 8239) || (c =? 8287) || (c =? 12288) || (c =? 65279).

(** The [\d] class. *)
Definition is_digit (c : N) : bool := (48 <=? c) && (c <=? 57).

Fixpoint trimStart (s : jsstring) : jsstring :=
  match s with
  | c :: s' => if is_space c then trimStart s' else s
  | [] => []
  end.

Definition trimEnd (s : jsstring) : jsstring := rev (trimStart (rev s)).

Definition trim (s : jsstring) : jsstring := trimEnd (trimStart s).

(** [Array.prototype.join]. *)
Fixpoint join (sep : jsstring) (l : list jsstring) : jsstring :=
  match l with
  | [] => []
  | [x] => x
  | x :: rest => x ++ sep ++ join sep rest
  end.

(** ** Exceptions *)

(** What a [catch] clause receives: an instance of [Error] with its
    message, or some other thrown or rejected value. *)
Inductive Exn :=
| Error (message : jsstring)
| NonError.

(** The [TypeError]s the engine raises here: on reading a property of
    [undefined], and on calling a method that the value does not have.  They
    are instances of [Error]; the wording of their messages is the engine's
    (here V8's). *)
Definition undefinedRead (property : jsstring) : Exn :=
  Error (str "Cannot read properties of undefined (reading '" ++ property ++ str "')").

Definition notAFunction (callee : jsstring) : Exn :=
  Error (callee ++ str " is not a function").

Inductive result (A : Type) :=
| Ok (a : A)
| Throw (e : Exn).
Arguments Ok {A} a.
Arguments Throw {A} e.

(** ** Token schema

    [tokens.json] is imported by [tokens.ts] and is not part of the sources:
    the schema is a parameter of every function that reads it. *)

Inductive ColorGroup :=
| Single (hex : jsstring)
| Shades (shades : gmap jsstring jsstring).

Inductive TypographyVariant := h1 | h2 | h3 | body | bodyBold | caption | captionBold.

Record TextStyle := { fontSize : Q; fontWeight : Q; lineHeight : Q }.

Record Tokens := {
  colors : gmap jsstring (gmap jsstring ColorGroup);
  typography_scale : TypographyVariant -> option TextStyle;
  typography_fontFamily : jsstring
}.

Definition DEFAULT_THEME : jsstring := str "light".
Definition DEFAULT_COLOR : jsstring := str "#000000".

Record FontName := { family : jsstring; style : jsstring }.

Record InterStyle := { threshold : Q; style_name : jsstring }.

Definition INTER_STYLES : list InterStyle :=
  [ {| threshold := 700; style_name := str "Bold" |};
    {| threshold := 600; style_name := str "Semi Bold" |};
    {| threshold := 500; style_name := str "Medium" |};
    {| threshold := 0;   style_name := str "Regular" |} ].

(** The [for ... of] loop of [resolveInterFont]: the first option whose
    threshold the weight reaches replaces [chosen] and ends the loop. *)
Fixpoint chooseStyle (weight : Q) (options : list InterStyle) (chosen : InterStyle)
  : InterStyle :=
  match options with
  | [] => chosen
  | option :: rest =>
      if Qle_bool (threshold option) weight then option
      else chooseStyle weight rest chosen
  end.

Definition lastStyle : InterStyle :=
  List.last INTER_STYLES {| threshold := 0; style_name := [] |}.

Definition chosenStyle (weight : Q) : InterStyle :=
  chooseStyle weight INTER_STYLES lastStyle.

Definition resolveInterFont (tk : Tokens) (weight : Q) : FontName :=
  {| family := typography_fontFamily tk; style := style_name (chosenStyle weight) |}.

(** ** Objects and what they inherit

    The schema's objects are plain objects: besides their own properties,
    a property read and the [in] operator see the members that every plain
    object inherits from [Object.prototype] (ECMAScript 20.1.3 and B.2.2).
    Own properties come first. *)

Definition OBJECT_PROTOTYPE_KEYS : list jsstring :=
  [ str "constructor"; str "hasOwnProperty"; str "isPrototypeOf";
    str "propertyIsEnumerable"; str "toLocaleString"; str "toString"; str "valueOf";
    str "__proto__"; str "__defineGetter__"; str "__defineSetter__";
    str "__lookupGetter__"; str "__lookupSetter__" ].

Definition inherited (key : jsstring) : bool :=
  bool_decide (key ∈ OBJECT_PROTOTYPE_KEYS).

(** [key] is an own property of the object. *)
Definition has_key {V} (key : jsstring) (m : gmap jsstring V) : bool :=
  bool_decide (is_Some (m !! key)).

(** [key in object] *)
Definition in_object {V} (key : jsstring) (m : gmap jsstring V) : bool :=
  has_key key m || inherited key.

(** What [getColor] returns.  What an object inherits under one of these
    keys is a function or an object of the host, never a string and always
    truthy; a look-up that goes on inside such a member ends in a property
    of the member or in the default colour, as the host has it. *)
Inductive Resolved :=
| Text (s : jsstring)
    (* a string *)
| Member (key : jsstring)
    (* what a shade map inherits under [key] *)
| HostDecided.
    (* decided inside an inherited member *)

(** [None] stands for the [TypeError] of reading a property of
    [undefined]. *)
Definition getColor (tk : Tokens) (theme token : jsstring) : option Resolved :=
  let parts := split 47 token in
  let groupName := default [] (parts !! 0%nat) in
  let shade := default [] (parts !! 1%nat) in
  let resolvedTheme :=
    if has_key theme (colors tk) || inherited theme then theme else DEFAULT_THEME in
  match colors tk !! resolvedTheme with
  | Some themeColors =>
      match themeColors !! groupName with
      | Some (Single group) =>
          if negb (truthy group) then Some (Text DEFAULT_COLOR) else Some (Text group)
      | Some (Shades group) =>
          if negb (truthy shade) && in_object (str "500") group then
            match group !! str "500" with
            | Some color => Some (Text color)
            | None => Some (Member (str "500"))
            end
          else if in_object shade group then
            match group !! shade with
            | Some color => Some (Text color)
            | None => Some (Member shade)
            end
          else Some (Text DEFAULT_COLOR)
      | None =>
          if inherited groupName then Some HostDecided else Some (Text DEFAULT_COLOR)
      end
  | None => if inherited resolvedTheme then Some HostDecided else None
  end.

(** ** Colour codec: the [rgba(...)] pattern

    The regular expression of [hexToRgbaColor] is kept as a syntax tree and
    run by a backtracking matcher with greedy quantifiers, the way the
    JavaScript engine runs it.  A capture group records the text it matched;
    the pattern has no group under a quantifier, so captures are appended in
    the order the groups close. *)

Inductive regex :=
| Class (p : N -> bool)        (* one code unit of a class *)
| Cat (r1 r2 : regex)          (* r1 r2 *)
| Opt (r : regex)              (* r?  *)
| Star (r : regex)             (* r*  *)
| Group (r : regex).           (* ( r ) *)

Abbreviation captures := (list jsstring).
Abbreviation kont := (jsstring -> captures -> option captures).

(** Iterations of a starred expression: one more iteration is tried first
    (an iteration that consumes nothing is refused), then the continuation. *)
Fixpoint star_loop (step : jsstring -> captures -> kont -> option captures) (k : kont)
  (fuel : nat) (s : jsstring) (caps : captures) : option captures :=
  match fuel with
  | O => k s caps
  | S fuel' =>
      match step s caps (fun s' caps' =>
              if (length s' <? length s)%nat then star_loop step k fuel' s' caps'
              else None) with
      | Some x => Some x
      | None => k s caps
      end
  end.

Fixpoint rmatch (r : regex) : jsstring -> captures -> kont -> option captures :=
  match r with
  | Class p => fun s caps k =>
      match s with
      | c :: s' => if p c then k s' caps else None
      | [] => None
      end
  | Cat r1 r2 => fun s caps k => rmatch r1 s caps (fun s' caps' => rmatch r2 s' caps' k)
  | Opt r1 => fun s caps k =>
      match rmatch r1 s caps k with
      | Some x => Some x
      | None => k s caps
      end
  | Star r1 => fun s caps k => star_loop (rmatch r1) k (length s) s caps
  | Group r1 => fun s caps k =>
      rmatch r1 s caps (fun s' caps' => k s' (caps' ++ [take (length s - length s') s]))
  end.

Definition match_at (r : regex) (s : jsstring) : option captures :=
  rmatch r s [] (fun _ caps => Some caps).

(** [String.prototype.match] without the [g] flag: the leftmost start
    position at which the pattern matches. *)
Fixpoint search (r : regex) (s : jsstring) : option captures :=
  match match_at r s with
  | Some caps => Some caps
  | None => match s with
            | [] => None
            | _ :: s' => search r s'
            end
  end.

Definition lit (c : N) : regex := Class (N.eqb c).
(** A letter under the [i] flag, given by its lower-case code unit. *)
Definition lit_i (lower : N) : regex := Class (fun c => (c =? lower) || (c =? lower - 32)).
Definition ws : regex := Star (Class is_space).              (* \s* *)
Definition digits : regex := Cat (Class is_digit) (Star (Class is_digit)).   (* \d+ *)
Definition decimal : regex :=                                  (* \d*\.?\d+ *)
  Cat (Star (Class is_digit)) (Cat (Opt (lit 46)) digits).

Fixpoint cat_all (rs : list regex) (last : regex) : regex :=
  match rs with
  | [] => last
  | r :: rs' => Cat r (cat_all rs' last)
  end.

(** [/rgba?\(\s*(\d+)\s*,\s*(\d+)\s*,\s*(\d+)\s*,\s*(\d*\.?\d+)\s*\)/i] *)
Definition RGBA_PATTERN : regex :=
  cat_all
    [ lit_i 114; lit_i 103; lit_i 98; Opt (lit_i 97); lit 40;
      ws; Group digits; ws; lit 44;
      ws; Group digits; ws; lit 44;
      ws; Group digits; ws; lit 44;
      ws; Group decimal; ws ]
    (lit 41).

(** [Number] on a run of decimal digits. *)
Definition digits_value (s : jsstring) : N :=
  fold_left (fun acc c => 10 * acc + (c - 48)) s 0.

Fixpoint span_digits (s : jsstring) : jsstring * jsstring :=
  match s with
  | c :: s' => if is_digit c then let (ds, rest) := span_digits s' in (c :: ds, rest)
               else ([], s)
  | [] => ([], [])
  end.

(** A JavaScript number that holds an integer, an infinity or [NaN]. *)
Inductive JsInt :=
| NaN
| Infinite
| Finite (n : Z).

(** The double nearest to a non-negative integer (ties to even): integers
    below 2^53 are doubles; above, the 53 leading bits are kept and
    rounded; from 2^1024 on the result is infinite. *)
Definition toDouble (n : Z) : JsInt :=
  if (n <? 2 ^ 53)%Z then Finite n
  else
    let e := (Z.log2 n - 52)%Z in
    let q := (n / 2 ^ e)%Z in
    let rest := (n mod 2 ^ e)%Z in
    let half := (2 ^ (e - 1))%Z in
    let q' := if (half <? rest)%Z || ((rest =? half)%Z && Z.odd q) then (q + 1)%Z else q in
    let rounded := (q' * 2 ^ e)%Z in
    if (rounded <? 2 ^ 1024)%Z then Finite rounded else Infinite.

(** A number that [Number] gives for an unsigned decimal literal: a
    double, kept as the rational it is, or [Infinity]. *)
Inductive Double :=
| Value (q : Q)
| PlusInfinity.

(** [2^e] for an integer [e] of either sign. *)
Definition pow2 (e : Z) : Q :=
  if (0 <=? e)%Z then inject_Z (2 ^ e) else 1 # Z.to_pos (2 ^ (- e)).

(** The double nearest to the ratio [p/q] of a non-negative [p] and a
    positive [q], ties to even: the exponent [e] of the last bit is 52
    below the binary logarithm of the ratio and no less than -1074, the
    ratio is rounded to a whole multiple of [2^e], and from [2^1024] on the
    result is infinite. *)
Definition roundRatio (p q : Z) : Double :=
  if (p <=? 0)%Z then Value 0
  else
    let k := (Z.log2 p - Z.log2 q)%Z in
    let reaches :=
      if (0 <=? k)%Z then (q * 2 ^ k <=? p)%Z else (q <=? p * 2 ^ (- k))%Z in
    let k := if reaches then k else (k - 1)%Z in
    let e := Z.max (k - 52) (-1074) in
    let num := if (0 <=? e)%Z then p else (p * 2 ^ (- e))%Z in
    let den := if (0 <=? e)%Z then (q * 2 ^ e)%Z else q in
    let m := (num / den)%Z in
    let rest := (num mod den)%Z in
    let m :=
      if (den <? 2 * rest)%Z || ((2 * rest =? den)%Z && Z.odd m) then (m + 1)%Z else m in
    if (0 <=? e)%Z && (2 ^ 1024 <=? m * 2 ^ e)%Z then PlusInfinity
    else Value (Qred (inject_Z m * pow2 e)).

(** [Number] on an unsigned decimal literal [ddd], [ddd.ddd] or [.ddd]: the
    double nearest to the value written. *)
Definition Number (s : jsstring) : Double :=
  let (int_part, rest) := span_digits s in
  match rest with
  | 46 :: frac =>
      let scale := (10 ^ Z.of_nat (length frac))%Z in
      roundRatio (Z.of_N (digits_value int_part) * scale + Z.of_N (digits_value frac)) scale
  | _ =>
      match toDouble (Z.of_N (digits_value int_part)) with
      | Finite n => Value (inject_Z n)
      | _ => PlusInfinity
      end
  end.

(** [x / 255] for a number [x] that is not negative: the double nearest to
    the quotient. *)
Definition over255 (x : Double) : Double :=
  match x with
  | Value q => roundRatio (Qnum q) (Z.pos (Qden q) * 255)
  | PlusInfinity => PlusInfinity
  end.

Record RGBA := { r : Q; g : Q; b : Q; a : Q }.

(** [RGBA] as [hexToRgbaColor] fills it: its numbers come from [Number]
    and need not be finite. *)
Record RGBANumbers := {
  rgba_r : Double; rgba_g : Double; rgba_b : Double; rgba_a : Double
}.

(** [{ r: 0, g: 0, b: 0, a: 0.16 }] *)
Definition FALLBACK_RGBA : RGBANumbers :=
  {| rgba_r := Value 0; rgba_g := Value 0; rgba_b := Value 0;
     rgba_a := roundRatio 16 100 |}.

Definition hexToRgbaColor (rgba : jsstring) : RGBANumbers :=
  match search RGBA_PATTERN rgba with
  | Some [cr; cg; cb; ca] =>
      {| rgba_r := over255 (Number cr); rgba_g := over255 (Number cg);
         rgba_b := over255 (Number cb); rgba_a := Number ca |}
  | _ => FALLBACK_RGBA
  end.


(** ** Scene nodes

    A node keeps the attributes the program reads back or that the content
    engine writes: identity, type, layout direction, name, visibility, text
    body, font and the ordered children.  Paint, geometry and effect
    attributes are written once by the builders and never read again; they
    are not part of the record.  A node that was never given a name has the
    host's default name, which is no anchor name: it is [None] here. *)

Inductive NodeType := FRAME | TEXT | RECTANGLE | ELLIPSE.
Inductive LayoutMode := NONE | HORIZONTAL | VERTICAL.

(** [node.fontName]: one font, or [figma.mixed] with the font of every
    character. *)
Inductive FontSetting :=
| Uniform (font : FontName)
| Mixed (rangeFonts : list FontName).

#[warnings="-register-all"]
Inductive Node := mkNode {
  node_id : N;
  node_type : NodeType;
  layoutMode : LayoutMode;
  name : option jsstring;
  visible : bool;
  characters : jsstring;
  fontName : FontSetting;
  children : list Node
}.

Definition set_layoutMode (v : LayoutMode) (n : Node) : Node :=
  mkNode (node_id n) (node_type n) v (name n) (visible n) (characters n) (fontName n) (children n).
Definition set_name (v : jsstring) (n : Node) : Node :=
  mkNode (node_id n) (node_type n) (layoutMode n) (Some v) (visible n) (characters n) (fontName n) (children n).
Definition set_visible (v : bool) (n : Node) : Node :=
  mkNode (node_id n) (node_type n) (layoutMode n) (name n) v (characters n) (fontName n) (children n).
Definition set_characters (v : jsstring) (n : Node) : Node :=
  mkNode (node_id n) (node_type n) (layoutMode n) (name n) (visible n) v (fontName n) (children n).
Definition set_fontName (v : FontSetting) (n : Node) : Node :=
  mkNode (node_id n) (node_type n) (layoutMode n) (name n) (visible n) (characters n) v (children n).
Definition set_children (v : list Node) (n : Node) : Node :=
  mkNode (node_id n) (node_type n) (layoutMode n) (name n) (visible n) (characters n) (fontName n) v.

(** [parent.appendChild(child)] for a child that has no parent yet. *)
Definition appendChild (parent child : Node) : Node :=
  set_children (children parent ++ [child]) parent.

(** A node inside a tree is referred to by the child indices leading to it. *)
Abbreviation path := (list nat).

Fixpoint node_at (q : path) (n : Node) : option Node :=
  match q with
  | [] => Some n
  | i :: q' => match children n !! i with
               | Some c => node_at q' c
               | None => None
               end
  end.

(** In-place mutation of the node a reference points to. *)
Fixpoint update (q : path) (f : Node -> Node) (n : Node) : Node :=
  match q with
  | [] => f n
  | i :: q' => set_children (alter (update q' f) i (children n)) n
  end.

(** Document-order traversal: a node comes before its children, children in
    the order of the children array. *)
Fixpoint findFrom (p : Node -> bool) (n : Node) {struct n} : option path :=
  if p n then Some []
  else
    (fix scan (l : list Node) (i : nat) {struct l} : option path :=
       match l with
       | [] => None
       | c :: l' => match findFrom p c with
                    | Some q => Some (i :: q)
                    | None => scan l' (S i)
                    end
       end) (children n) 0%nat.

Fixpoint findAmong (p : Node -> bool) (l : list Node) (i : nat) : option path :=
  match l with
  | [] => None
  | c :: l' => match findFrom p c with
               | Some q => Some (i :: q)
               | None => findAmong p l' (S i)
               end
  end.

(** [root.findOne(callback)]: the first descendant, in document order, for
    which the callback holds; the root itself is not a candidate. *)
Definition findOne (p : Node -> bool) (root : Node) : option path :=
  findAmong p (children root) 0%nat.

Definition is_type (t : NodeType) (n : Node) : bool :=
  match node_type n, t with
  | FRAME, FRAME | TEXT, TEXT | RECTANGLE, RECTANGLE | ELLIPSE, ELLIPSE => true
  | _, _ => false
  end.

Definition name_is (s : jsstring) (n : Node) : bool :=
  bool_decide (name n = Some s).

(** ** The host

    The canvas and everything the plugin makes the host do are one world
    state: the page's top-level nodes, the counter the host draws fresh node
    identities from, and the log of the calls that leave the plugin (status
    messages to the UI, notifications, the provider request, font loads,
    selection and viewport changes). *)

Inductive Status := loading | applying | success | error.

Record Request := {
  req_model : jsstring;
  req_key : jsstring;
  req_prompt : jsstring
}.

Inductive Event :=
| PostStatus (status : Status) (text : jsstring)   (* figma.ui.postMessage *)
| Notify (text : jsstring)                         (* figma.notify *)
| Fetch (request : Request)                        (* fetch(endpoint, ...) *)
| LoadFont (font : FontName)                       (* figma.loadFontAsync *)
| Select (id : N)                                  (* currentPage.selection = [...] *)
| ScrollIntoView (id : N)                          (* viewport.scrollAndZoomIntoView *)
| ConsoleError (e : Exn).                          (* console.error *)

Record World := mkWorld {
  nextId : N;
  page : list Node;
  log : list Event
}.

(** Computations that read and change the world and may throw. *)
Definition M (A : Type) : Type := World -> result A * World.

#[global] Instance M_ret : MRet M := fun A a w => (Ok a, w).
#[global] Instance M_bind : MBind M := fun A B f m w =>
  match m w with
  | (Ok a, w') => f a w'
  | (Throw e, w') => (Throw e, w')
  end.

Definition throw {A} (e : Exn) : M A := fun w => (Throw e, w).

Definition try_catch {A} (m : M A) (handler : Exn -> M A) : M A := fun w =>
  match m w with
  | (Ok a, w') => (Ok a, w')
  | (Throw e, w') => handler e w'
  end.

Definition emit (e : Event) : M unit := fun w =>
  (Ok tt, mkWorld (nextId w) (page w) (log w ++ [e])).

(** A loop over an array whose body updates the loop-carried value. *)
Fixpoint forM {A B} (items : list A) (acc : B) (body : B -> A -> M B) : M B :=
  match items with
  | [] => mret acc
  | x :: rest => acc' ← body acc x; forM rest acc' body
  end.

(** Font loading is awaited and completes. *)
Definition loadFontAsync (font : FontName) : M unit := emit (LoadFont font).

(** The font a text node has before the program sets one. *)
Definition HOST_DEFAULT_FONT : FontName := {| family := str "Inter"; style := str "Regular" |}.

(** [figma.createFrame], [createText], [createRectangle], [createEllipse]:
    a fresh, visible, unnamed node without children. *)
Definition createNode (t : NodeType) : M Node := fun w =>
  (Ok (mkNode (nextId w) t NONE None true [] (Uniform HOST_DEFAULT_FONT) []),
   mkWorld (nextId w + 1) (page w) (log w)).

Definition createFrame : M Node := createNode FRAME.
Definition createText : M Node := createNode TEXT.
Definition createRectangle : M Node := createNode RECTANGLE.
Definition createEllipse : M Node := createNode ELLIPSE.

(** Decimal rendering of an array index inside a template literal. *)
Fixpoint decimal_digits (fuel : nat) (n : N) (acc : jsstring) : jsstring :=
  match fuel with
  | O => acc
  | S fuel' =>
      let acc' := (48 + n mod 10) :: acc in
      if n / 10 =? 0 then acc' else decimal_digits fuel' (n / 10) acc'
  end.

Definition index_text (i : nat) : jsstring := decimal_digits (S i) (N.of_nat i) [].

(** [items.entries()]: the items with their indices. *)
Definition indexed {A} (items : list A) : list (nat * A) :=
  zip (seq 0 (length items)) items.

Definition quoted (s : jsstring) : jsstring := 34 :: s ++ [34].

(** ** Scene graph builder ([tokens.ts])

    The builders follow the source statement by statement: every node is
    created in the source's order, named where the source names it and
    appended where the source appends it; a mutation of a local node is a
    rebinding of its variable.  Every colour a statement resolves is
    resolved here, at the statement's place, by [paint]: the look-up throws
    on a schema without the default theme.  The colour itself, like
    geometry, padding, spacing, radius and effects, is no attribute of the
    node record; the statements that set only those other attributes are
    left out, and with them the width argument of [createTextNode]. *)

Definition variant_text (variant : TypographyVariant) : jsstring :=
  match variant with
  | h1 => str "h1" | h2 => str "h2" | h3 => str "h3"
  | body => str "body" | bodyBold => str "bodyBold"
  | caption => str "caption" | captionBold => str "captionBold"
  end.

Inductive ButtonVariant := primary | ghost.

Record Metric := { metric_value : jsstring; metric_label : jsstring; metric_accent : jsstring }.
Record SyncItem := { sync_time : jsstring; sync_text : jsstring }.
Record Stat := { stat_label : jsstring; stat_value : jsstring; stat_hint : jsstring }.
Record Testimonial := {
  t_quote : jsstring; t_name : jsstring; t_role : jsstring;
  t_accent : jsstring; t_metric : option jsstring
}.

Section Builder.

Variable tk : Tokens.

(** [hexToRgb(getColor(DEFAULT_THEME, token))] and
    [hexToRgba(getColor(DEFAULT_THEME, token), alpha)], as far as they can
    fail: [getColor] throws on a schema without the default theme, and the
    parsers call [hex.replace], which a value that is no string does not
    have; a look-up decided inside an inherited member is taken to end in
    such a value.  The tokens of the builders are the literals of the
    source, none of which names an inherited member ([palette]). *)
Definition paint (token : jsstring) : M unit :=
  match getColor tk DEFAULT_THEME token with
  | Some (Text hex) => mret tt
  | Some (Member _) | Some HostDecided => throw (notAFunction (str "hex.replace"))
  | None => throw (undefinedRead (default [] (split 47 token !! 0%nat)))
  end.

Definition applyTextStyle (textNode : Node) (variant : TypographyVariant) : M Node :=
  match typography_scale tk variant with
  | None => throw (Error (str "Unknown typography variant: " ++ variant_text variant))
  | Some style =>
      let font := resolveInterFont tk (fontWeight style) in
      loadFontAsync font;;
      let textNode := set_fontName (Uniform font) textNode in
      paint (str "neutral/900");;
      mret textNode
  end.

(** The fill token is an optional argument; an empty token is as good as
    none. *)
Definition createTextNode (content : jsstring) (variant : TypographyVariant)
  (fillToken : option jsstring) : M Node :=
  node ← createText;
  node ← applyTextStyle node variant;
  let node := set_characters content node in
  match fillToken with
  | Some token => if truthy token then paint token else mret tt
  | None => mret tt
  end;;
  mret node.

Definition createAutoLayout (direction : LayoutMode) : M Node :=
  frame ← createFrame;
  mret (set_layoutMode direction frame).

Definition createButton (label : jsstring) (variant : ButtonVariant) : M Node :=
  button ← createAutoLayout HORIZONTAL;
  match variant with
  | primary =>
      paint (str "primary/500");;
      paint (str "accent/500");;
      text ← createTextNode label captionBold (Some (str "neutral/50"));
      mret (appendChild button text)
  | ghost =>
      paint (str "neutral/50");;
      paint (str "neutral/300");;
      text ← createTextNode label captionBold (Some (str "neutral/700"));
      mret (appendChild button text)
  end.

Definition createMetricCard (index : nat) (value label accent : jsstring) : M Node :=
  card ← createAutoLayout VERTICAL;
  let card := set_name (str "HeroMetric:" ++ index_text index) card in
  paint accent;;
  paint (str "neutral/50");;
  valueNode ← createTextNode value h3 (Some accent);
  let valueNode := set_name (str "HeroMetric:" ++ index_text index ++ str ":Value") valueNode in
  let card := appendChild card valueNode in
  labelNode ← createTextNode label caption (Some (str "neutral/600"));
  let labelNode := set_name (str "HeroMetric:" ++ index_text index ++ str ":Label") labelNode in
  let card := appendChild card labelNode in
  mret card.

Definition createHeroVisualHeader : M Node :=
  badge ← createAutoLayout HORIZONTAL;
  paint (str "neutral/50");;
  t ← createTextNode (str "Realtime preview aktif") captionBold (Some (str "neutral/600"));
  let badge := appendChild badge t in
  t ← createTextNode (str "Sinkronisasi token live") caption (Some (str "primary/500"));
  let badge := appendChild badge t in
  mret badge.

Definition createHeroVisualToolbar : M Node :=
  toolbar ← createAutoLayout HORIZONTAL;
  left ← createAutoLayout HORIZONTAL;
  dots ← createAutoLayout HORIZONTAL;
  dots ← forM [str "primary/400"; str "accent/400"; str "neutral/400"] dots
         (fun dots color =>
            dot ← createEllipse;
            paint color;;
            mret (appendChild dots dot));
  let left := appendChild left dots in
  t ← createTextNode (str "Board Refigma Nova") captionBold (Some (str "neutral/600"));
  let left := appendChild left t in
  let toolbar := appendChild toolbar left in
  status ← createAutoLayout HORIZONTAL;
  paint (str "neutral/50");;
  paint (str "primary/200");;
  t ← createTextNode (str "Autosave on") captionBold (Some (str "primary/600"));
  let status := appendChild status t in
  let toolbar := appendChild toolbar status in
  mret toolbar.

Definition createHeroVisualMainCard : M Node :=
  card ← createAutoLayout VERTICAL;
  paint (str "neutral/50");;
  paint (str "neutral/200");;
  t ← createTextNode (str "Layout hero siap handoff") bodyBold (Some (str "neutral/900"));
  let card := appendChild card t in
  t ← createTextNode
        (str "Variant desktop, tablet, dan mobile diselaraskan otomatis dengan token Refigma.")
        caption (Some (str "neutral/600"));
  let card := appendChild card t in
  progressWrapper ← createFrame;
  paint (str "neutral/200");;
  progressFill ← createRectangle;
  paint (str "primary/400");;
  paint (str "accent/500");;
  let progressWrapper := appendChild progressWrapper progressFill in
  let card := appendChild card progressWrapper in
  progressRow ← createAutoLayout HORIZONTAL;
  t ← createTextNode (str "72% token sinkron") captionBold (Some (str "primary/600"));
  let progressRow := appendChild progressRow t in
  t ← createTextNode (str "7 pemeriksaan QA selesai") caption (Some (str "neutral/500"));
  let progressRow := appendChild progressRow t in
  let card := appendChild card progressRow in
  chips ← createAutoLayout HORIZONTAL;
  chips ← forM [str "Spec link otomatis"; str "Akses developer"; str "Checklist lulus"] chips
          (fun chips chip =>
             pill ← createAutoLayout HORIZONTAL;
             paint (str "neutral/100");;
             t ← createTextNode chip captionBold (Some (str "neutral/600"));
             let pill := appendChild pill t in
             mret (appendChild chips pill));
  let card := appendChild card chips in
  mret card.

Definition createHeroVisualSidebar : M Node :=
  sidebar ← createAutoLayout VERTICAL;
  syncCard ← createAutoLayout VERTICAL;
  paint (str "neutral/50");;
  paint (str "neutral/200");;
  t ← createTextNode (str "Log sinkron") captionBold (Some (str "neutral/700"));
  let syncCard := appendChild syncCard t in
  let syncItems :=
    [ {| sync_time := str "09:42"; sync_text := str "Token warna diperbarui" |};
      {| sync_time := str "09:10"; sync_text := str "Komponen hero disalin" |} ] in
  syncCard ← forM syncItems syncCard
             (fun syncCard item =>
                row ← createAutoLayout HORIZONTAL;
                t ← createTextNode (sync_time item) captionBold (Some (str "primary/600"));
                let row := appendChild row t in
                t ← createTextNode (sync_text item) caption (Some (str "neutral/600"));
                let row := appendChild row t in
                mret (appendChild syncCard row));
  let sidebar := appendChild sidebar syncCard in
  pulseCard ← createAutoLayout VERTICAL;
  paint (str "neutral/50");;
  paint (str "neutral/200");;
  t ← createTextNode (str "Pulse tim") captionBold (Some (str "neutral/700"));
  let pulseCard := appendChild pulseCard t in
  pulseInfo ← createAutoLayout VERTICAL;
  t ← createTextNode (str "18 anggota online") captionBold (Some (str "primary/500"));
  let pulseInfo := appendChild pulseInfo t in
  t ← createTextNode (str "Komentar baru dalam 5 menit terakhir") caption
        (Some (str "neutral/500"));
  let pulseInfo := appendChild pulseInfo t in
  let pulseCard := appendChild pulseCard pulseInfo in
  let sidebar := appendChild sidebar pulseCard in
  mret sidebar.

Definition createHeroVisualReviewRow : M Node :=
  reviewRow ← createAutoLayout HORIZONTAL;
  avatars ← createAutoLayout HORIZONTAL;
  avatars ← forM [str "primary/500"; str "accent/500"; str "primary/300"; str "accent/400"]
              avatars
              (fun avatars color =>
                 avatar ← createEllipse;
                 paint color;;
                 mret (appendChild avatars avatar));
  let reviewRow := appendChild reviewRow avatars in
  t ← createTextNode (str "Review selesai untuk 4 tim desain") caption
        (Some (str "neutral/600"));
  let reviewRow := appendChild reviewRow t in
  mret reviewRow.

Definition createHeroVisualContent : M Node :=
  body ← createAutoLayout VERTICAL;
  layoutRow ← createAutoLayout HORIZONTAL;
  c ← createHeroVisualMainCard;
  let layoutRow := appendChild layoutRow c in
  c ← createHeroVisualSidebar;
  let layoutRow := appendChild layoutRow c in
  let body := appendChild body layoutRow in
  c ← createHeroVisualReviewRow;
  let body := appendChild body c in
  mret body.

Definition createHeroVisualBody : M Node :=
  preview ← createAutoLayout VERTICAL;
  paint (str "neutral/50");;
  paint (str "primary/50");;
  paint (str "neutral/200");;
  c ← createHeroVisualToolbar;
  let preview := appendChild preview c in
  c ← createHeroVisualContent;
  let preview := appendChild preview c in
  mret preview.

Definition createHeroVisualStats : M Node :=
  statRow ← createAutoLayout HORIZONTAL;
  let stats :=
    [ {| stat_label := str "Sync aktif"; stat_value := str "Realtime";
         stat_hint := str "Tidak ada debt" |};
      {| stat_label := str "Layout diterbitkan"; stat_value := str "18";
         stat_hint := str "+4 minggu ini" |};
      {| stat_label := str "Checklist QA"; stat_value := str "12/12";
         stat_hint := str "Lengkap" |} ] in
  forM stats statRow
    (fun statRow stat =>
       card ← createAutoLayout VERTICAL;
       paint (str "neutral/50");;
       paint (str "neutral/200");;
       t ← createTextNode (stat_value stat) bodyBold (Some (str "primary/500"));
       let card := appendChild card t in
       t ← createTextNode (stat_label stat) captionBold (Some (str "neutral/600"));
       let card := appendChild card t in
       t ← createTextNode (stat_hint stat) caption (Some (str "neutral/500"));
       let card := appendChild card t in
       mret (appendChild statRow card)).

Definition createHeroVisual : M Node :=
  visual ← createAutoLayout VERTICAL;
  paint (str "primary/500");;
  paint (str "accent/500");;
  c ← createHeroVisualHeader;
  let visual := appendChild visual c in
  c ← createHeroVisualBody;
  let visual := appendChild visual c in
  c ← createHeroVisualStats;
  let visual := appendChild visual c in
  mret visual.

(** [button.findOne(node => node.type === 'TEXT')] followed by the
    assignment of the label's name, when a label was found. *)
Definition nameLabel (labelName : jsstring) (button : Node) : Node :=
  match findOne (is_type TEXT) button with
  | Some label => update label (set_name labelName) button
  | None => button
  end.

Definition createHeroSection : M Node :=
  hero ← createAutoLayout VERTICAL;
  let hero := set_name (str "Section/Hero") hero in
  paint (str "neutral/200");;
  paint (str "neutral/50");;
  paint (str "primary/50");;
  sectionLabel ← createTextNode (str "Section/Hero") captionBold (Some (str "accent/500"));
  let sectionLabel := set_name (str "Hero:SectionLabel") sectionLabel in
  let hero := appendChild hero sectionLabel in

  badge ← createAutoLayout HORIZONTAL;
  paint (str "primary/50");;
  paint (str "primary/200");;
  badgeTitle ← createTextNode (str "AI Copilot") captionBold (Some (str "primary/600"));
  let badgeTitle := set_name (str "Hero:BadgeTitle") badgeTitle in
  let badge := appendChild badge badgeTitle in
  badgeSubtitle ← createTextNode (str "Automasi layout & dokumentasi") caption
                    (Some (str "primary/600"));
  let badgeSubtitle := set_name (str "Hero:BadgeSubtitle") badgeSubtitle in
  let badge := appendChild badge badgeSubtitle in
  let hero := appendChild hero badge in

  layout ← createAutoLayout HORIZONTAL;

  copy ← createAutoLayout VERTICAL;
  heroHeading ← createTextNode (str "Bangun hero landing page siap handoff") h1
                  (Some (str "neutral/900"));
  let heroHeading := set_name (str "Hero:Heading") heroHeading in
  let copy := appendChild copy heroHeading in
  heroSubheading ← createTextNode
    (str "Integrasikan auto layout, tokens, dan dokumentasi Refigma agar developer langsung mengirim fitur tanpa revisi ulang.")
    body (Some (str "neutral/700"));
  let heroSubheading := set_name (str "Hero:Subheading") heroSubheading in
  let copy := appendChild copy heroSubheading in

  highlightList ← createAutoLayout VERTICAL;
  let highlights :=
    [ str "Token & styles tersinkron otomatis ke seluruh platform";
      str "Template hero, fitur, hingga testimonial siap produksi";
      str "Checklist QA dan dokumentasi developer selalu terbaru" ] in
  highlightList ← forM (indexed highlights) highlightList
    (fun highlightList '(index, item) =>
       row ← createAutoLayout HORIZONTAL;
       let row := set_name (str "Hero:Highlight:" ++ index_text index) row in
       marker ← createRectangle;
       paint (str "primary/500");;
       let row := appendChild row marker in
       text ← createTextNode item caption (Some (str "neutral/600"));
       let text := set_name (str "Hero:Highlight:" ++ index_text index ++ str ":Text") text in
       let row := appendChild row text in
       mret (appendChild highlightList row));
  let copy := appendChild copy highlightList in

  ctaRow ← createAutoLayout HORIZONTAL;
  primaryCta ← createButton (str "Mulai sekarang") primary;
  let primaryCta := set_name (str "HeroCTA:Primary") primaryCta in
  let primaryCta := nameLabel (str "HeroCTA:Primary:Label") primaryCta in
  let ctaRow := appendChild ctaRow primaryCta in
  secondaryCta ← createButton (str "Lihat panduan") ghost;
  let secondaryCta := set_name (str "HeroCTA:Secondary") secondaryCta in
  let secondaryCta := nameLabel (str "HeroCTA:Secondary:Label") secondaryCta in
  let ctaRow := appendChild ctaRow secondaryCta in
  let copy := appendChild copy ctaRow in

  assurance ← createAutoLayout HORIZONTAL;
  dot ← createEllipse;
  paint (str "accent/500");;
  let assurance := appendChild assurance dot in
  assuranceCopy ← createTextNode (str "Dipercaya 120+ tim produk di Asia Tenggara") caption
                    (Some (str "neutral/600"));
  let assuranceCopy := set_name (str "Hero:Assurance") assuranceCopy in
  let assurance := appendChild assurance assuranceCopy in
  let copy := appendChild copy assurance in

  let layout := appendChild layout copy in
  visual ← createHeroVisual;
  let layout := appendChild layout visual in
  let hero := appendChild hero layout in

  metricsRow ← createAutoLayout HORIZONTAL;
  let metrics :=
    [ {| metric_value := str "72%"; metric_label := str "Token sinkron dalam sekali klik";
         metric_accent := str "primary/500" |};
      {| metric_value := str "2x"; metric_label := str "Lebih cepat menyiapkan handoff";
         metric_accent := str "accent/500" |};
      {| metric_value := str "5 menit"; metric_label := str "Update dokumen developer otomatis";
         metric_accent := str "primary/600" |} ] in
  metricsRow ← forM (indexed metrics) metricsRow
    (fun metricsRow '(i, metric) =>
       card ← createMetricCard i (metric_value metric) (metric_label metric)
                (metric_accent metric);
       mret (appendChild metricsRow card));
  let hero := appendChild hero metricsRow in
  mret hero.

Definition createTestimonialCopyColumn : M Node :=
  column ← createAutoLayout VERTICAL;
  quote ← createTextNode
    (quoted (str "Sejak Refigma, diskusi desain ke dev tinggal satu sumber kebenaran."))
    h3 (Some (str "neutral/50"));
  let quote := set_name (str "Testimonial:Quote") quote in
  let column := appendChild column quote in

  bulletList ← createAutoLayout VERTICAL;
  let bullets :=
    [ str "Token, referensi, dan dokumentasi siap konsumsi developer.";
      str "Stakeholder review cepat karena preview selalu up to date.";
      str "Sprint planning lebih singkat berkat checklist QA otomatis." ] in
  bulletList ← forM (indexed bullets) bulletList
    (fun bulletList '(index, item) =>
       row ← createAutoLayout HORIZONTAL;
       let row := set_name (str "Testimonial:Bullet:" ++ index_text index) row in
       mark ← createRectangle;
       paint (str "neutral/50");;
       let row := appendChild row mark in
       bulletText ← createTextNode item caption (Some (str "neutral/100"));
       let bulletText :=
         set_name (str "Testimonial:Bullet:" ++ index_text index ++ str ":Text") bulletText in
       let row := appendChild row bulletText in
       mret (appendChild bulletList row));
  let column := appendChild column bulletList in

  footer ← createAutoLayout VERTICAL;
  attribution ← createTextNode (str "Tim produk OrbitPay") captionBold
                  (Some (str "neutral/100"));
  let attribution := set_name (str "Testimonial:Attribution") attribution in
  let footer := appendChild footer attribution in
  attributionRole ← createTextNode (str "Skala 12 produk digital") caption
                      (Some (str "neutral/200"));
  let attributionRole := set_name (str "Testimonial:AttributionRole") attributionRole in
  let footer := appendChild footer attributionRole in
  let column := appendChild column footer in

  callout ← createAutoLayout HORIZONTAL;
  paint (str "neutral/50");;
  calloutText ← createTextNode (str "Skor kepuasan 4.9/5") captionBold
                  (Some (str "primary/600"));
  let calloutText := set_name (str "Testimonial:Callout") calloutText in
  let callout := appendChild callout calloutText in
  let column := appendChild column callout in
  mret column.

Definition buildTestimonialCard (data : Testimonial) : M Node :=
  card ← createAutoLayout VERTICAL;
  paint (str "neutral/50");;
  paint (str "neutral/100");;
  paint (str "neutral/200");;
  t ← createTextNode (t_quote data) body (Some (str "neutral/900"));
  let card := appendChild card t in
  divider ← createRectangle;
  paint (str "primary/200");;
  let card := appendChild card divider in
  footer ← createAutoLayout HORIZONTAL;
  avatar ← createEllipse;
  paint (t_accent data);;
  paint (str "accent/400");;
  let footer := appendChild footer avatar in
  info ← createAutoLayout VERTICAL;
  t ← createTextNode (t_name data) bodyBold (Some (str "neutral/800"));
  let info := appendChild info t in
  t ← createTextNode (t_role data) caption (Some (str "neutral/500"));
  let info := appendChild info t in
  let footer := appendChild footer info in
  let card := appendChild card footer in
  match t_metric data with
  | Some metric =>
      if truthy metric then
        metricBadge ← createAutoLayout HORIZONTAL;
        paint (t_accent data);;
        t ← createTextNode metric captionBold (Some (str "neutral/50"));
        let metricBadge := appendChild metricBadge t in
        mret (appendChild card metricBadge)
      else mret card
  | None => mret card
  end.

Definition createTestimonialCards : M Node :=
  grid ← createAutoLayout HORIZONTAL;
  leftColumn ← createAutoLayout VERTICAL;
  rightColumn ← createAutoLayout VERTICAL;
  let testimonial0 :=
    {| t_quote := quoted (str "Refigma menjadikan token dan komponen kami satu sumber kebenaran. Dev tinggal tarik.");
       t_name := str "Salsa Pradipta"; t_role := str "VP Design DaringLabs";
       t_accent := str "primary/500"; t_metric := Some (str "55% lebih cepat") |} in
  let testimonial1 :=
    {| t_quote := quoted (str "Dokumentasi developer langsung tersusun. QA tidak lagi copy manual.");
       t_name := str "Kevin Mahardika"; t_role := str "Head of Product Lokalite";
       t_accent := str "accent/500"; t_metric := Some (str "0 bug layout") |} in
  let testimonial2 :=
    {| t_quote := quoted (str "Stakeholder bisa review versi terbaru tanpa minta file tambahan.");
       t_name := str "Chandra Tanu"; t_role := str "Founder GridStack";
       t_accent := str "primary/400"; t_metric := Some (str "3x siklus review") |} in
  c ← buildTestimonialCard testimonial0;
  let leftColumn := appendChild leftColumn c in
  c ← buildTestimonialCard testimonial1;
  let leftColumn := appendChild leftColumn c in
  c ← buildTestimonialCard testimonial2;
  let rightColumn := appendChild rightColumn c in
  let grid := appendChild grid leftColumn in
  let grid := appendChild grid rightColumn in
  mret grid.

Definition createTestimonialSection : M Node :=
  section ← createAutoLayout VERTICAL;
  let section := set_name (str "Section/Testimonials") section in
  paint (str "primary/500");;
  paint (str "accent/500");;
  heading ← createAutoLayout VERTICAL;
  headingBadge ← createAutoLayout HORIZONTAL;
  paint (str "neutral/50");;
  headingBadgeText ← createTextNode (str "Suara tim produk") captionBold
                       (Some (str "neutral/600"));
  let headingBadgeText := set_name (str "Testimonial:BadgeTitle") headingBadgeText in
  let headingBadge := appendChild headingBadge headingBadgeText in
  let heading := appendChild heading headingBadge in
  testimonialHeading ← createTextNode (str "Bagaimana Refigma mempercepat kolaborasi") h2
                         (Some (str "neutral/50"));
  let testimonialHeading := set_name (str "Testimonial:Heading") testimonialHeading in
  let heading := appendChild heading testimonialHeading in
  testimonialSubtitle ← createTextNode
    (str "Ritme sprint lebih ringan karena handoff, dokumentasi, dan perubahan token berjalan serentak.")
    body (Some (str "neutral/100"));
  let testimonialSubtitle := set_name (str "Testimonial:Subtitle") testimonialSubtitle in
  let heading := appendChild heading testimonialSubtitle in
  let section := appendChild section heading in

  content ← createAutoLayout HORIZONTAL;
  c ← createTestimonialCopyColumn;
  let content := appendChild content c in
  c ← createTestimonialCards;
  let content := appendChild content c in
  let section := appendChild section content in
  mret section.

Definition createCTASection : M Node :=
  section ← createAutoLayout VERTICAL;
  let section := set_name (str "Section/CTA") section in
  paint (str "primary/500");;
  paint (str "accent/500");;
  ctaHeading ← createTextNode (str "Siap menjaga konsistensi desain?") h2
                 (Some (str "neutral/50"));
  let ctaHeading := set_name (str "CTA:Heading") ctaHeading in
  let section := appendChild section ctaHeading in
  ctaBody ← createTextNode
    (str "Aktifkan Refigma dan biarkan AI mendokumentasikan setiap keputusan desain.")
    body (Some (str "neutral/100"));
  let ctaBody := set_name (str "CTA:Body") ctaBody in
  let section := appendChild section ctaBody in

  actions ← createAutoLayout HORIZONTAL;
  ctaPrimary ← createButton (str "Mulai gratis") primary;
  let ctaPrimary := set_name (str "CTA:PrimaryButton") ctaPrimary in
  let ctaPrimary := nameLabel (str "CTA:PrimaryLabel") ctaPrimary in
  let actions := appendChild actions ctaPrimary in
  ctaSecondary ← createButton (str "Lihat changelog") ghost;
  let ctaSecondary := set_name (str "CTA:SecondaryButton") ctaSecondary in
  let ctaSecondary := nameLabel (str "CTA:SecondaryLabel") ctaSecondary in
  let actions := appendChild actions ctaSecondary in
  let section := appendChild section actions in
  mret section.

(** [figma.currentPage.appendChild(landing)]: the tree becomes the last
    top-level node of the page; the reference the caller keeps is its
    position there. *)
Definition appendToPage (landing : Node) : M nat := fun w =>
  (Ok (length (page w)), mkWorld (nextId w) (page w ++ [landing]) (log w)).

Definition applyTokensDemo : M nat :=
  landing ← createAutoLayout VERTICAL;
  let landing := set_name (str "Template/Landing-Refigma") landing in
  paint (str "neutral/50");;
  paint (str "neutral/100");;
  paint (str "neutral/200");;
  c ← createHeroSection;
  let landing := appendChild landing c in
  c ← createTestimonialSection;
  let landing := appendChild landing c in
  c ← createCTASection;
  let landing := appendChild landing c in
  ref ← appendToPage landing;
  emit (Select (node_id landing));;
  emit (ScrollIntoView (node_id landing));;
  mret ref.

End Builder.

(** ** Content payload ([GeminiSiteContent])

    Every field is optional; a value parsed from JSON may also be [null]. *)

Inductive optional (A : Type) :=
| undefined
| null
| defined (a : A).
Arguments undefined {A}.
Arguments null {A}.
Arguments defined {A} a.

Record HeroContent := {
  hero_title : optional jsstring;
  hero_subtitle : optional jsstring;
  hero_primaryCta : optional jsstring;
  hero_secondaryCta : optional jsstring;
  hero_assurance : optional jsstring;
  hero_highlights : optional (list (optional jsstring))
}.

Record MetricContent := {
  metric_content_value : optional jsstring;
  metric_content_label : optional jsstring
}.

Record TestimonialContent := {
  testimonial_heading : optional jsstring;
  testimonial_subtitle : optional jsstring;
  testimonial_quote : optional jsstring;
  testimonial_bullets : optional (list (optional jsstring));
  testimonial_attribution : optional jsstring;
  testimonial_attributionRole : optional jsstring;
  testimonial_callout : optional jsstring
}.

Record CtaContent := {
  cta_title : optional jsstring;
  cta_subtitle : optional jsstring;
  cta_primaryCta : optional jsstring;
  cta_secondaryCta : optional jsstring
}.

Record GeminiSiteContent := {
  hero : optional HeroContent;
  metrics : optional (list (optional MetricContent));
  testimonial : optional TestimonialContent;
  cta : optional CtaContent
}.

(** The object literal [{}] read at each payload type. *)
Definition noHero : HeroContent :=
  Build_HeroContent undefined undefined undefined undefined undefined undefined.
Definition noTestimonial : TestimonialContent :=
  Build_TestimonialContent undefined undefined undefined undefined undefined undefined undefined.
Definition noCta : CtaContent := Build_CtaContent undefined undefined undefined undefined.
Definition noContent : GeminiSiteContent :=
  Build_GeminiSiteContent undefined undefined undefined undefined.

(** [x ? x : {}] *)
Definition orElse {A} (x : optional A) (fallback : A) : A :=
  match x with
  | defined a => a
  | _ => fallback
  end.

(** [Array.isArray(x) ? x : []] *)
Definition arrayOrEmpty {A} (x : optional (list A)) : list A :=
  match x with
  | defined l => l
  | _ => []
  end.

(** [list[i]] *)
Definition item {A} (l : list (optional A)) (i : nat) : optional A :=
  match l !! i with
  | Some x => x
  | None => undefined
  end.

(** Truthiness of an optional string. *)
Definition provided (x : optional jsstring) : bool :=
  match x with
  | defined s => truthy s
  | _ => false
  end.

(** ** Content application engine *)

(** A reference to a node of the canvas: the position of its top-level
    ancestor in the page and the path from there. *)
Abbreviation NodeRef := (nat * path)%type.

(** [landing.findOne(callback)]; a reference the program holds always
    points into the page. *)
Definition findOneIn (landing : nat) (p : Node -> bool) : M (option NodeRef) := fun w =>
  match page w !! landing with
  | Some root =>
      (Ok (match findOne p root with
           | Some q => Some (landing, q)
           | None => None
           end), w)
  | None => (Ok None, w)
  end.

Definition readNode (ref : NodeRef) : M (option Node) := fun w =>
  (Ok (match page w !! ref.1 with
       | Some root => node_at ref.2 root
       | None => None
       end), w).

(** Assignment to a property of the referenced node. *)
Definition mutate (ref : NodeRef) (f : Node -> Node) : M unit := fun w =>
  (Ok tt, mkWorld (nextId w) (alter (update ref.2 f) ref.1 (page w)) (log w)).

Definition findText (root : nat) (name : jsstring) : M (option NodeRef) :=
  findOneIn root (fun node => is_type TEXT node && name_is name node).

Definition setText (node : option NodeRef) (value : optional jsstring) : M unit :=
  match node, value with
  | Some ref, defined value =>
      current ← readNode ref;
      match current with
      | Some textNode =>
          match fontName textNode with
          | Mixed rangeFonts =>
              forM (seq 0 (length (characters textNode))) tt
                (fun _ i =>
                   match rangeFonts !! i with
                   | Some rangeFont => loadFontAsync rangeFont
                   | None => mret tt
                   end)
          | Uniform font => loadFontAsync font
          end;;
          mutate ref (set_characters value)
      | None => mret tt
      end
  | _, _ => mret tt
  end.

(** One pass of the highlight loop and of the bullet loop.  The two loops
    differ only in the order of their two look-ups, which read the tree and
    change nothing. *)
Definition applyRow (landing : nat) (rowName textName : jsstring)
  (entry : optional jsstring) : M unit :=
  rowText ← findText landing textName;
  row ← findOneIn landing (fun node => name_is rowName node);
  match provided entry, rowText with
  | true, Some _ =>
      setText rowText entry;;
      match row with
      | Some row => mutate row (set_visible true)
      | None => mret tt
      end
  | _, _ =>
      match row with
      | Some row => mutate row (set_visible false)
      | None => mret tt
      end
  end.

Definition applyGeminiContent (landing : nat) (content : GeminiSiteContent) : M unit :=
  let hero := orElse (hero content) noHero in
  n ← findText landing (str "Hero:Heading"); setText n (hero_title hero);;
  n ← findText landing (str "Hero:Subheading"); setText n (hero_subtitle hero);;
  n ← findText landing (str "HeroCTA:Primary:Label"); setText n (hero_primaryCta hero);;
  n ← findText landing (str "HeroCTA:Secondary:Label"); setText n (hero_secondaryCta hero);;
  n ← findText landing (str "Hero:Assurance"); setText n (hero_assurance hero);;

  let highlightList := arrayOrEmpty (hero_highlights hero) in
  forM (seq 0 3) tt
    (fun _ i =>
       applyRow landing
         (str "Hero:Highlight:" ++ index_text i)
         (str "Hero:Highlight:" ++ index_text i ++ str ":Text")
         (item highlightList i));;

  let metrics := arrayOrEmpty (metrics content) in
  forM (seq 0 3) tt
    (fun _ i =>
       let metric := item metrics i in
       n ← findText landing (str "HeroMetric:" ++ index_text i ++ str ":Value");
       setText n (match metric with
                  | defined metric => metric_content_value metric
                  | _ => undefined
                  end);;
       n ← findText landing (str "HeroMetric:" ++ index_text i ++ str ":Label");
       setText n (match metric with
                  | defined metric => metric_content_label metric
                  | _ => undefined
                  end));;

  let testimonial := orElse (testimonial content) noTestimonial in
  n ← findText landing (str "Testimonial:Heading"); setText n (testimonial_heading testimonial);;
  n ← findText landing (str "Testimonial:Subtitle"); setText n (testimonial_subtitle testimonial);;
  n ← findText landing (str "Testimonial:Quote"); setText n (testimonial_quote testimonial);;
  n ← findText landing (str "Testimonial:Attribution");
  setText n (testimonial_attribution testimonial);;
  n ← findText landing (str "Testimonial:AttributionRole");
  setText n (testimonial_attributionRole testimonial);;
  n ← findText landing (str "Testimonial:Callout"); setText n (testimonial_callout testimonial);;
  let testimonialBullets := arrayOrEmpty (testimonial_bullets testimonial) in
  forM (seq 0 3) tt
    (fun _ i =>
       applyRow landing
         (str "Testimonial:Bullet:" ++ index_text i)
         (str "Testimonial:Bullet:" ++ index_text i ++ str ":Text")
         (item testimonialBullets i));;

  let cta := orElse (cta content) noCta in
  n ← findText landing (str "CTA:Heading"); setText n (cta_title cta);;
  n ← findText landing (str "CTA:Body"); setText n (cta_subtitle cta);;
  n ← findText landing (str "CTA:PrimaryLabel"); setText n (cta_primaryCta cta);;
  n ← findText landing (str "CTA:SecondaryLabel"); setText n (cta_secondaryCta cta).

(** ** Generation orchestrator (plugin entry point) *)

(** The provider's success body, [GeminiResponse]. *)
Record Part := { part_text : option jsstring }.
Record Content := { parts : option (list Part) }.
Record Candidate := { candidate_content : option Content }.
Record GeminiResponse := { candidates : option (list Candidate) }.

(** What the awaited [fetch] and the awaited [response.json()] come to. *)
Inductive FetchOutcome :=
| FetchRejects (e : Exn)
    (* the request itself fails *)
| HttpFailure (statusText : jsstring) (errorMessage : option jsstring)
    (* [!response.ok]; [errorMessage] is [errorBody.error.message] when the
       body parses and carries that string *)
| HttpSuccess (data : result GeminiResponse).
    (* [response.ok]; the body, or the rejection of [response.json()] *)

(** A value of type [unknown] received from the UI. *)
Inductive Unknown :=
| UString (s : jsstring)
| UOther.

(** The candidates for [match[0]] of [/\{[\s\S]*\}/]. *)
Definition BRACE_PATTERN : regex :=
  Group (Cat (lit 123) (Cat (Star (Class (fun _ => true))) (lit 125))).

Definition postStatus (status : Status) (text : jsstring) : M unit :=
  emit (PostStatus status text).

Definition notify (text : jsstring) : M unit := emit (Notify text).

Definition promptSchema : list jsstring :=
  [ str "{";
    str "  " ++ quoted (str "hero") ++ str ": {";
    str "    " ++ quoted (str "title") ++ str ": string,";
    str "    " ++ quoted (str "subtitle") ++ str ": string,";
    str "    " ++ quoted (str "primaryCta") ++ str ": string,";
    str "    " ++ quoted (str "secondaryCta") ++ str ": string,";
    str "    " ++ quoted (str "assurance") ++ str ": string,";
    str "    " ++ quoted (str "highlights") ++ str ": [string, string, string]";
    str "  },";
    str "  " ++ quoted (str "metrics") ++ str ": [";
    str "    { " ++ quoted (str "value") ++ str ": string, " ++ quoted (str "label") ++ str ": string },";
    str "    { " ++ quoted (str "value") ++ str ": string, " ++ quoted (str "label") ++ str ": string },";
    str "    { " ++ quoted (str "value") ++ str ": string, " ++ quoted (str "label") ++ str ": string }";
    str "  ],";
    str "  " ++ quoted (str "testimonial") ++ str ": {";
    str "    " ++ quoted (str "heading") ++ str ": string,";
    str "    " ++ quoted (str "subtitle") ++ str ": string,";
    str "    " ++ quoted (str "quote") ++ str ": string,";
    str "    " ++ quoted (str "bullets") ++ str ": [string, string, string],";
    str "    " ++ quoted (str "attribution") ++ str ": string,";
    str "    " ++ quoted (str "attributionRole") ++ str ": string,";
    str "    " ++ quoted (str "callout") ++ str ": string";
    str "  },";
    str "  " ++ quoted (str "cta") ++ str ": {";
    str "    " ++ quoted (str "title") ++ str ": string,";
    str "    " ++ quoted (str "subtitle") ++ str ": string,";
    str "    " ++ quoted (str "primaryCta") ++ str ": string,";
    str "    " ++ quoted (str "secondaryCta") ++ str ": string";
    str "  }";
    str "}" ].

Definition buildGeminiPrompt (userPrompt : jsstring) : jsstring :=
  join [10]
    ([ str "Anda adalah AI copywriter dan information architect yang membantu mendesain landing page untuk plugin Figma.";
       str "Gunakan deskripsi berikut untuk memahami konteks: " ++ quoted userPrompt ++ str ".";
       str "Balas HANYA dalam format JSON tanpa teks tambahan, menggunakan struktur berikut:" ]
     ++ promptSchema
     ++ [ str "Isi seluruh bidang dengan kalimat yang relevan. Hindari karakter khusus yang tidak diperlukan." ]).

Section Orchestrator.

(** The token schema, the build-time environment, the provider behind
    [fetch], and the host's [JSON.parse], whose result [parseGeminiJson]
    returns at type [GeminiSiteContent] without inspecting it. *)
Variable tk : Tokens.
Variable VITE_GEMINI_API_KEY : option jsstring.
Variable VITE_GEMINI_MODEL : option jsstring.
Variable fetch : Request -> FetchOutcome.
Variable JSON_parse : jsstring -> option GeminiSiteContent.

Definition GEMINI_API_KEY : option jsstring := VITE_GEMINI_API_KEY.
Definition GEMINI_MODEL : jsstring := default (str "gemini-2.5-flash") VITE_GEMINI_MODEL.

Definition parseGeminiJson (rawText : jsstring) : result GeminiSiteContent :=
  match search BRACE_PATTERN rawText with
  | Some (match0 :: _) =>
      match JSON_parse match0 with
      | Some content => Ok content
      | None => Throw (Error (str "Gagal mem-parsing JSON dari Gemini."))
      end
  | _ => Throw (Error (str "Gemini tidak menghasilkan JSON yang valid."))
  end.

(** The text of the first candidate: its parts joined by newlines,
    trimmed. *)
Definition rawTextOf (data : GeminiResponse) : jsstring :=
  match candidates data with
  | Some (candidate :: _) =>
      let parts :=
        match candidate_content candidate with
        | Some content => default [] (parts content)
        | None => []
        end in
      trim (join [10] (map (fun part => default [] (part_text part)) parts))
  | _ => []
  end.

Definition requestGeminiContent (userPrompt : jsstring) : M GeminiSiteContent :=
  let request :=
    {| req_model := GEMINI_MODEL;
       req_key := default [] GEMINI_API_KEY;
       req_prompt := buildGeminiPrompt userPrompt |} in
  emit (Fetch request);;
  match fetch request with
  | FetchRejects e => throw e
  | HttpFailure statusText errorMessage =>
      throw (Error (default (str "Gemini API error: " ++ statusText) errorMessage))
  | HttpSuccess (Throw e) => throw e
  | HttpSuccess (Ok data) =>
      let rawText := rawTextOf data in
      if negb (truthy rawText) then throw (Error (str "Gemini tidak mengembalikan konten."))
      else match parseGeminiJson rawText with
           | Ok content => mret content
           | Throw e => throw e
           end
  end.

(** [typeof prompt !== 'string' || !prompt.trim()] *)
Definition promptRejected (prompt : Unknown) : bool :=
  match prompt with
  | UString s => negb (truthy (trim s))
  | UOther => true
  end.

Definition promptText (prompt : Unknown) : jsstring :=
  match prompt with
  | UString s => s
  | UOther => []
  end.

Definition handleGenerateAiSite (prompt : Unknown) : M unit :=
  if promptRejected prompt then
    postStatus error (str "Masukkan prompt yang jelas untuk Gemini.")
  else if negb (truthy (default [] GEMINI_API_KEY)) then
    postStatus error (str "Konfigurasi Gemini API belum tersedia (VITE_GEMINI_API_KEY).");;
    notify (str "Set VITE_GEMINI_API_KEY di file .env anda.")
  else
    let cleanedPrompt := trim (promptText prompt) in
    try_catch
      (postStatus loading (str "Menghubungi Gemini untuk merumuskan konten...");;
       siteContent ← requestGeminiContent cleanedPrompt;
       postStatus applying (str "Menyiapkan layout Refigma berdasarkan konten Gemini...");;
       landing ← applyTokensDemo tk;
       applyGeminiContent landing siteContent;;
       postStatus success (str "Website selesai digenerate di kanvas.");;
       notify (str "Website hasil Gemini sudah siap!"))
      (fun e =>
         let message :=
           match e with
           | Error message => message
           | NonError => str "Terjadi kesalahan saat memanggil Gemini."
           end in
         postStatus error message;;
         notify (str "Gagal menghasilkan website dari Gemini.");;
         emit (ConsoleError e)).

End Orchestrator.

(** ** A sample schema

    Modelled from the spec: [tokens.json] is not among the sources.  The
    sample has the default theme, the colour groups and shades the builders
    ask for, one group that is a single string, and the seven typography
    variants the builders use; the hex values and sizes are placeholders. *)

Definition shadeMap (l : list (jsstring * jsstring)) : ColorGroup :=
  Shades (list_to_map l).

Definition samplePrimary : gmap jsstring jsstring :=
  list_to_map [ (str "50", str "#eff6ff"); (str "200", str "#bfdbfe");
                (str "300", str "#93c5fd"); (str "400", str "#60a5fa");
                (str "500", str "#3b82f6"); (str "600", str "#2563eb") ].

Definition sampleLight : gmap jsstring ColorGroup :=
  list_to_map
    [ (str "primary", Shades samplePrimary);
      (str "accent",
       shadeMap [ (str "400", str "#c084fc"); (str "500", str "#a855f7") ]);
      (str "neutral",
       shadeMap [ (str "50", str "#f8fafc"); (str "100", str "#f1f5f9");
                  (str "200", str "#e2e8f0"); (str "300", str "#cbd5e1");
                  (str "400", str "#94a3b8"); (str "500", str "#64748b");
                  (str "600", str "#475569"); (str "700", str "#334155");
                  (str "800", str "#1e293b"); (str "900", str "#0f172a") ]);
      (str "surface", Single (str "#ffffff")) ].

Definition sampleColors : gmap jsstring (gmap jsstring ColorGroup) :=
  {[ str "light" := sampleLight ]}.

Definition sampleScale (variant : TypographyVariant) : option TextStyle :=
  Some match variant with
       | h1 => {| fontSize := 56; fontWeight := 700; lineHeight := 64 |}
       | h2 => {| fontSize := 40; fontWeight := 700; lineHeight := 48 |}
       | h3 => {| fontSize := 28; fontWeight := 600; lineHeight := 36 |}
       | body => {| fontSize := 16; fontWeight := 400; lineHeight := 24 |}
       | bodyBold => {| fontSize := 16; fontWeight := 600; lineHeight := 24 |}
       | caption => {| fontSize := 13; fontWeight := 400; lineHeight := 18 |}
       | captionBold => {| fontSize := 13; fontWeight := 500; lineHeight := 18 |}
       end.

Definition sampleTokens : Tokens :=
  {| colors := sampleColors;
     typography_scale := sampleScale;
     typography_fontFamily := str "Inter" |}.

(** ** Vocabulary of the statements *)

(** The two segments [getColor] takes from a token. *)
Definition groupNameOf (token : jsstring) : jsstring := default [] (split 47 token !! 0%nat).
Definition shadeOf (token : jsstring) : jsstring := default [] (split 47 token !! 1%nat).

(** A token neither segment of which is a name that every object
    inherits. *)
Definition palette (token : jsstring) : bool :=
  negb (inherited (groupNameOf token)) && negb (inherited (shadeOf token)).

(** The theme [getColor] reads the group from. *)
Definition resolvedThemeOf (tk : Tokens) (theme : jsstring) : jsstring :=
  if has_key theme (colors tk) || inherited theme then theme else DEFAULT_THEME.

(** A string that is a colour of the schema: a single-string group or an
    entry of a shade map, in some theme. *)
Definition schema_color (tk : Tokens) (v : jsstring) : Prop :=
  ∃ theme themeColors groupName,
    colors tk !! theme = Some themeColors ∧
    (themeColors !! groupName = Some (Single v) ∨
     ∃ group shade, themeColors !! groupName = Some (Shades group) ∧ group !! shade = Some v).

(** [o] is the entry the threshold table yields for weight [w]: the first
    entry whose threshold is at most [w], or the last entry when there is
    none. *)
Definition first_reached (w : Q) (o : InterStyle) : Prop :=
  (∃ before after,
      INTER_STYLES = before ++ o :: after ∧ (threshold o <= w)%Q ∧
      Forall (fun p => ¬ (threshold p <= w)%Q) before)
  ∨ (Forall (fun p => ¬ (threshold p <= w)%Q) INTER_STYLES ∧ o = lastStyle).

(** A number that is not negative, and one of the unit interval. *)
Definition non_negative (x : Double) : Prop :=
  match x with
  | Value q => (0 <= q)%Q
  | PlusInfinity => True
  end.

Definition in_unit (x : Double) : Prop :=
  match x with
  | Value q => (0 <= q)%Q ∧ (q <= 1)%Q
  | PlusInfinity => False
  end.

(** Shapes of text the [rgba(...)] pattern is made of. *)
Definition spaces (w : jsstring) : Prop := Forall (fun c => is_space c = true) w.
Definition all_digits (d : jsstring) : Prop := Forall (fun c => is_digit c = true) d.
Definition digit_run (d : jsstring) : Prop := d ≠ [] ∧ all_digits d.

(** An unsigned integer, or digits (possibly none), a point and at least
    one digit. *)
Inductive decimal_literal : jsstring -> Prop :=
| decimal_integer d : digit_run d -> decimal_literal d
| decimal_fraction ip fp : all_digits ip -> digit_run fp -> decimal_literal (ip ++ 46 :: fp).

(** A letter in either case, from its lower-case code unit. *)
Definition letter (lower : N) (upper : bool) : N := if upper then lower - 32 else lower.

(** The words a regular expression denotes. *)
Inductive lang : regex -> jsstring -> Prop :=
| lang_class p c : p c = true -> lang (Class p) [c]
| lang_cat r1 r2 w1 w2 : lang r1 w1 -> lang r2 w2 -> lang (Cat r1 r2) (w1 ++ w2)
| lang_opt_none r : lang (Opt r) []
| lang_opt_some r w : lang r w -> lang (Opt r) w
| lang_star_nil r : lang (Star r) []
| lang_star_cons r w1 w2 : lang r w1 -> lang (Star r) w2 -> lang (Star r) (w1 ++ w2)
| lang_group r w : lang r w -> lang (Group r) w.

(** The text has a part that is a word of the expression. *)
Definition contains_match (r : regex) (s : jsstring) : Prop :=
  ∃ before w after, s = before ++ w ++ after ∧ lang r w.

(** The next code unit, if any, is outside the class. *)
Definition stops (p : N -> bool) (s : jsstring) : Prop :=
  match s with
  | c :: _ => p c = false
  | [] => True
  end.

(** The text [rgb(] or [rgba(], in any letter case, four components with
    optional white space around them, [)], and whatever follows. *)
Definition rgbaText (u1 u2 u3 : bool) (alpha_letter : option bool)
  (w1 dr w2 w3 dg w4 w5 db w6 w7 da w8 rest : jsstring) : jsstring :=
  [letter 114 u1; letter 103 u2; letter 98 u3]
  ++ match alpha_letter with Some u4 => [letter 97 u4] | None => [] end
  ++ [40] ++ w1 ++ dr ++ w2 ++ [44] ++ w3 ++ dg ++ w4 ++ [44]
  ++ w5 ++ db ++ w6 ++ [44] ++ w7 ++ da ++ w8 ++ [41] ++ rest.

(** What of a tree the anchor look-ups depend on: the type and the name of
    every node and the order of the children. *)
#[warnings="-register-all"]
Inductive Skeleton := SkeletonNode (t : NodeType) (nm : option jsstring) (kids : list Skeleton).

Fixpoint skeleton (n : Node) : Skeleton :=
  match n with
  | mkNode _ t _ nm _ _ _ kids => SkeletonNode t nm (map skeleton kids)
  end.

(** A callback that looks at the type and the name of a node only. *)
Definition by_type_and_name (p : Node -> bool) : Prop :=
  ∀ n1 n2, node_type n1 = node_type n2 → name n1 = name n2 → p n1 = p n2.

(** An assignment to a property other than the type, the name and the
    children. *)
Definition keeps_frame (f : Node -> Node) : Prop :=
  ∀ n, node_type (f n) = node_type n ∧ name (f n) = name n ∧ children (f n) = children n.

(** The look-ups of the content engine. *)
Definition textAnchor (anchor : jsstring) (root : Node) : option path :=
  findOne (fun node => is_type TEXT node && name_is anchor node) root.

Definition namedNode (anchor : jsstring) (root : Node) : option path :=
  findOne (fun node => name_is anchor node) root.

Definition text_at (q : path) (root : Node) : option jsstring :=
  characters <$> node_at q root.

Definition visible_at (q : path) (root : Node) : option bool :=
  visible <$> node_at q root.

(** ** The content engine as a sequence of assignments

    What [applyGeminiContent] does to the landing tree, step by step: a
    text assignment per field and a row step per highlight and bullet, in
    the order of the source. *)

Inductive Op :=
| OpText (anchor : jsstring) (value : optional jsstring)
| OpRow (rowName textName : jsstring) (entry : optional jsstring).

Definition assignText (q : option path) (value : optional jsstring) (root : Node) : Node :=
  match q, value with
  | Some q, defined s => update q (set_characters s) root
  | _, _ => root
  end.

Definition assignVisible (q : option path) (v : bool) (root : Node) : Node :=
  match q with
  | Some q => update q (set_visible v) root
  | None => root
  end.

Definition runOp (op : Op) (root : Node) : Node :=
  match op with
  | OpText anchor value => assignText (textAnchor anchor root) value root
  | OpRow rowName textName entry =>
      let rowText := textAnchor textName root in
      let row := namedNode rowName root in
      match provided entry, rowText with
      | true, Some _ => assignVisible row true (assignText rowText entry root)
      | _, _ => assignVisible row false root
      end
  end.

Definition runPlan (ops : list Op) (root : Node) : Node :=
  foldl (fun t op => runOp op t) root ops.

Definition rowOp (prefix : jsstring) (entries : list (optional jsstring)) (i : nat) : Op :=
  OpRow (prefix ++ index_text i) (prefix ++ index_text i ++ str ":Text") (item entries i).

Definition metricOps (metrics : list (optional MetricContent)) (i : nat) : list Op :=
  [ OpText (str "HeroMetric:" ++ index_text i ++ str ":Value")
      (match item metrics i with
       | defined metric => metric_content_value metric
       | _ => undefined
       end);
    OpText (str "HeroMetric:" ++ index_text i ++ str ":Label")
      (match item metrics i with
       | defined metric => metric_content_label metric
       | _ => undefined
       end) ].

Definition plan (content : GeminiSiteContent) : list Op :=
  let hero := orElse (hero content) noHero in
  let highlightList := arrayOrEmpty (hero_highlights hero) in
  let metrics := arrayOrEmpty (metrics content) in
  let testimonial := orElse (testimonial content) noTestimonial in
  let testimonialBullets := arrayOrEmpty (testimonial_bullets testimonial) in
  let cta := orElse (cta content) noCta in
  [ OpText (str "Hero:Heading") (hero_title hero);
    OpText (str "Hero:Subheading") (hero_subtitle hero);
    OpText (str "HeroCTA:Primary:Label") (hero_primaryCta hero);
    OpText (str "HeroCTA:Secondary:Label") (hero_secondaryCta hero);
    OpText (str "Hero:Assurance") (hero_assurance hero) ]
  ++ map (rowOp (str "Hero:Highlight:") highlightList) (seq 0 3)
  ++ concat (map (metricOps metrics) (seq 0 3))
  ++ [ OpText (str "Testimonial:Heading") (testimonial_heading testimonial);
       OpText (str "Testimonial:Subtitle") (testimonial_subtitle testimonial);
       OpText (str "Testimonial:Quote") (testimonial_quote testimonial);
       OpText (str "Testimonial:Attribution") (testimonial_attribution testimonial);
       OpText (str "Testimonial:AttributionRole") (testimonial_attributionRole testimonial);
       OpText (str "Testimonial:Callout") (testimonial_callout testimonial) ]
  ++ map (rowOp (str "Testimonial:Bullet:") testimonialBullets) (seq 0 3)
  ++ [ OpText (str "CTA:Heading") (cta_title cta);
       OpText (str "CTA:Body") (cta_subtitle cta);
       OpText (str "CTA:PrimaryLabel") (cta_primaryCta cta);
       OpText (str "CTA:SecondaryLabel") (cta_secondaryCta cta) ].

(** A computation that changes the world only by turning the top-level
    node at position [k] into [F] of it and by logging events. *)
Definition tracks (m : M unit) (k : nat) (F : Node -> Node) : Prop :=
  ∀ w t, page w !! k = Some t →
    ∃ events, m w = (Ok tt, mkWorld (nextId w) (<[k := F t]> (page w)) (log w ++ events)).

(** The text anchor a step looks up, the string it assigns there (if it
    assigns one), and the row it looks up. *)
Definition op_text_name (op : Op) : jsstring :=
  match op with
  | OpText anchor _ => anchor
  | OpRow _ textName _ => textName
  end.

Definition op_text_value (op : Op) : option jsstring :=
  match op with
  | OpText _ (defined s) => Some s
  | OpRow _ _ (defined s) => if truthy s then Some s else None
  | _ => None
  end.

Definition op_row_name (op : Op) : option jsstring :=
  match op with
  | OpText _ _ => None
  | OpRow rowName _ _ => Some rowName
  end.

(** The world after the content engine ran. *)
Definition applied (landing : nat) (content : GeminiSiteContent) (w : World) : World :=
  (applyGeminiContent landing content w).2.

(** The arrays the three loops of [applyGeminiContent] run over. *)
Definition highlightsOf (content : GeminiSiteContent) : list (optional jsstring) :=
  arrayOrEmpty (hero_highlights (orElse (hero content) noHero)).

Definition bulletsOf (content : GeminiSiteContent) : list (optional jsstring) :=
  arrayOrEmpty (testimonial_bullets (orElse (testimonial content) noTestimonial)).

Definition metricsOf (content : GeminiSiteContent) : list (optional MetricContent) :=
  arrayOrEmpty (metrics content).

Definition metricValue (content : GeminiSiteContent) (i : nat) : optional jsstring :=
  match item (metricsOf content) i with
  | defined metric => metric_content_value metric
  | _ => undefined
  end.

Definition metricLabel (content : GeminiSiteContent) (i : nat) : optional jsstring :=
  match item (metricsOf content) i with
  | defined metric => metric_content_label metric
  | _ => undefined
  end.

(** Neither a string nor anything else: [undefined] or [null]. *)
Definition absent {A} (x : optional A) : Prop :=
  match x with
  | defined _ => False
  | _ => True
  end.

(** What became of row [i] of a repeatable group, from the tree [root]
    before the engine ran to the tree [root'] after it: with a non-empty
    entry and a text anchor, the anchor holds the entry and the row (when
    there is one) is visible; in every other case the row (when there is
    one) is hidden and the text anchor keeps its text. *)
Definition row_outcome (prefix : jsstring) (entry : optional jsstring) (i : nat)
  (root root' : Node) : Prop :=
  let rowText := textAnchor (prefix ++ index_text i ++ str ":Text") root in
  let row := namedNode (prefix ++ index_text i) root in
  (∀ s qt, entry = defined s → s ≠ [] → rowText = Some qt →
     text_at qt root' = Some s
     ∧ ∀ qr, row = Some qr → visible_at qr root' = Some true)
  ∧ (provided entry = false ∨ rowText = None →
     (∀ qr, row = Some qr → visible_at qr root' = Some false)
     ∧ (∀ qt, rowText = Some qt → text_at qt root' = text_at qt root)).

(** ** Sample worlds and payloads *)

Definition emptyWorld : World := mkWorld 0 [] [].

(** The canvas after one build on an empty page. *)
Definition builtWorld : World := (applyTokensDemo sampleTokens emptyWorld).2.

Definition heroWithHighlights (entries : list (optional jsstring)) : GeminiSiteContent :=
  {| hero := defined
       (Build_HeroContent undefined undefined undefined undefined undefined (defined entries));
     metrics := undefined; testimonial := undefined; cta := undefined |}.

(** [{ hero: { highlights: ["A", "B"] } }] *)
Definition payloadAB : GeminiSiteContent :=
  heroWithHighlights [defined (str "A"); defined (str "B")].

(** [{ hero: { highlights: [""] } }] *)
Definition payloadEmptyItem : GeminiSiteContent :=
  heroWithHighlights [defined []].

(** [{ metrics: [{ value: "72%" }] }] *)
Definition payloadOneMetric : GeminiSiteContent :=
  {| hero := undefined;
     metrics := defined [defined {| metric_content_value := defined (str "72%");
                                    metric_content_label := undefined |}];
     testimonial := undefined; cta := undefined |}.

(** [{ hero: { title: "" } }] *)
Definition payloadEmptyTitle : GeminiSiteContent :=
  {| hero := defined
       (Build_HeroContent (defined []) undefined undefined undefined undefined undefined);
     metrics := undefined; testimonial := undefined; cta := undefined |}.

(** The landing tree of [builtWorld]. *)
Definition builtRoot : Node :=
  default (mkNode 0 FRAME NONE None true [] (Uniform HOST_DEFAULT_FONT) [])
    (page builtWorld !! 0%nat).

(** The text fields of a payload that are not entries of a repeatable row,
    each with the anchor it is written to. *)
Definition textFields (content : GeminiSiteContent) : list (jsstring * optional jsstring) :=
  let hero := orElse (hero content) noHero in
  let testimonial := orElse (testimonial content) noTestimonial in
  let cta := orElse (cta content) noCta in
  [ (str "Hero:Heading", hero_title hero);
    (str "Hero:Subheading", hero_subtitle hero);
    (str "HeroCTA:Primary:Label", hero_primaryCta hero);
    (str "HeroCTA:Secondary:Label", hero_secondaryCta hero);
    (str "Hero:Assurance", hero_assurance hero);
    (str "HeroMetric:0:Value", metricValue content 0);
    (str "HeroMetric:0:Label", metricLabel content 0);
    (str "HeroMetric:1:Value", metricValue content 1);
    (str "HeroMetric:1:Label", metricLabel content 1);
    (str "HeroMetric:2:Value", metricValue content 2);
    (str "HeroMetric:2:Label", metricLabel content 2);
    (str "Testimonial:Heading", testimonial_heading testimonial);
    (str "Testimonial:Subtitle", testimonial_subtitle testimonial);
    (str "Testimonial:Quote", testimonial_quote testimonial);
    (str "Testimonial:Attribution", testimonial_attribution testimonial);
    (str "Testimonial:AttributionRole", testimonial_attributionRole testimonial);
    (str "Testimonial:Callout", testimonial_callout testimonial);
    (str "CTA:Heading", cta_title cta);
    (str "CTA:Body", cta_subtitle cta);
    (str "CTA:PrimaryLabel", cta_primaryCta cta);
    (str "CTA:SecondaryLabel", cta_secondaryCta cta) ].

Definition text_of_op (op : Op) : option (jsstring * optional jsstring) :=
  match op with
  | OpText anchor value => Some (anchor, value)
  | OpRow _ _ _ => None
  end.

(** ** Vocabulary of the orchestrator statements *)

(** A prompt that is not a string, or a string of white space only (the
    empty string included). *)
Definition blank (prompt : Unknown) : Prop :=
  match prompt with
  | UString s => spaces s
  | UOther => True
  end.

(** No provider credential: the variable is unset or empty. *)
Definition credential_missing (key : option jsstring) : Prop :=
  key = None ∨ key = Some [].

(** The text has no [{] with a [}] somewhere after it. *)
Definition no_brace_region (s : jsstring) : Prop :=
  ¬ ∃ before inside after, s = before ++ [123] ++ inside ++ [125] ++ after.

(** [region] runs from the leftmost [{] of the text to its rightmost [}]. *)
Definition brace_region (s region : jsstring) : Prop :=
  ∃ before inside after,
    s = before ++ region ++ after ∧ region = [123] ++ inside ++ [125]
    ∧ (123 ∉ before) ∧ (125 ∉ after).

(** The fixed messages for a response whose content cannot be used. *)
Definition MSG_NO_CONTENT : jsstring := str "Gemini tidak mengembalikan konten.".
Definition MSG_NO_JSON : jsstring := str "Gemini tidak menghasilkan JSON yang valid.".
Definition MSG_PARSE_FAILED : jsstring := str "Gagal mem-parsing JSON dari Gemini.".

Definition contentFormatMessages : list jsstring :=
  [MSG_NO_CONTENT; MSG_NO_JSON; MSG_PARSE_FAILED].

(** The statuses posted to the UI, in order. *)
Definition statuses (events : list Event) : list Status :=
  omap (fun e => match e with PostStatus s _ => Some s | _ => None end) events.

Definition is_fetch (e : Event) : bool :=
  match e with Fetch _ => true | _ => false end.

(** A provider that answers every request with one text part. *)
Definition answering (text : jsstring) : Request -> FetchOutcome := fun _ =>
  HttpSuccess (Ok {| candidates :=
    Some [ {| candidate_content := Some {| parts := Some [ {| part_text := Some text |} ] |} |} ] |}).

(** A [JSON.parse] that rejects every text. *)
Definition rejecting : jsstring -> option GeminiSiteContent := fun _ => None.

(** The request [requestGeminiContent] sends for a user prompt. *)
Definition request_for (key model : option jsstring) (userPrompt : jsstring) : Request :=
  {| req_model := GEMINI_MODEL model;
     req_key := default [] (GEMINI_API_KEY key);
     req_prompt := buildGeminiPrompt userPrompt |}.

(** The events of a run that fails on the content of the response. *)
Definition failedRunEvents (request : Request) (message : jsstring) : list Event :=
  [ PostStatus loading (str "Menghubungi Gemini untuk merumuskan konten...");
    Fetch request;
    PostStatus error message;
    Notify (str "Gagal menghasilkan website dari Gemini.");
    ConsoleError (Error message) ].

(** ** Vocabulary of the build statements *)

(** A tree without the identities the host gave its nodes. *)
Fixpoint anonymous (n : Node) : Node :=
  match n with
  | mkNode _ t lm nm v c f kids => mkNode 0 t lm nm v c f (map anonymous kids)
  end.

(** Two trees that differ in node identities at most. *)
Definition same_shape (n1 n2 : Node) : Prop := anonymous n1 = anonymous n2.

(** The names given to nodes of a tree, in document order. *)
Fixpoint anchor_names (n : Node) : list jsstring :=
  match n with
  | mkNode _ _ _ nm _ _ _ kids =>
      match nm with Some s => [s] | None => [] end ++ concat (map anchor_names kids)
  end.

Fixpoint skeleton_names (s : Skeleton) : list jsstring :=
  match s with
  | SkeletonNode _ nm kids =>
      match nm with Some s => [s] | None => [] end ++ concat (map skeleton_names kids)
  end.

Definition anchor_set (n : Node) : gset jsstring := list_to_set (anchor_names n).

(** The schema has no style for some typography variant. *)
Definition lacks_variant (tk : Tokens) : Prop :=
  ∃ variant, typography_scale tk variant = None.

(** The schema cannot be built from: it has no default theme, or no style
    for some typography variant. *)
Definition unbuildable (tk : Tokens) : Prop :=
  colors tk !! DEFAULT_THEME = None ∨ lacks_variant tk.

(** A fill token, when there is one, is a [palette] token. *)
Definition palette_fill (fillToken : option jsstring) : bool :=
  from_option palette true fillToken.

(** Two computations that, from any two worlds, both return, with related
    results, or both throw, the same exception, which happens under
    [may_throw] only; neither touches the page. *)
Definition sim {A} (may_throw : Prop) (R : A -> A -> Prop) (m1 m2 : M A) : Prop :=
  ∀ w1 w2,
    match m1 w1, m2 w2 with
    | (Ok a1, w1'), (Ok a2, w2') => R a1 a2 ∧ page w1' = page w1 ∧ page w2' = page w2
    | (Throw e1, w1'), (Throw e2, w2') =>
        e1 = e2 ∧ may_throw ∧ page w1' = page w1 ∧ page w2' = page w2
    | _, _ => False
    end.

(** [applyTokensDemo] up to the point where the landing tree is complete,
    and from there on. *)
Definition buildLanding (tk : Tokens) : M Node :=
  landing ← createAutoLayout VERTICAL;
  let landing := set_name (str "Template/Landing-Refigma") landing in
  paint tk (str "neutral/50");;
  paint tk (str "neutral/100");;
  paint tk (str "neutral/200");;
  c ← createHeroSection tk;
  let landing := appendChild landing c in
  c ← createTestimonialSection tk;
  let landing := appendChild landing c in
  c ← createCTASection tk;
  let landing := appendChild landing c in
  mret landing.

Definition publish (landing : Node) : M nat :=
  ref ← appendToPage landing;
  emit (Select (node_id landing));;
  emit (ScrollIntoView (node_id landing));;
  mret ref.

(** Any code unit: the class [[\s\S]]. *)
Abbreviation any_unit := (Class (fun _ => true)).

(** * More of the sources *)

(** ** Token resolver: [spacing]

    The scale is [tokens.spacing.base.scale], read from the schema file
    that is not among the sources: it is a parameter.  The builders call
    [spacing] with integer literals; the step is an integer. *)

Definition spacing (scale : list Q) (step : Z) : option Q :=
  let index := Z.max 0 (Z.min (Z.of_nat (length scale) - 1) step)%Z in
  scale !! Z.to_nat index.

(** ** Colour codec: [hexToRgb] and [hexToRgba] *)

(** [hex.replace('#', '')]: the first occurrence is removed. *)
Fixpoint removeFirst (x : N) (s : jsstring) : jsstring :=
  match s with
  | [] => []
  | c :: s' => if c =? x then s' else c :: removeFirst x s'
  end.

Definition hexDigit (c : N) : option Z :=
  if (48 <=? c) && (c <=? 57) then Some (Z.of_N c - 48)%Z
  else if (97 <=? c) && (c <=? 102) then Some (Z.of_N c - 87)%Z
  else if (65 <=? c) && (c <=? 70) then Some (Z.of_N c - 55)%Z
  else None.

Definition is_hexDigit (c : N) : bool :=
  match hexDigit c with Some _ => true | None => false end.

(** The longest prefix of hexadecimal digits. *)
Fixpoint hexPrefix (s : jsstring) : jsstring :=
  match s with
  | c :: s' => if is_hexDigit c then c :: hexPrefix s' else []
  | [] => []
  end.

Definition hexValue (digits : jsstring) : Z :=
  fold_left (fun acc c => (16 * acc + default 0 (hexDigit c))%Z) digits 0%Z.

(** [parseInt(string, 16)]: leading white space, a sign and a [0x] prefix
    are skipped, then the longest run of hexadecimal digits is read; no
    digit gives [NaN]. *)
Definition parseInt16 (s : jsstring) : JsInt :=
  let s := trimStart s in
  let '(negative, s) :=
    match s with
    | 45 :: s' => (true, s')
    | 43 :: s' => (false, s')
    | _ => (false, s)
    end in
  let s :=
    match s with
    | 48 :: x :: s' => if (x =? 120) || (x =? 88) then s' else s
    | _ => s
    end in
  match hexPrefix s with
  | [] => NaN
  | digits =>
      match toDouble (hexValue digits) with
      | Finite n => Finite (if negative then (- n)%Z else n)
      | other => other
      end
  end.

(** The conversion of a number to a signed 32-bit integer that [>>] and
    [&] apply to their operands. *)
Definition toInt32 (x : JsInt) : Z :=
  match x with
  | Finite n =>
      let m := (n mod 2 ^ 32)%Z in
      if (m <? 2 ^ 31)%Z then m else (m - 2 ^ 32)%Z
  | _ => 0%Z
  end.

Record RGB := { rgb_r : Q; rgb_g : Q; rgb_b : Q }.

Definition hexToRgb (hex : jsstring) : RGB :=
  let stripped := removeFirst 35 hex in
  let value := toInt32 (parseInt16 stripped) in
  let r := Z.land (Z.shiftr value 16) 255 in
  let g := Z.land (Z.shiftr value 8) 255 in
  let b := Z.land value 255 in
  {| rgb_r := inject_Z r / 255; rgb_g := inject_Z g / 255; rgb_b := inject_Z b / 255 |}.

(** [hexToRgba(hex, alpha = 1)] *)
Definition hexToRgba (hex : jsstring) (alpha : option Q) : RGBA :=
  let rgb := hexToRgb hex in
  {| r := rgb_r rgb; g := rgb_g rgb; b := rgb_b rgb; a := default 1%Q alpha |}.

(** A non-empty run of hexadecimal digits. *)
Definition hex_run (digits : jsstring) : Prop :=
  digits ≠ [] ∧ Forall (fun c => is_hexDigit c = true) digits.

(** Byte [i] (counted from the low end) of an integer. *)
Definition byteOf (i : Z) (n : Z) : Z := ((n / 2 ^ (8 * i)) mod 256)%Z.

(** ** Vocabulary of the further statements *)

(** A tree with every text body emptied and every node shown: what is
    left of a tree is what the content engine never writes. *)
Fixpoint blanked (n : Node) : Node :=
  match n with
  | mkNode i t lm nm _ _ f kids => mkNode i t lm nm true [] f (map blanked kids)
  end.

Definition is_font_load (e : Event) : bool :=
  match e with LoadFont _ => true | _ => false end.

Definition font_loads (events : list Event) : Prop :=
  Forall (fun e => is_font_load e = true) events.

(** A computation that, whether it returns or throws, adds nothing to the
    log but font loads and never takes back a node identity. *)
Definition quiet {A} (m : M A) : Prop :=
  ∀ w, ∃ events,
    log (m w).2 = log w ++ events ∧ font_loads events ∧ nextId w <= nextId (m w).2.

(** The path [q] is where some look-up of the plan finds its text
    anchor, or its row. *)
Definition text_target (ops : list Op) (root : Node) (q : path) : Prop :=
  ∃ op, op ∈ ops ∧ textAnchor (op_text_name op) root = Some q.

Definition row_target (ops : list Op) (root : Node) (q : path) : Prop :=
  ∃ op rowName, op ∈ ops ∧ op_row_name op = Some rowName
                ∧ namedNode rowName root = Some q.

(** The text the UI is shown for a caught exception. *)
Definition reportedMessage (e : Exn) : jsstring :=
  match e with
  | Error message => message
  | NonError => str "Terjadi kesalahan saat memanggil Gemini."
  end.

(** The events of a run whose request ends in the exception [e]. *)
Definition rejectedRunEvents (request : Request) (e : Exn) : list Event :=
  [ PostStatus loading (str "Menghubungi Gemini untuk merumuskan konten...");
    Fetch request;
    PostStatus error (reportedMessage e);
    Notify (str "Gagal menghasilkan website dari Gemini.");
    ConsoleError e ].

(** A provider whose request never completes, and one that answers with an
    HTTP error. *)
Definition unreachable (e : Exn) : Request -> FetchOutcome := fun _ => FetchRejects e.

Definition refusing (statusText : jsstring) (errorMessage : option jsstring)
  : Request -> FetchOutcome := fun _ => HttpFailure statusText errorMessage.

(** ** Vocabulary of the build contract *)

(** The schema has the default theme. *)
Definition themed (tk : Tokens) : Prop := is_Some (colors tk !! DEFAULT_THEME).

(** The schema has a style for every typography variant. *)
Definition complete (tk : Tokens) : Prop :=
  ∀ variant, is_Some (typography_scale tk variant).

(** A tree without the identities of its nodes and without their fonts,
    the two things that depend on the state of the host and on the token
    schema. *)
Fixpoint plain (n : Node) : Node :=
  match n with
  | mkNode _ t lm nm v c _ kids =>
      mkNode 0 t lm nm v c (Uniform HOST_DEFAULT_FONT) (map plain kids)
  end.

(** Two trees with the same structure, types, names, layout, visibility
    and text. *)
Definition same_design (n1 n2 : Node) : Prop := plain n1 = plain n2.

(** The view events that end a build. *)
Definition viewEvents (landing : Node) : list Event :=
  [Select (node_id landing); ScrollIntoView (node_id landing)].

(** All identities in a tree, in document order. *)
Fixpoint node_ids (n : Node) : list N :=
  match n with
  | mkNode i _ _ _ _ _ _ kids => i :: concat (map node_ids kids)
  end.

(** [handleApplyTokens] *)
Definition handleApplyTokens (tk : Tokens) : M unit :=
  applyTokensDemo tk;;
  notify (str "Refigma tokens applied to new frame.").

(** The events of a run that succeeds: the build of the frame [landing]
    with its font loads, then the font loads of the content engine. *)
Definition successRunEvents (request : Request) (landing : Node)
  (buildFonts contentFonts : list Event) : list Event :=
  [ PostStatus loading (str "Menghubungi Gemini untuk merumuskan konten...");
    Fetch request;
    PostStatus applying (str "Menyiapkan layout Refigma berdasarkan konten Gemini...") ]
  ++ buildFonts ++ viewEvents landing ++ contentFonts
  ++ [ PostStatus success (str "Website selesai digenerate di kanvas.");
       Notify (str "Website hasil Gemini sudah siap!") ].

(** A [JSON.parse] that reads every text as the same payload. *)
Definition reading (content : GeminiSiteContent) : jsstring -> option GeminiSiteContent :=
  fun _ => Some content.

(** The two repeatable rows of a payload: the prefix of their anchors and
    their entries. *)
Definition repeatableRows (content : GeminiSiteContent)
  : list (jsstring * list (optional jsstring)) :=
  [ (str "Hero:Highlight:", highlightsOf content);
    (str "Testimonial:Bullet:", bulletsOf content) ].

(** The status sequences a run can show. *)
Definition runStatuses : list (list Status) :=
  [ [error]; [loading; error]; [loading; applying; error]; [loading; applying; success] ].

(** A text that neither starts nor ends with white space. *)
Definition trimmed (s : jsstring) : Prop :=
  match s with
  | [] => True
  | c :: _ => is_space c = false
  end
  ∧ match last s with
    | Some c => is_space c = false
    | None => True
    end.

(** Where the user's text starts in the prompt sent to the provider. *)
Definition promptOffset : nat :=
  Eval vm_compute in
    length (str "Anda adalah AI copywriter dan information architect yang membantu mendesain landing page untuk plugin Figma."
            ++ [10] ++ str "Gunakan deskripsi berikut untuk memahami konteks: " ++ [34]).

(** ** The entry points ([figma.on('run')], [figma.ui.onmessage]) *)

(** A message from the UI that is an object: its [type], of any type, and
    its [prompt].  A message that is [null], [undefined] or no object is
    [None]. *)
Record Message := { message_type : Unknown; message_prompt : Unknown }.

Definition is_string (x : Unknown) (s : jsstring) : bool :=
  match x with
  | UString t => bool_decide (t = s)
  | UOther => false
  end.

Section EntryPoints.

Variable tk : Tokens.
Variable VITE_GEMINI_API_KEY : option jsstring.
Variable VITE_GEMINI_MODEL : option jsstring.
Variable fetch : Request -> FetchOutcome.
Variable JSON_parse : jsstring -> option GeminiSiteContent.

Definition onRun (command : Unknown) : M unit :=
  if is_string command (str "apply-tokens-demo") then handleApplyTokens tk
  else mret tt.

Definition onmessage (message : option Message) : M unit :=
  match message with
  | Some message =>
      if is_string (message_type message) (str "apply-tokens-demo") then
        handleApplyTokens tk
      else if is_string (message_type message) (str "generate-ai-site") then
        handleGenerateAiSite tk VITE_GEMINI_API_KEY VITE_GEMINI_MODEL fetch JSON_parse
          (message_prompt message)
      else mret tt
  | None => mret tt
  end.

End EntryPoints.

(** ** Vocabulary of the failing build *)

(** Two schemas with styles for the same typography variants. *)
Definition same_variants (tk1 tk2 : Tokens) : Prop :=
  ∀ variant,
    is_Some (typography_scale tk1 variant) ↔ is_Some (typography_scale tk2 variant).

(** The typography variants in the order in which a build first asks for
    them. *)
Definition variantUseOrder : list TypographyVariant :=
  [captionBold; caption; h1; body; bodyBold; h3; h2].

Definition lacks (tk : Tokens) (variant : TypographyVariant) : bool :=
  match typography_scale tk variant with
  | None => true
  | Some _ => false
  end.

(** The first variant a build asks for that the schema has no style for. *)
Definition firstLacking (tk : Tokens) : option TypographyVariant :=
  List.find (lacks tk) variantUseOrder.

(** The sample schema cut down to the variants chosen. *)
Definition domainTokens (d : TypographyVariant -> bool) : Tokens :=
  {| colors := sampleColors;
     typography_scale := fun variant => if d variant then sampleScale variant else None;
     typography_fontFamily := str "Inter" |}.

Definition unknownVariant (variant : TypographyVariant) : Exn :=
  Error (str "Unknown typography variant: " ++ variant_text variant).

(** The seven variants, chosen one by one. *)
Definition variantChoice (b1 b2 b3 bBody bBodyBold bCaption bCaptionBold : bool)
  (variant : TypographyVariant) : bool :=
  match variant with
  | h1 => b1 | h2 => b2 | h3 => b3
  | body => bBody | bodyBold => bBodyBold
  | caption => bCaption | captionBold => bCaptionBold
  end.

(** The exception a computation ended in, if any. *)
Definition thrown {A} (r : result A) : option Exn :=
  match r with
  | Ok _ => None
  | Throw e => Some e
  end.

(** ** Vocabulary of the font discipline *)

(** The font the schema gives some typography variant. *)
Definition schemaFont (tk : Tokens) (font : FontName) : Prop :=
  ∃ variant style,
    typography_scale tk variant = Some style
    ∧ font = resolveInterFont tk (fontWeight style).

(** A text node has one font, a font of the schema, and [E] holds of it;
    other nodes are not concerned. *)
Definition text_ready (tk : Tokens) (E : FontName -> Prop) (m : Node) : Prop :=
  node_type m = TEXT →
  ∃ font, fontName m = Uniform font ∧ schemaFont tk font ∧ E font.

Definition styled (tk : Tokens) (E : FontName -> Prop) (n : Node) : Prop :=
  ∀ q m, node_at q n = Some m → text_ready tk E m.

Definition loaded_in (events : list Event) (font : FontName) : Prop :=
  LoadFont font ∈ events.

(** A builder whose text nodes all have a font of the schema that was
    loaded during the call, or of which [E] holds already. *)
Definition styles (tk : Tokens) (E : FontName -> Prop) (m : M Node) : Prop :=
  ∀ w,
    match m w with
    | (Ok n, w') =>
        ∃ events, log w' = log w ++ events
                  ∧ styled tk (fun font => E font ∨ loaded_in events font) n
    | (Throw _, _) => True
    end.

(** * Properties *)

(** ** Strings *)

Example split_token : split 47 (str "primary/500") = [str "primary"; str "500"].
Proof. reflexivity. Qed.

Example split_no_separator : split 47 (str "surface") = [str "surface"].
Proof. reflexivity. Qed.

Example split_trailing_separator : split 47 (str "primary/") = [str "primary"; []].
Proof. reflexivity. Qed.

Example trim_both_ends : trim (str "  landing page ") = str "landing page".
Proof. reflexivity. Qed.

Example index_text_two_digits : index_text 12 = str "12".
Proof. reflexivity. Qed.

(** ** Token resolver *)

Lemma chooseStyle_first (w : Q) (options : list InterStyle) (chosen : InterStyle) :
  (∃ before o after,
      options = before ++ o :: after ∧ chooseStyle w options chosen = o ∧
      (threshold o <= w)%Q ∧ Forall (fun p => ¬ (threshold p <= w)%Q) before)
  ∨ (Forall (fun p => ¬ (threshold p <= w)%Q) options ∧ chooseStyle w options chosen = chosen).
Proof.
  induction options as [|o rest IH]; simpl.
  - right. split; [constructor | reflexivity].
  - destruct (Qle_bool (threshold o) w) eqn:Hle.
    + left. exists [], o, rest. repeat split; [by apply Qle_bool_iff | constructor].
    + assert (Hnot : ¬ (threshold o <= w)%Q).
      { intros H. apply Qle_bool_iff in H. congruence. }
      destruct IH as [(before & o' & after & -> & Hc & Hle' & Hall) | [Hall Hc]].
      * left. exists (o :: before), o', after. repeat split; auto.
      * right. split; auto.
Qed.

Lemma chosenStyle_first_reached (w : Q) : first_reached w (chosenStyle w).
Proof.
  unfold first_reached, chosenStyle.
  destruct (chooseStyle_first w INTER_STYLES lastStyle)
    as [(before & o & after & Heq & Hc & Hle & Hall) | [Hall Hc]].
  - left. exists before, after. rewrite Hc. auto.
  - right. auto.
Qed.

Lemma chosenStyle_cases (w : Q) :
  ((700 <= w)%Q ∧ threshold (chosenStyle w) = 700%Q)
  ∨ ((600 <= w)%Q ∧ (w < 700)%Q ∧ threshold (chosenStyle w) = 600%Q)
  ∨ ((500 <= w)%Q ∧ (w < 600)%Q ∧ threshold (chosenStyle w) = 500%Q)
  ∨ ((w < 500)%Q ∧ threshold (chosenStyle w) = 0%Q).
Proof.
  unfold chosenStyle, INTER_STYLES, chooseStyle, threshold.
  destruct (Qle_bool 700 w) eqn:H7.
  { left. split; [by apply Qle_bool_iff | reflexivity]. }
  assert (w < 700)%Q.
  { apply Qnot_le_lt. intros H. apply Qle_bool_iff in H. congruence. }
  destruct (Qle_bool 600 w) eqn:H6.
  { right; left. repeat split; [by apply Qle_bool_iff | done]. }
  assert (w < 600)%Q.
  { apply Qnot_le_lt. intros H'. apply Qle_bool_iff in H'. congruence. }
  destruct (Qle_bool 500 w) eqn:H5.
  { right; right; left. repeat split; [by apply Qle_bool_iff | done]. }
  assert (w < 500)%Q.
  { apply Qnot_le_lt. intros H'. apply Qle_bool_iff in H'. congruence. }
  right; right; right. split; [done|].
  destruct (Qle_bool 0 w); reflexivity.
Qed.

(** C9. [resolveInterFont] takes, from the threshold table (ordered by
    descending threshold, ending with threshold 0), the first entry whose
    threshold is at most the weight, and the last entry when there is none;
    the selection is monotonic: for weights [w1 < w2] the threshold selected
    for [w1] is at most the threshold selected for [w2]. *)
Theorem resolveInterFont_monotonic (tk : Tokens) (w1 w2 : Q) :
  (w1 < w2)%Q →
  StronglySorted (fun x y => (threshold y < threshold x)%Q) INTER_STYLES
  ∧ threshold lastStyle = 0%Q
  ∧ first_reached w1 (chosenStyle w1)
  ∧ first_reached w2 (chosenStyle w2)
  ∧ style (resolveInterFont tk w1) = style_name (chosenStyle w1)
  ∧ style (resolveInterFont tk w2) = style_name (chosenStyle w2)
  ∧ (threshold (chosenStyle w1) <= threshold (chosenStyle w2))%Q.
Proof.
  intros Hlt. repeat split; try apply chosenStyle_first_reached.
  - unfold INTER_STYLES. repeat constructor; simpl; reflexivity.
  - destruct (chosenStyle_cases w1) as [[? ->]|[(? & ? & ->)|[(? & ? & ->)|[? ->]]]];
    destruct (chosenStyle_cases w2) as [[? ->]|[(? & ? & ->)|[(? & ? & ->)|[? ->]]]];
    lra.
Qed.

Lemma resolveInterFont_monotonic_witness :
  (400 < 650)%Q ∧ (threshold (chosenStyle 400) <= threshold (chosenStyle 650))%Q.
Proof.
  split; [reflexivity|].
  apply (resolveInterFont_monotonic sampleTokens 400 650). reflexivity.
Defined.

Lemma has_key_true {V} (key : jsstring) (m : gmap jsstring V) :
  has_key key m = true ↔ is_Some (m !! key).
Proof. unfold has_key. apply bool_decide_eq_true. Qed.

Lemma has_key_false {V} (key : jsstring) (m : gmap jsstring V) :
  has_key key m = false ↔ m !! key = None.
Proof.
  unfold has_key. rewrite bool_decide_eq_false. split.
  - intros H. destruct (m !! key) eqn:E; [|done]. exfalso. apply H. eauto.
  - intros -> [x Hx]. discriminate.
Qed.

Lemma truthy_false (s : jsstring) : truthy s = false ↔ s = [].
Proof. destruct s; simpl; split; congruence. Qed.

Lemma truthy_true (s : jsstring) : truthy s = true ↔ s ≠ [].
Proof. destruct s; simpl; split; congruence. Qed.

Lemma in_object_own {V} (key : jsstring) (m : gmap jsstring V) :
  inherited key = false → in_object key m = has_key key m.
Proof. unfold in_object. intros ->. apply orb_false_r. Qed.

(** [getColor] once the theme and the group are known to resolve to a shade
    map. *)
Lemma getColor_shades (tk : Tokens) (theme token : jsstring)
  (themeColors : gmap jsstring ColorGroup) (group : gmap jsstring jsstring) :
  colors tk !! resolvedThemeOf tk theme = Some themeColors →
  themeColors !! groupNameOf token = Some (Shades group) →
  getColor tk theme token =
    if negb (truthy (shadeOf token)) && has_key (str "500") group
    then Some (from_option Text (Member (str "500")) (group !! str "500"))
    else if in_object (shadeOf token) group
         then Some (from_option Text (Member (shadeOf token)) (group !! shadeOf token))
         else Some (Text DEFAULT_COLOR).
Proof.
  unfold getColor, resolvedThemeOf, groupNameOf, shadeOf.
  intros -> ->. rewrite (in_object_own (str "500")) by reflexivity.
  destruct (group !! str "500"), (group !! default [] (split 47 token !! 1%nat));
    reflexivity.
Qed.

(** C1 (amended). When the resolved group is a shade map: an omitted shade
    reads the ["500"] entry when the group has one, and otherwise the entry
    under the empty key or, failing that, the fixed default colour; a shade
    that is given reads its own entry when the group has it; when the group
    does not have it, whether or not the group has ["500"], the result is
    the fixed default colour, unless the shade is a name every object
    inherits, in which case it is the inherited member. *)
Theorem getColor_shade_map (tk : Tokens) (theme token : jsstring)
  (themeColors : gmap jsstring ColorGroup) (group : gmap jsstring jsstring) :
  colors tk !! resolvedThemeOf tk theme = Some themeColors →
  themeColors !! groupNameOf token = Some (Shades group) →
  (shadeOf token = [] →
     ∀ c, group !! str "500" = Some c → getColor tk theme token = Some (Text c))
  ∧ (shadeOf token = [] → group !! str "500" = None →
     getColor tk theme token = Some (Text (default DEFAULT_COLOR (group !! []))))
  ∧ (shadeOf token ≠ [] →
     ∀ c, group !! shadeOf token = Some c → getColor tk theme token = Some (Text c))
  ∧ (shadeOf token ≠ [] → group !! shadeOf token = None →
     getColor tk theme token
     = if inherited (shadeOf token) then Some (Member (shadeOf token))
       else Some (Text DEFAULT_COLOR)).
Proof.
  intros Htheme Hgroup. rewrite (getColor_shades _ _ _ _ _ Htheme Hgroup).
  repeat split.
  - intros Hs c Hc. apply truthy_false in Hs. rewrite Hs. simpl.
    assert (has_key (str "500") group = true) as -> by (apply has_key_true; eauto).
    by rewrite Hc.
  - intros Hs Hc. pose proof Hs as Hs'. apply truthy_false in Hs'. rewrite Hs'. simpl.
    assert (has_key (str "500") group = false) as -> by by apply has_key_false.
    rewrite Hs, (in_object_own []) by reflexivity. destruct (group !! []) as [c|] eqn:E.
    + assert (has_key [] group = true) as -> by (apply has_key_true; eauto).
      reflexivity.
    + assert (has_key [] group = false) as -> by by apply has_key_false.
      reflexivity.
  - intros Hs c Hc. apply truthy_true in Hs. rewrite Hs. simpl.
    unfold in_object.
    assert (has_key (shadeOf token) group = true) as -> by (apply has_key_true; eauto).
    by rewrite Hc.
  - intros Hs Hc. apply truthy_true in Hs. rewrite Hs. simpl.
    unfold in_object.
    assert (has_key (shadeOf token) group = false) as -> by by apply has_key_false.
    rewrite Hc. by destruct (inherited (shadeOf token)).
Qed.

Lemma getColor_shade_map_witness :
  getColor sampleTokens (str "light") (str "primary/999") = Some (Text DEFAULT_COLOR)
  ∧ getColor sampleTokens (str "light") (str "primary/toString")
    = Some (Member (str "toString")).
Proof.
  split.
  - refine (proj2 (proj2 (proj2
      (getColor_shade_map sampleTokens (str "light") (str "primary/999")
         sampleLight samplePrimary _ _))) _ _).
    + vm_compute. reflexivity.
    + vm_compute. reflexivity.
    + vm_compute. discriminate.
    + vm_compute. reflexivity.
  - refine (proj2 (proj2 (proj2
      (getColor_shade_map sampleTokens (str "light") (str "primary/toString")
         sampleLight samplePrimary _ _))) _ _).
    + vm_compute. reflexivity.
    + vm_compute. reflexivity.
    + vm_compute. discriminate.
    + vm_compute. reflexivity.
Defined.

(** C1, as stated, fails: the group [primary] of the sample schema is a
    shade map that has ["500"] and lacks ["999"], and the explicit request
    for ["primary/999"] returns the fixed default colour, not the ["500"]
    entry. *)
Lemma getColor_missing_shade_counterexample :
  ∃ themeColors group c500,
    colors sampleTokens !! str "light" = Some themeColors
    ∧ themeColors !! groupNameOf (str "primary/999") = Some (Shades group)
    ∧ shadeOf (str "primary/999") = str "999"
    ∧ group !! str "999" = None
    ∧ group !! str "500" = Some c500
    ∧ getColor sampleTokens (str "light") (str "primary/999") = Some (Text DEFAULT_COLOR)
    ∧ DEFAULT_COLOR ≠ c500.
Proof.
  eexists _, samplePrimary, (str "#3b82f6").
  repeat split; try (vm_compute; reflexivity).
  vm_compute. discriminate.
Qed.

(** [getColor] with the default theme, on a token neither segment of which
    is a name that every object inherits: it throws when the schema has no
    default theme, and returns a string otherwise. *)
Lemma getColor_default_theme (tk : Tokens) (token : jsstring) :
  palette token = true →
  match colors tk !! DEFAULT_THEME with
  | Some _ => ∃ hex, getColor tk DEFAULT_THEME token = Some (Text hex)
  | None => getColor tk DEFAULT_THEME token = None
  end.
Proof.
  unfold palette, groupNameOf, shadeOf. intros Hp.
  apply andb_true_iff in Hp as [Hg Hs].
  apply negb_true_iff in Hg. apply negb_true_iff in Hs.
  unfold getColor.
  replace (if has_key DEFAULT_THEME (colors tk) || inherited DEFAULT_THEME
           then DEFAULT_THEME else DEFAULT_THEME) with DEFAULT_THEME
    by (by destruct (has_key DEFAULT_THEME (colors tk) || inherited DEFAULT_THEME)).
  destruct (colors tk !! DEFAULT_THEME) as [themeColors|]; [|reflexivity].
  rewrite Hg.
  destruct (themeColors !! default [] (split 47 token !! 0%nat)) as [[hex|group]|].
  - destruct (truthy hex); simpl; eauto.
  - rewrite (in_object_own (str "500")) by reflexivity. rewrite (in_object_own _ _ Hs).
    destruct (negb (truthy (default [] (split 47 token !! 1%nat))) && has_key (str "500") group)
      eqn:E1.
    { apply andb_true_iff in E1 as [_ E1]. apply has_key_true in E1 as [c ->]. eauto. }
    destruct (has_key (default [] (split 47 token !! 1%nat)) group) eqn:E2; [|eauto].
    apply has_key_true in E2 as [c ->]. eauto.
  - eauto.
Qed.

(** C8 (amended). On a schema that has the default theme, for a theme and
    a token none of whose names is one that every object inherits,
    [getColor] returns, and what it returns is a colour of the schema or
    the fixed default colour; for such a theme that the schema does not
    have, the result is the one of the default theme for the same token. *)
Theorem getColor_total (tk : Tokens) (theme token : jsstring) :
  is_Some (colors tk !! DEFAULT_THEME) →
  inherited theme = false →
  inherited (groupNameOf token) = false →
  inherited (shadeOf token) = false →
  (∃ v, getColor tk theme token = Some (Text v) ∧ (schema_color tk v ∨ v = DEFAULT_COLOR))
  ∧ (colors tk !! theme = None →
     getColor tk theme token = getColor tk DEFAULT_THEME token).
Proof.
  intros [lightColors Hlight] Htheme0 Hg Hs. split.
  - assert (∃ themeColors, colors tk !! resolvedThemeOf tk theme = Some themeColors)
      as [themeColors Htheme].
    { unfold resolvedThemeOf. rewrite Htheme0, orb_false_r.
      destruct (has_key theme (colors tk)) eqn:E.
      - apply has_key_true in E as [x Hx]. eauto.
      - eauto. }
    unfold getColor. fold (resolvedThemeOf tk theme). rewrite Htheme.
    fold (groupNameOf token). fold (shadeOf token). rewrite Hg.
    destruct (themeColors !! groupNameOf token) as [[hex|group]|] eqn:Hgroup.
    + destruct (truthy hex); simpl; eexists; split; eauto.
      left. exists (resolvedThemeOf tk theme), themeColors, (groupNameOf token). eauto.
    + assert (Hin : ∀ shade c, group !! shade = Some c → schema_color tk c).
      { intros shade c Hc.
        exists (resolvedThemeOf tk theme), themeColors, (groupNameOf token).
        split; [done|]. right. eauto. }
      rewrite (in_object_own (str "500")) by reflexivity. rewrite (in_object_own _ _ Hs).
      destruct (negb (truthy (shadeOf token)) && has_key (str "500") group) eqn:E1.
      { apply andb_true_iff in E1 as [_ E1]. apply has_key_true in E1 as [c Hc].
        rewrite Hc. eexists; split; eauto. }
      destruct (has_key (shadeOf token) group) eqn:E2; [|eexists; split; eauto].
      apply has_key_true in E2 as [c Hc]. rewrite Hc. eexists; split; eauto.
    + eexists; split; eauto.
  - intros Hnone. unfold getColor.
    assert (has_key theme (colors tk) = false) as -> by by apply has_key_false.
    rewrite Htheme0. simpl.
    destruct (has_key DEFAULT_THEME (colors tk) || inherited DEFAULT_THEME); reflexivity.
Qed.

Lemma getColor_total_witness :
  getColor sampleTokens (str "dark-unknown") (str "primary/500")
  = getColor sampleTokens DEFAULT_THEME (str "primary/500")
  ∧ getColor sampleTokens (str "dark-unknown") (str "primary/500")
    = Some (Text (str "#3b82f6")).
Proof.
  split.
  - refine (proj2 (getColor_total sampleTokens (str "dark-unknown") (str "primary/500")
                     _ _ _ _) _).
    + exists sampleLight. vm_compute. reflexivity.
    + vm_compute. reflexivity.
    + vm_compute. reflexivity.
    + vm_compute. reflexivity.
    + vm_compute. reflexivity.
  - vm_compute. reflexivity.
Defined.

(** C8, as stated, fails on a name that every object inherits: the group
    [primary] of the sample schema has no entry ["constructor"] of its own,
    and the request for ["primary/constructor"] returns what the group
    inherits under that name, which is no string: neither a colour of the
    schema nor the fixed default colour. *)
Lemma getColor_inherited_counterexample :
  colors sampleTokens !! str "light" = Some sampleLight
  ∧ sampleLight !! str "primary" = Some (Shades samplePrimary)
  ∧ samplePrimary !! str "constructor" = None
  ∧ getColor sampleTokens (str "light") (str "primary/constructor")
    = Some (Member (str "constructor"))
  ∧ ∀ v, getColor sampleTokens (str "light") (str "primary/constructor") ≠ Some (Text v).
Proof.
  assert (Hr : getColor sampleTokens (str "light") (str "primary/constructor")
               = Some (Member (str "constructor"))) by (vm_compute; reflexivity).
  repeat split; try (vm_compute; reflexivity).
  intros v. rewrite Hr. discriminate.
Qed.

(** ** The backtracking matcher *)

Lemma rmatch_star_class (p : N -> bool) (s : jsstring) (caps : captures) (k : kont) :
  rmatch (Star (Class p)) s caps k =
    match s with
    | c :: s' =>
        if p c then match rmatch (Star (Class p)) s' caps k with
                    | Some x => Some x
                    | None => k s caps
                    end
        else k s caps
    | [] => k s caps
    end.
Proof.
  destruct s as [|c s']; [reflexivity|].
  cbn [rmatch length star_loop]. destruct (p c); [|reflexivity].
  assert ((length s' <? S (length s'))%nat = true) as -> by (apply Nat.ltb_lt; lia).
  reflexivity.
Qed.

Lemma star_class_stop (p : N -> bool) (s : jsstring) (caps : captures) (k : kont) :
  stops p s → rmatch (Star (Class p)) s caps k = k s caps.
Proof.
  intros Hs. rewrite rmatch_star_class. destruct s as [|c s']; [reflexivity|].
  simpl in Hs. by rewrite Hs.
Qed.

Lemma star_class_skip (p : N -> bool) (xs s : jsstring) (caps : captures) (k : kont) x :
  Forall (fun c => p c = true) xs →
  rmatch (Star (Class p)) s caps k = Some x →
  rmatch (Star (Class p)) (xs ++ s) caps k = Some x.
Proof.
  intros Hxs Hs. induction Hxs as [|c xs Hc _ IH]; [exact Hs|].
  change ((c :: xs) ++ s) with (c :: (xs ++ s)).
  rewrite rmatch_star_class. by rewrite Hc, IH.
Qed.

Lemma star_class_run (p : N -> bool) (xs s : jsstring) (caps : captures) (k : kont) x :
  Forall (fun c => p c = true) xs → stops p s → k s caps = Some x →
  rmatch (Star (Class p)) (xs ++ s) caps k = Some x.
Proof.
  intros Hxs Hs Hk. apply star_class_skip; [done|]. by rewrite star_class_stop.
Qed.

Lemma digit_not_space (c : N) : is_digit c = true → is_space c = false.
Proof.
  unfold is_digit, is_space. intros H.
  apply andb_true_iff in H as [H1 H2]. apply N.leb_le in H1, H2.
  repeat (apply orb_false_iff; split);
    first [ apply N.eqb_neq; lia
          | apply andb_false_iff; right; apply N.leb_gt; lia
          | apply andb_false_iff; left; apply N.leb_gt; lia ].
Qed.

Lemma space_not_digit (c : N) : is_space c = true → is_digit c = false.
Proof.
  intros H. destruct (is_digit c) eqn:E; [|done].
  apply digit_not_space in E. congruence.
Qed.

Lemma stops_digit_run (p : N -> bool) (d s : jsstring) :
  (∀ c, is_digit c = true → p c = false) → digit_run d → stops p (d ++ s).
Proof.
  intros Hp [Hne Hd]. destruct d as [|c d]; [done|]. simpl.
  apply Hp. by inversion Hd.
Qed.

Lemma stops_spaces (p : N -> bool) (w s : jsstring) :
  (∀ c, is_space c = true → p c = false) → spaces w → stops p s → stops p (w ++ s).
Proof.
  intros Hp Hw Hs. destruct w as [|c w]; [done|]. simpl.
  apply Hp. by inversion Hw.
Qed.

Lemma take_matched (d s : jsstring) : take (length (d ++ s) - length s) (d ++ s) = d.
Proof.
  rewrite length_app. replace (length d + length s - length s)%nat with (length d) by lia.
  by rewrite take_app_length.
Qed.

Lemma rmatch_cat (r1 r2 : regex) (s : jsstring) (caps : captures) (k : kont) :
  rmatch (Cat r1 r2) s caps k = rmatch r1 s caps (fun s' caps' => rmatch r2 s' caps' k).
Proof. reflexivity. Qed.

Lemma rmatch_opt (r1 : regex) (s : jsstring) (caps : captures) (k : kont) :
  rmatch (Opt r1) s caps k =
    match rmatch r1 s caps k with
    | Some x => Some x
    | None => k s caps
    end.
Proof. reflexivity. Qed.

Lemma rmatch_group (r1 : regex) (s : jsstring) (caps : captures) (k : kont) :
  rmatch (Group r1) s caps k =
    rmatch r1 s caps (fun s' caps' => k s' (caps' ++ [take (length s - length s') s])).
Proof. reflexivity. Qed.

Lemma rmatch_class_cons (p : N -> bool) (c : N) (s : jsstring) (caps : captures) (k : kont) :
  rmatch (Class p) (c :: s) caps k = if p c then k s caps else None.
Proof. reflexivity. Qed.

Lemma rmatch_class_stop (p : N -> bool) (s : jsstring) (caps : captures) (k : kont) :
  stops p s → rmatch (Class p) s caps k = None.
Proof. destruct s as [|c s]; simpl; [done|]. by intros ->. Qed.

(** White space before the rest of the pattern. *)
Lemma rmatch_ws (rest : regex) (w s : jsstring) (caps : captures) (k : kont) x :
  spaces w → stops is_space s →
  rmatch rest s caps k = Some x →
  rmatch (Cat ws rest) (w ++ s) caps k = Some x.
Proof.
  intros Hw Hs Hr. rewrite rmatch_cat. unfold ws. by apply star_class_run.
Qed.

(** [\d+] followed by no digit. *)
Lemma rmatch_digits (d s : jsstring) (caps : captures) (k : kont) x :
  digit_run d → stops is_digit s → k s caps = Some x →
  rmatch digits (d ++ s) caps k = Some x.
Proof.
  intros [Hne Hd] Hs Hk. destruct d as [|c d]; [done|].
  inversion Hd as [|? ? Hc Hd']; subst.
  unfold digits. rewrite rmatch_cat. change ((c :: d) ++ s) with (c :: (d ++ s)).
  rewrite rmatch_class_cons, Hc. by apply star_class_run.
Qed.

(** A captured run of digits before the rest of the pattern. *)
Lemma rmatch_group_digits (rest : regex) (d s : jsstring) (caps : captures) (k : kont) x :
  digit_run d → stops is_digit s →
  rmatch rest s (caps ++ [d]) k = Some x →
  rmatch (Cat (Group digits) rest) (d ++ s) caps k = Some x.
Proof.
  intros Hd Hs Hr. rewrite rmatch_cat, rmatch_group.
  apply rmatch_digits; [done..|]. by rewrite take_matched.
Qed.

Lemma rmatch_class (p : N -> bool) (rest : regex) (c : N) (s : jsstring)
  (caps : captures) (k : kont) :
  p c = true →
  rmatch (Cat (Class p) rest) (c :: s) caps k = rmatch rest s caps k.
Proof. intros Hp. by rewrite rmatch_cat, rmatch_class_cons, Hp. Qed.

Lemma digit_not_point (c : N) : is_digit c = true → (46 =? c) = false.
Proof.
  unfold is_digit. intros H. apply andb_true_iff in H as [H1 _].
  apply N.leb_le in H1. apply N.eqb_neq. lia.
Qed.

(** [\d*\.?\d+] on a decimal literal followed by neither a digit nor a
    point: the literal is consumed whole. *)
Lemma rmatch_decimal (da s : jsstring) (caps : captures) (k : kont) x :
  decimal_literal da → stops is_digit s → stops (N.eqb 46) s →
  k s caps = Some x →
  rmatch decimal (da ++ s) caps k = Some x.
Proof.
  intros Hda Hsd Hsp Hk. unfold decimal. rewrite rmatch_cat.
  destruct Hda as [d [Hne Hd] | ip fp Hip Hfp].
  - destruct d as [|dl d0 _] using rev_ind; [done|].
    apply Forall_app in Hd as [Hd0 Hdl]. inversion Hdl as [|? ? Hdl' _]; subst.
    rewrite <- app_assoc. apply star_class_skip; [done|].
    change ([dl] ++ s) with (dl :: s).
    rewrite rmatch_star_class, Hdl'.
    rewrite (star_class_stop _ s) by done.
    rewrite !rmatch_cat, !rmatch_opt. unfold lit.
    rewrite (rmatch_class_stop (N.eqb 46) s) by done.
    rewrite rmatch_class_cons, (digit_not_point dl) by done.
    assert (rmatch digits s caps k = None) as ->.
    { unfold digits. rewrite rmatch_cat. by apply rmatch_class_stop. }
    apply (rmatch_digits [dl] s); [|done..].
    split; [done | by constructor].
  - rewrite <- app_assoc. apply star_class_run; [done | reflexivity |].
    rewrite rmatch_cat, rmatch_opt. unfold lit.
    change ((46 :: fp) ++ s) with (46 :: (fp ++ s)).
    rewrite rmatch_class_cons, N.eqb_refl.
    by rewrite (rmatch_digits fp s caps k x).
Qed.

Lemma rmatch_group_decimal (rest : regex) (da s : jsstring) (caps : captures) (k : kont) x :
  decimal_literal da → stops is_digit s → stops (N.eqb 46) s →
  rmatch rest s (caps ++ [da]) k = Some x →
  rmatch (Cat (Group decimal) rest) (da ++ s) caps k = Some x.
Proof.
  intros Hda Hsd Hsp Hr. rewrite rmatch_cat, rmatch_group.
  apply rmatch_decimal; [done..|]. by rewrite take_matched.
Qed.

Lemma space_not_point (c : N) : is_space c = true → (46 =? c) = false.
Proof.
  intros H. destruct (N.eqb_spec 46 c) as [<-|]; [|done]. discriminate.
Qed.

Lemma stops_decimal (p : N -> bool) (da s : jsstring) :
  (∀ c, is_digit c = true → p c = false) → p 46 = false →
  decimal_literal da → stops p (da ++ s).
Proof.
  intros Hp H46 [d Hd | ip fp Hip Hfp].
  - by apply stops_digit_run.
  - destruct ip as [|c ip]; simpl; [done|]. apply Hp. by inversion Hip.
Qed.

Lemma search_here (r : regex) (s : jsstring) (caps : captures) :
  match_at r s = Some caps → search r s = Some caps.
Proof. intros H. destruct s; simpl; by rewrite H. Qed.

Ltac solve_stops :=
  solve
    [ reflexivity
    | apply stops_digit_run; [apply digit_not_space | assumption]
    | apply stops_decimal; [apply digit_not_space | reflexivity | assumption]
    | apply stops_spaces; [apply space_not_digit | assumption | reflexivity]
    | apply stops_spaces; [apply space_not_point | assumption | reflexivity] ].

Ltac match_step :=
  cbn [app];
  first
    [ apply rmatch_ws; [assumption | solve_stops | ]
    | apply rmatch_group_digits; [assumption | solve_stops | ]
    | apply rmatch_group_decimal; [assumption | solve_stops | solve_stops | ]
    | rewrite rmatch_class by reflexivity ].

Lemma rmatch_opt_class_take (p : N -> bool) (rest : regex) (c : N) (s : jsstring)
  (caps : captures) (k : kont) x :
  p c = true → rmatch rest s caps k = Some x →
  rmatch (Cat (Opt (Class p)) rest) (c :: s) caps k = Some x.
Proof. intros Hp Hr. by rewrite rmatch_cat, rmatch_opt, rmatch_class_cons, Hp, Hr. Qed.

Lemma rmatch_opt_class_skip (p : N -> bool) (rest : regex) (s : jsstring)
  (caps : captures) (k : kont) :
  stops p s →
  rmatch (Cat (Opt (Class p)) rest) s caps k = rmatch rest s caps k.
Proof. intros Hs. by rewrite rmatch_cat, rmatch_opt, rmatch_class_stop. Qed.

(** The pattern from the opening parenthesis on. *)
Lemma rgba_components_match (w1 dr w2 w3 dg w4 w5 db w6 w7 da w8 rest : jsstring) :
  spaces w1 → spaces w2 → spaces w3 → spaces w4 →
  spaces w5 → spaces w6 → spaces w7 → spaces w8 →
  digit_run dr → digit_run dg → digit_run db → decimal_literal da →
  rmatch
    (cat_all
       [ lit 40; ws; Group digits; ws; lit 44; ws; Group digits; ws; lit 44;
         ws; Group digits; ws; lit 44; ws; Group decimal; ws ]
       (lit 41))
    ([40] ++ w1 ++ dr ++ w2 ++ [44] ++ w3 ++ dg ++ w4 ++ [44]
          ++ w5 ++ db ++ w6 ++ [44] ++ w7 ++ da ++ w8 ++ [41] ++ rest)
    [] (fun _ caps => Some caps)
  = Some [dr; dg; db; da].
Proof.
  intros. unfold lit. cbn [cat_all].
  repeat match_step.
  cbn [app]. rewrite rmatch_class_cons. reflexivity.
Qed.

(** The pattern on a text of the expected shape: the four components are
    the captures. *)
Lemma rgba_pattern_matches (u1 u2 u3 : bool) (alpha_letter : option bool)
  (w1 dr w2 w3 dg w4 w5 db w6 w7 da w8 rest : jsstring) :
  spaces w1 → spaces w2 → spaces w3 → spaces w4 →
  spaces w5 → spaces w6 → spaces w7 → spaces w8 →
  digit_run dr → digit_run dg → digit_run db → decimal_literal da →
  search RGBA_PATTERN
    (rgbaText u1 u2 u3 alpha_letter w1 dr w2 w3 dg w4 w5 db w6 w7 da w8 rest)
  = Some [dr; dg; db; da].
Proof.
  intros. apply search_here. unfold match_at, rgbaText, RGBA_PATTERN, lit_i.
  cbn [cat_all app].
  rewrite rmatch_class by (by destruct u1).
  rewrite rmatch_class by (by destruct u2).
  rewrite rmatch_class by (by destruct u3).
  destruct alpha_letter as [u4|].
  - apply rmatch_opt_class_take; [by destruct u4|].
    by apply rgba_components_match.
  - rewrite rmatch_opt_class_skip by reflexivity.
    by apply rgba_components_match.
Qed.

(** What the matcher consumed is a word of the expression. *)
Lemma rmatch_sound (r : regex) :
  ∀ s caps (k : kont) x, rmatch r s caps k = Some x →
    ∃ w s' caps', s = w ++ s' ∧ lang r w ∧ k s' caps' = Some x.
Proof.
  induction r as [p | r1 IH1 r2 IH2 | r1 IH1 | r1 IH1 | r1 IH1]; intros s caps k x.
  - destruct s as [|c s]; [done|]. rewrite rmatch_class_cons.
    destruct (p c) eqn:Hp; [|done]. intros Hk.
    exists [c], s, caps. repeat split; [by constructor | done].
  - rewrite rmatch_cat. intros H.
    apply IH1 in H as (w1 & s1 & c1 & -> & Hw1 & H).
    apply IH2 in H as (w2 & s2 & c2 & -> & Hw2 & H).
    exists (w1 ++ w2), s2, c2. rewrite <- app_assoc. repeat split; [by constructor | done].
  - rewrite rmatch_opt. destruct (rmatch r1 s caps k) as [y|] eqn:Hy.
    + intros [= ->]. apply IH1 in Hy as (w & s' & c' & -> & Hw & H).
      exists w, s', c'. repeat split; [by apply lang_opt_some | done].
    + intros Hk. exists [], s, caps. repeat split; [apply lang_opt_none | done].
  - cbn [rmatch]. generalize (length s) at 1. intros fuel. revert s caps.
    induction fuel as [|fuel IHf]; intros s caps; cbn [star_loop].
    + intros Hk. exists [], s, caps. repeat split; [apply lang_star_nil | done].
    + match goal with
      | |- match ?m with _ => _ end = _ → _ => destruct m as [y|] eqn:Hy
      end.
      * intros [= ->]. apply IH1 in Hy as (w1 & s1 & c1 & -> & Hw1 & H).
        destruct (length s1 <? length (w1 ++ s1))%nat; [|done].
        apply IHf in H as (w2 & s2 & c2 & -> & Hw2 & H).
        exists (w1 ++ w2), s2, c2. rewrite <- app_assoc.
        repeat split; [by constructor | done].
      * intros Hk. exists [], s, caps. repeat split; [apply lang_star_nil | done].
  - rewrite rmatch_group. intros H.
    apply IH1 in H as (w & s' & c' & -> & Hw & H).
    exists w, s', (c' ++ [take (length (w ++ s') - length s') (w ++ s')]).
    repeat split; [by constructor | done].
Qed.

Lemma search_sound (r : regex) (s : jsstring) (caps : captures) :
  search r s = Some caps → contains_match r s.
Proof.
  induction s as [|c s IH]; cbn [search].
  - destruct (match_at r []) as [y|] eqn:Hy; [|done]. intros _.
    apply rmatch_sound in Hy as (w & s' & c' & Heq & Hw & _).
    exists [], w, s'. split; [exact Heq | exact Hw].
  - destruct (match_at r (c :: s)) as [y|] eqn:Hy.
    + intros _. apply rmatch_sound in Hy as (w & s' & c' & Heq & Hw & _).
      exists [], w, s'. split; [exact Heq | exact Hw].
    + intros H. apply IH in H as (before & w & after & -> & Hw).
      by exists (c :: before), w, after.
Qed.

(** ** Colour codec *)

Lemma span_digits_all (d : jsstring) : all_digits d → span_digits d = (d, []).
Proof.
  induction 1 as [|c d Hc _ IH]; simpl; [reflexivity|]. by rewrite Hc, IH.
Qed.

Lemma Number_digit_run (d : jsstring) :
  digit_run d →
  Number d = match toDouble (Z.of_N (digits_value d)) with
             | Finite n => Value (inject_Z n)
             | _ => PlusInfinity
             end.
Proof. intros [_ Hd]. unfold Number. by rewrite span_digits_all. Qed.

(** An integer below 2^53 is a double; the double nearest to a larger one
    is 2^53 at least, or infinite. *)
Lemma toDouble_cases (n : Z) :
  ((n < 2 ^ 53)%Z ∧ toDouble n = Finite n)
  ∨ ((2 ^ 53 <= n)%Z
     ∧ (toDouble n = Infinite ∨ ∃ m, toDouble n = Finite m ∧ (2 ^ 53 <= m)%Z)).
Proof.
  unfold toDouble. destruct (Z.ltb_spec n (2 ^ 53)) as [Hlt|Hge]; [by left|].
  right. split; [exact Hge|].
  set (e := (Z.log2 n - 52)%Z).
  set (q := (n / 2 ^ e)%Z).
  set (q' := if _ : bool then (q + 1)%Z else q).
  destruct (q' * 2 ^ e <? 2 ^ 1024)%Z; [|by left].
  right. eexists. split; [reflexivity|].
  assert (Hn : (0 < n)%Z) by lia.
  pose proof (Z.log2_spec n Hn) as [Hlo _].
  assert (Hlog : (53 <= Z.log2 n)%Z).
  { change 53%Z with (Z.log2 (2 ^ 53)). by apply Z.log2_le_mono. }
  assert (He : (1 <= e)%Z) by (unfold e; lia).
  assert (Hpow : (2 ^ Z.log2 n = 2 ^ 52 * 2 ^ e)%Z).
  { rewrite <- Z.pow_add_r by lia. f_equal. unfold e. lia. }
  assert (Hpe : (2 <= 2 ^ e)%Z).
  { change 2%Z with (2 ^ 1)%Z at 1. apply Z.pow_le_mono_r; lia. }
  assert (Hq : (2 ^ 52 <= q)%Z).
  { unfold q. apply Z.div_le_lower_bound; lia. }
  assert (Hq' : (q <= q')%Z) by (unfold q'; destruct (_ : bool); lia).
  assert (H52 : (0 < 2 ^ 52)%Z) by lia.
  change (2 ^ 53)%Z with (2 ^ 52 * 2)%Z. nia.
Qed.

(** The double nearest to a quotient above 256/255 is above 1. *)
Lemma roundRatio_above_one (p : Z) :
  (256 <= p)%Z →
  match roundRatio p 255 with
  | Value v => (1 < v)%Q
  | PlusInfinity => True
  end.
Proof.
  intros Hp. unfold roundRatio.
  destruct (Z.leb_spec p 0) as [Hle|_]; [lia|].
  change (Z.log2 255) with 7%Z.
  assert (Hlog : (8 <= Z.log2 p)%Z).
  { change 8%Z with (Z.log2 256). by apply Z.log2_le_mono. }
  pose proof (Z.log2_spec p ltac:(lia)) as [Hlo _].
  set (k0 := (Z.log2 p - 7)%Z).
  assert (Hk0 : (1 <= k0)%Z) by (unfold k0; lia).
  destruct (Z.leb_spec 0 k0) as [_|Hneg]; [|lia].
  set (k := if (255 * 2 ^ k0 <=? p)%Z then k0 else (k0 - 1)%Z).
  assert (Hk : (0 <= k)%Z ∧ (255 * 2 ^ k <= p)%Z).
  { unfold k. destruct (Z.leb_spec (255 * 2 ^ k0) p) as [Hr|Hr]; [split; lia|].
    split; [lia|].
    assert (H2 : (2 ^ Z.log2 p = 256 * 2 ^ (k0 - 1))%Z).
    { change 256%Z with (2 ^ 8)%Z. rewrite <- Z.pow_add_r by lia. f_equal.
      unfold k0. lia. }
    assert (Hpos : (0 < 2 ^ (k0 - 1))%Z) by (apply Z.pow_pos_nonneg; lia).
    lia. }
  destruct Hk as [Hk Hkp]. clearbody k. clear k0 Hk0.
  replace (Z.max (k - 52) (-1074)) with (k - 52)%Z by lia.
  set (e := (k - 52)%Z).
  destruct (Z.leb_spec 0 e) as [He|He].
  - (* the last bit is a unit or more *)
    set (den := (255 * 2 ^ e)%Z).
    assert (Hpe : (0 < 2 ^ e)%Z) by (apply Z.pow_pos_nonneg; lia).
    assert (Hden : (0 < den)%Z) by (unfold den; lia).
    assert (Hm0 : (2 ^ 52 <= p / den)%Z).
    { apply Z.div_le_lower_bound; [exact Hden|].
      replace (den * 2 ^ 52)%Z with (255 * 2 ^ k)%Z; [exact Hkp|].
      unfold den. replace k with (e + 52)%Z by (unfold e; lia).
      rewrite Z.pow_add_r by lia. ring. }
    set (m := if _ : bool then (p / den + 1)%Z else (p / den)%Z).
    assert (Hm : (2 ^ 52 <= m)%Z) by (unfold m; destruct (_ : bool); lia).
    cbn [andb]. destruct (2 ^ 1024 <=? m * 2 ^ e)%Z; [exact I|].
    rewrite Qred_correct. unfold pow2.
    destruct (Z.leb_spec 0 e) as [_|Hneg]; [|lia].
    unfold Qlt, Qmult, inject_Z. simpl.
    assert (H52 : (1 < 2 ^ 52)%Z) by reflexivity. nia.
  - (* the last bit is a fraction *)
    set (sh := (- e)%Z).
    assert (Hsh : (0 < sh)%Z ∧ (sh <= 52)%Z ∧ (k = 52 - sh)%Z) by (unfold sh, e; lia).
    destruct Hsh as (Hsh0 & Hsh52 & Hksh).
    assert (Hps : (0 < 2 ^ sh)%Z) by (apply Z.pow_pos_nonneg; lia).
    assert (Hm0 : (2 ^ sh < p * 2 ^ sh / 255)%Z).
    { assert (Hk2 : (2 ^ k * 2 ^ sh = 2 ^ 52)%Z).
      { rewrite <- Z.pow_add_r by lia. f_equal. lia. }
      assert (Hpk : (0 < 2 ^ k)%Z) by (apply Z.pow_pos_nonneg; lia).
      assert (Hle : (2 ^ sh <= 2 ^ 52)%Z) by (apply Z.pow_le_mono_r; lia).
      apply Z.lt_le_trans with (m := (2 ^ sh + 1)%Z); [lia|].
      apply Z.div_le_lower_bound; [lia|].
      destruct (Z.eq_dec k 0%Z) as [Hk0|Hk0].
      - (* the quotient lies between 1 and 2 *)
        assert (Hs52 : sh = 52%Z) by lia. rewrite Hs52 in *.
        change (2 ^ 52)%Z with 4503599627370496%Z in *. lia.
      - assert (H2k : (2 <= 2 ^ k)%Z).
        { change 2%Z with (2 ^ 1)%Z at 1. apply Z.pow_le_mono_r; lia. }
        nia. }
    set (m := if _ : bool then (p * 2 ^ sh / 255 + 1)%Z else (p * 2 ^ sh / 255)%Z).
    assert (Hm : (2 ^ sh < m)%Z) by (unfold m; destruct (_ : bool); lia).
    cbn [andb]. rewrite Qred_correct. unfold pow2.
    destruct (Z.leb_spec 0 e) as [Hneg|_]; [lia|]. fold sh.
    unfold Qlt, Qmult, inject_Z. simpl. rewrite Pos.mul_1_l, Z2Pos.id by exact Hps. lia.
Qed.

(** The double nearest to a quotient of at most 255/255 lies in the unit
    interval. *)
Lemma roundRatio_unit (n : Z) :
  (0 <= n <= 255)%Z → in_unit (roundRatio n 255).
Proof.
  intros Hn.
  assert (Hall : forallb (fun i => match roundRatio (Z.of_nat i) 255 with
                                   | Value v => Qle_bool 0 v && Qle_bool v 1
                                   | PlusInfinity => false
                                   end) (seq 0 256) = true)
    by (vm_compute; reflexivity).
  rewrite forallb_forall in Hall. specialize (Hall (Z.to_nat n)).
  rewrite Z2Nat.id in Hall by lia.
  assert (Hin : In (Z.to_nat n) (seq 0 256)) by (apply in_seq; lia).
  specialize (Hall Hin). destruct (roundRatio n 255) as [v|]; [|discriminate].
  apply andb_true_iff in Hall as [H0 H1].
  split; by apply Qle_bool_iff.
Qed.

(** A colour component written as a run of digits: the quotient by 255 is
    the double nearest to the quotient of the number written while that
    number is below 2^53, is never negative, and lies in the unit interval
    exactly when the number written is at most 255. *)
Lemma channel_bounds (d : jsstring) :
  digit_run d →
  ((digits_value d < 2 ^ 53)%N →
     over255 (Number d) = roundRatio (Z.of_N (digits_value d)) 255)
  ∧ non_negative (over255 (Number d))
  ∧ (in_unit (over255 (Number d)) ↔ (digits_value d <= 255)%N).
Proof.
  intros Hd. rewrite (Number_digit_run d Hd).
  assert (Hbig : ∀ m, (256 <= m)%Z →
            non_negative (roundRatio m 255) ∧ ¬ in_unit (roundRatio m 255)).
  { intros m Hm. pose proof (roundRatio_above_one m Hm) as H.
    destruct (roundRatio m 255) as [v|]; simpl; [|tauto].
    split; [apply Qlt_le_weak; by apply Qlt_trans with (y := 1%Q)|].
    intros [_ Hle]. by apply (Qlt_not_le _ _ H). }
  assert (Hover : ∀ m, over255 (Value (inject_Z m)) = roundRatio m 255).
  { intros m. unfold over255, inject_Z. cbn [Qnum Qden]. reflexivity. }
  destruct (toDouble_cases (Z.of_N (digits_value d)))
    as [[Hlt ->]|[Hge [->|(m & -> & Hm)]]].
  - rewrite Hover. split; [reflexivity|].
    destruct (Z.le_gt_cases (Z.of_N (digits_value d)) 255) as [Hsmall|Hlarge].
    + pose proof (roundRatio_unit (Z.of_N (digits_value d)) ltac:(lia)) as Hu.
      split; [|split; [lia | by intros _]].
      destruct (roundRatio (Z.of_N (digits_value d)) 255); [apply Hu | exact I].
    + destruct (Hbig (Z.of_N (digits_value d)) ltac:(lia)) as [Hnn Hnu].
      split; [exact Hnn|]. split; [intros H; by destruct Hnu | lia].
  - split; [intros H; exfalso; lia|]. simpl. split; [exact I|].
    split; [done | intros H; lia].
  - rewrite Hover. split; [intros H; exfalso; lia|].
    assert (H53 : (2 ^ 53 = 9007199254740992)%Z) by reflexivity.
    destruct (Hbig m ltac:(lia)) as [Hnn Hnu].
    split; [exact Hnn|]. split; [intros H; by destruct Hnu | intros H; lia].
Qed.

(** C2 (amended). A text that starts with [rgb(] or [rgba(] in any letter
    case and continues with four comma-separated components, each with
    optional white space around it, the first three unsigned integers and
    the fourth an unsigned integer or decimal, then [)], is matched,
    whatever follows it; each colour component of the result is the number
    written, as a double, divided by 255, as a double: the double nearest
    to the quotient of the number written itself while that number is below
    2^53, never negative, and in the unit interval exactly when the number
    written is at most 255; the alpha component is the number written, as
    a double.  A text no part of which is a word of the pattern yields the
    fixed fallback colour with alpha 0.16. *)
Theorem hexToRgbaColor_spec (u1 u2 u3 : bool) (alpha_letter : option bool)
  (w1 dr w2 w3 dg w4 w5 db w6 w7 da w8 rest : jsstring) :
  spaces w1 → spaces w2 → spaces w3 → spaces w4 →
  spaces w5 → spaces w6 → spaces w7 → spaces w8 →
  digit_run dr → digit_run dg → digit_run db → decimal_literal da →
  let color :=
    hexToRgbaColor
      (rgbaText u1 u2 u3 alpha_letter w1 dr w2 w3 dg w4 w5 db w6 w7 da w8 rest) in
  color = {| rgba_r := over255 (Number dr);
             rgba_g := over255 (Number dg);
             rgba_b := over255 (Number db);
             rgba_a := Number da |}
  ∧ (((digits_value dr < 2 ^ 53)%N →
        rgba_r color = roundRatio (Z.of_N (digits_value dr)) 255)
     ∧ non_negative (rgba_r color)
     ∧ (in_unit (rgba_r color) ↔ (digits_value dr <= 255)%N))
  ∧ (((digits_value dg < 2 ^ 53)%N →
        rgba_g color = roundRatio (Z.of_N (digits_value dg)) 255)
     ∧ non_negative (rgba_g color)
     ∧ (in_unit (rgba_g color) ↔ (digits_value dg <= 255)%N))
  ∧ (((digits_value db < 2 ^ 53)%N →
        rgba_b color = roundRatio (Z.of_N (digits_value db)) 255)
     ∧ non_negative (rgba_b color)
     ∧ (in_unit (rgba_b color) ↔ (digits_value db <= 255)%N))
  ∧ (∀ s, ¬ contains_match RGBA_PATTERN s → hexToRgbaColor s = FALLBACK_RGBA).
Proof.
  intros Hw1 Hw2 Hw3 Hw4 Hw5 Hw6 Hw7 Hw8 Hr Hg Hb Ha color.
  assert (Hcolor : color = {| rgba_r := over255 (Number dr);
                              rgba_g := over255 (Number dg);
                              rgba_b := over255 (Number db);
                              rgba_a := Number da |}).
  { unfold color, hexToRgbaColor. by rewrite rgba_pattern_matches by assumption. }
  split; [exact Hcolor|]. rewrite Hcolor. cbn [rgba_r rgba_g rgba_b].
  split; [by apply channel_bounds|]. split; [by apply channel_bounds|].
  split; [by apply channel_bounds|].
  intros s Hs. unfold hexToRgbaColor.
  destruct (search RGBA_PATTERN s) as [caps|] eqn:Hsearch; [|reflexivity].
  destruct Hs. by eapply search_sound.
Qed.

Lemma hexToRgbaColor_spec_witness :
  hexToRgbaColor (str "rgba(15, 23, 42, 0.16)")
  = {| rgba_r := over255 (Number (str "15")); rgba_g := over255 (Number (str "23"));
       rgba_b := over255 (Number (str "42")); rgba_a := Number (str "0.16") |}
  ∧ rgba_r (hexToRgbaColor (str "rgba(15, 23, 42, 0.16)")) = roundRatio 15 255.
Proof.
  assert (Hsp : ∀ w, w = [] ∨ w = str " " → spaces w).
  { intros w [->| ->]; repeat constructor. }
  assert (Hrun : ∀ d, d = str "15" ∨ d = str "23" ∨ d = str "42" → digit_run d).
  { intros d [->|[->| ->]]; (split; [discriminate | repeat constructor]). }
  assert (Ha : decimal_literal (str "0.16")).
  { apply (decimal_fraction (str "0") (str "16"));
      [repeat constructor | split; [discriminate | repeat constructor]]. }
  pose proof (hexToRgbaColor_spec false false false (Some false)
             [] (str "15") [] (str " ") (str "23") [] (str " ") (str "42") []
             (str " ") (str "0.16") [] []
             (Hsp _ (or_introl eq_refl)) (Hsp _ (or_introl eq_refl))
             (Hsp _ (or_intror eq_refl)) (Hsp _ (or_introl eq_refl))
             (Hsp _ (or_intror eq_refl)) (Hsp _ (or_introl eq_refl))
             (Hsp _ (or_intror eq_refl)) (Hsp _ (or_introl eq_refl))
             (Hrun _ (or_introl eq_refl)) (Hrun _ (or_intror (or_introl eq_refl)))
             (Hrun _ (or_intror (or_intror eq_refl))) Ha) as H.
  cbv zeta in H. split; [exact (proj1 H)|].
  apply (proj1 (proj1 (proj2 H))). vm_compute. reflexivity.
Defined.

(** C2, as stated, fails: the text [rgba(300, 0, 0, 1)] has the expected
    shape and is matched, and its red channel is the double nearest to
    300/255, above 1. *)
Lemma hexToRgbaColor_range_counterexample :
  search RGBA_PATTERN (str "rgba(300, 0, 0, 1)")
    = Some [str "300"; str "0"; str "0"; str "1"]
  ∧ rgba_r (hexToRgbaColor (str "rgba(300, 0, 0, 1)")) = roundRatio 300 255
  ∧ (∃ v, rgba_r (hexToRgbaColor (str "rgba(300, 0, 0, 1)")) = Value v ∧ (1 < v)%Q)
  ∧ ¬ in_unit (rgba_r (hexToRgbaColor (str "rgba(300, 0, 0, 1)"))).
Proof.
  split; [reflexivity|]. split; [reflexivity|]. split.
  - eexists. split; [vm_compute; reflexivity|]. reflexivity.
  - intros H. vm_compute in H. destruct H as [_ H]. by apply H.
Qed.

(** The shadow colour of the schema's preset: the alpha component is the
    double nearest to 0.16. *)
Example hexToRgbaColor_shadow :
  hexToRgbaColor (str "rgba(15, 23, 42, 0.16)")
  = {| rgba_r := roundRatio 15 255; rgba_g := roundRatio 23 255;
       rgba_b := roundRatio 42 255;
       rgba_a := Value (5764607523034235 # 36028797018963968) |}.
Proof. vm_compute. reflexivity. Qed.

(** Only the alpha component may be written with a point, and the alpha
    component is not scaled. *)
Example hexToRgbaColor_decimal_red :
  hexToRgbaColor (str "rgba(1.5, 2, 3, 1)") = FALLBACK_RGBA.
Proof. reflexivity. Qed.

Example hexToRgbaColor_three_components :
  hexToRgbaColor (str "rgb(1, 2, 3)") = FALLBACK_RGBA.
Proof. reflexivity. Qed.

Example hexToRgbaColor_alpha_as_written :
  rgba_a (hexToRgbaColor (str "RGB( 0,0 ,0 , 5 ) trailing")) = Value 5.
Proof. reflexivity. Qed.

(** A component of more than 16 digits is rounded, and one of 310 digits is
    infinite. *)
Example Number_rounds :
  Number (str "9007199254740993") = Value 9007199254740992
  ∧ Number (49%N :: repeat 48%N 309) = PlusInfinity.
Proof. split; vm_compute; reflexivity. Qed.

(** ** Trees, references and look-ups *)

Lemma Node_ind' (P : Node → Prop) :
  (∀ n, Forall P (children n) → P n) → ∀ n, P n.
Proof.
  intros H. fix IH 1. intros [i t lm nm v c f kids]. apply H. simpl.
  induction kids as [|k kids IHk]; constructor; [apply IH | exact IHk].
Qed.

Lemma skeleton_unfold (n : Node) :
  skeleton n = SkeletonNode (node_type n) (name n) (map skeleton (children n)).
Proof. by destruct n. Qed.

Lemma findFrom_unfold (p : Node → bool) (n : Node) :
  findFrom p n = if p n then Some [] else findAmong p (children n) 0.
Proof.
  destruct n as [i t lm nm v c f kids]. simpl. destruct (p _); [reflexivity|].
  generalize 0%nat. induction kids as [|k kids IH]; intros j; simpl; [reflexivity|].
  destruct (findFrom p k); [reflexivity|]. apply IH.
Qed.

Lemma findAmong_sound (p : Node → bool) (l : list Node) :
  Forall (λ c, ∀ q, findFrom p c = Some q → ∃ m, node_at q c = Some m ∧ p m = true) l →
  ∀ i q, findAmong p l i = Some q →
    ∃ j r c m, q = (i + j)%nat :: r ∧ l !! j = Some c ∧ node_at r c = Some m ∧ p m = true.
Proof.
  induction l as [|c l IHl]; intros Hall i q; simpl; [done|].
  apply Forall_cons in Hall as [Hc Hl].
  destruct (findFrom p c) as [r|] eqn:Hf.
  - intros [= <-]. destruct (Hc r eq_refl) as (m & Hm & Hpm).
    exists 0%nat, r, c, m. rewrite Nat.add_0_r. eauto.
  - intros Hq. destruct (IHl Hl (S i) q Hq) as (j & r & c' & m & -> & Hj & Hm & Hpm).
    exists (S j), r, c', m. replace (i + S j)%nat with (S i + j)%nat by lia. eauto.
Qed.

(** A look-up returns a reference to a node for which the callback holds. *)
Lemma findFrom_sound (p : Node → bool) (n : Node) :
  ∀ q, findFrom p n = Some q → ∃ m, node_at q n = Some m ∧ p m = true.
Proof.
  induction n as [n IH] using Node_ind'. intros q. rewrite findFrom_unfold.
  destruct (p n) eqn:Hp.
  - intros [= <-]. eauto.
  - intros Hq.
    destruct (findAmong_sound p _ IH _ _ Hq) as (j & r & c & m & -> & Hj & Hm & Hpm).
    exists m. simpl. by rewrite Hj.
Qed.

Lemma findOne_sound (p : Node → bool) (root : Node) (q : path) :
  findOne p root = Some q → ∃ m, node_at q root = Some m ∧ p m = true.
Proof.
  intros Hq. unfold findOne in Hq.
  assert (Hall : Forall (λ c, ∀ q, findFrom p c = Some q →
                   ∃ m, node_at q c = Some m ∧ p m = true) (children root)).
  { apply Forall_forall. intros c _. apply findFrom_sound. }
  destruct (findAmong_sound p _ Hall _ _ Hq) as (j & r & c & m & -> & Hj & Hm & Hpm).
  exists m. simpl. by rewrite Hj.
Qed.

(** Look-ups by type and name see the skeleton only. *)
Lemma findFrom_skeleton (p : Node → bool) :
  by_type_and_name p →
  ∀ n1 n2, skeleton n1 = skeleton n2 → findFrom p n1 = findFrom p n2.
Proof.
  intros Hp. induction n1 as [n1 IH] using Node_ind'. intros n2 Hs.
  rewrite !skeleton_unfold in Hs. injection Hs as Ht Hn Hkids.
  rewrite !findFrom_unfold, (Hp n1 n2 Ht Hn).
  destruct (p n2); [reflexivity|].
  generalize 0%nat. revert IH Hkids. generalize (children n1) (children n2).
  induction l as [|c1 l1 IHl]; intros [|c2 l2] Hall Hk i; simpl in *; try done.
  injection Hk as Hc Hl. inversion Hall as [|? ? Hc1 Hl1]; subst.
  rewrite (Hc1 c2 Hc). destruct (findFrom p c2); [reflexivity|]. by apply IHl.
Qed.

Lemma findOne_skeleton (p : Node → bool) (n1 n2 : Node) :
  by_type_and_name p → skeleton n1 = skeleton n2 → findOne p n1 = findOne p n2.
Proof.
  intros Hp Hs. rewrite !skeleton_unfold in Hs. injection Hs as _ _ Hkids.
  unfold findOne. generalize 0%nat. revert Hkids.
  generalize (children n1) (children n2).
  induction l as [|c1 l1 IHl]; intros [|c2 l2] Hk i; simpl in *; try done.
  injection Hk as Hc Hl.
  rewrite (findFrom_skeleton p Hp c1 c2 Hc). destruct (findFrom p c2); [reflexivity|].
  by apply IHl.
Qed.

Lemma update_skeleton (f : Node → Node) (q : path) :
  keeps_frame f → ∀ n, skeleton (update q f n) = skeleton n.
Proof.
  intros Hf. induction q as [|i q IH]; intros n; simpl.
  - rewrite !skeleton_unfold. destruct (Hf n) as (-> & -> & ->). reflexivity.
  - rewrite !skeleton_unfold. simpl. f_equal.
    apply list_eq. intros j. rewrite !list_lookup_fmap.
    destruct (decide (i = j)) as [<-|Hne].
    + rewrite list_lookup_alter_eq. destruct (children n !! i); simpl; [|done].
      by rewrite IH.
    + by rewrite list_lookup_alter_ne.
Qed.

Lemma node_at_update_same (f : Node → Node) (q : path) :
  ∀ n, node_at q (update q f n) = f <$> node_at q n.
Proof.
  induction q as [|i q IH]; intros n; simpl; [reflexivity|].
  rewrite list_lookup_alter_eq. destruct (children n !! i); simpl; [apply IH | done].
Qed.

(** An assignment through one reference leaves the own properties of the
    node behind every other reference as they were. *)
Lemma node_at_update_other {A} (g : Node → A) (f : Node → Node) :
  (∀ m kids, g (set_children kids m) = g m) →
  (∀ m, children (f m) = children m) →
  ∀ q q' n, q' ≠ q → g <$> node_at q' (update q f n) = g <$> node_at q' n.
Proof.
  intros Hg Hf. induction q as [|i q IH]; intros q' n Hne.
  - destruct q' as [|j r]; [done|]. simpl. by rewrite Hf.
  - destruct q' as [|j r]; simpl.
    + by rewrite Hg.
    + destruct (decide (i = j)) as [<-|Hij].
      * rewrite list_lookup_alter_eq. destruct (children n !! i); simpl; [|done].
        apply IH. congruence.
      * by rewrite list_lookup_alter_ne.
Qed.

(** ** The content engine, step by step *)

Lemma tracks_ret (k : nat) : tracks (mret tt) k (fun t => t).
Proof.
  intros w t Hk. exists []. destruct w as [i pg lg]. simpl in *.
  unfold mret, M_ret. by rewrite list_insert_id, app_nil_r.
Qed.

Lemma tracks_ext (m : M unit) (k : nat) (F G : Node → Node) :
  (∀ t, F t = G t) → tracks m k F → tracks m k G.
Proof.
  intros HFG Hm w t Hk. destruct (Hm w t Hk) as [events ->].
  exists events. by rewrite HFG.
Qed.

Lemma tracks_bind (m1 : M unit) (m2 : unit → M unit) (k : nat) (F1 F2 : Node → Node) :
  tracks m1 k F1 → (∀ u, tracks (m2 u) k F2) →
  tracks (m1 ≫= m2) k (fun t => F2 (F1 t)).
Proof.
  intros H1 H2 w t Hk. destruct (H1 w t Hk) as [ev1 E1].
  unfold mbind, M_bind. rewrite E1.
  assert (Hlt : (k < length (page w))%nat) by (eapply lookup_lt_Some; eauto).
  destruct (H2 tt (mkWorld (nextId w) (<[k:=F1 t]> (page w)) (log w ++ ev1)) (F1 t))
    as [ev2 E2].
  { simpl. by apply list_lookup_insert_eq. }
  rewrite E2. simpl. exists (ev1 ++ ev2).
  by rewrite list_insert_insert_eq, app_assoc.
Qed.

Lemma tracks_emit (e : Event) (k : nat) : tracks (emit e) k (fun t => t).
Proof.
  intros w t Hk. exists [e]. unfold emit. by rewrite list_insert_id.
Qed.

Lemma tracks_forM {A} (l : list A) (body : unit → A → M unit) (k : nat)
  (G : A → Node → Node) :
  (∀ u i, tracks (body u i) k (G i)) →
  tracks (forM l tt body) k (fun t => foldl (fun t i => G i t) t l).
Proof.
  intros Hbody. induction l as [|x l IH]; simpl.
  - apply tracks_ret.
  - apply (tracks_bind (body tt x) (fun u => forM l u body) k (G x)
             (fun t => foldl (fun t i => G i t) t l)).
    + apply Hbody.
    + intros []. exact IH.
Qed.

Lemma tracks_mutate (landing : nat) (q : path) (f : Node → Node) :
  tracks (mutate (landing, q) f) landing (update q f).
Proof.
  intros w t Hk. exists []. unfold mutate. simpl. rewrite app_nil_r.
  do 2 f_equal. apply list_eq. intros j.
  destruct (decide (landing = j)) as [<-|Hne].
  - rewrite list_lookup_alter_eq, Hk. simpl.
    symmetry. apply list_lookup_insert_eq. eapply lookup_lt_Some; eauto.
  - by rewrite list_lookup_alter_ne, list_lookup_insert_ne.
Qed.

Lemma tracks_loadFonts (k : nat) (fonts : list FontName) (indices : list nat) :
  tracks (forM indices tt
            (fun _ i => match fonts !! i with
                        | Some rangeFont => loadFontAsync rangeFont
                        | None => mret tt
                        end)) k (fun t => t).
Proof.
  eapply tracks_ext; [|apply (tracks_forM _ _ _ (fun _ t => t))].
  - intros t. induction indices; simpl; auto.
  - intros u i. destruct (fonts !! i); [apply tracks_emit | apply tracks_ret].
Qed.

Lemma tracks_setText (landing : nat) (q : option path) (value : optional jsstring) :
  tracks (setText (match q with Some q => Some (landing, q) | None => None end) value)
    landing (assignText q value).
Proof.
  destruct q as [q|]; [|apply tracks_ret].
  destruct value as [| |s]; try apply tracks_ret.
  intros w t Hk. unfold setText, assignText.
  unfold mbind at 1, M_bind at 1. unfold readNode. simpl. rewrite Hk.
  destruct (node_at q t) as [textNode|] eqn:Hnode.
  - edestruct (tracks_bind
      (match fontName textNode with
       | Uniform font => loadFontAsync font
       | Mixed rangeFonts =>
           forM (seq 0 (length (characters textNode))) tt
             (fun _ i => match rangeFonts !! i with
                         | Some rangeFont => loadFontAsync rangeFont
                         | None => mret tt
                         end)
       end)
      (fun _ => mutate (landing, q) (set_characters s)) landing
      (fun t => t) (update q (set_characters s))) as [events E]; [| |exact Hk|].
    + destruct (fontName textNode); [apply tracks_emit | apply tracks_loadFonts].
    + intros _. apply tracks_mutate.
    + eauto.
  - exists []. unfold mret, M_ret. destruct w as [i pg lg]. simpl in *.
    rewrite app_nil_r. do 2 f_equal.
    assert (update q (set_characters s) t = t) as ->.
    { clear Hk. revert t Hnode. induction q as [|j q IH]; intros t; simpl; [done|].
      destruct t as [a b c d e f g kids]. simpl.
      destruct (kids !! j) as [c0|] eqn:Hj.
      - intros Hc0. unfold set_children. simpl. f_equal.
        apply list_eq. intros j'. destruct (decide (j = j')) as [<-|].
        + rewrite list_lookup_alter_eq, Hj. simpl. by rewrite IH.
        + by rewrite list_lookup_alter_ne.
      - intros _. unfold set_children. simpl. f_equal.
        apply list_eq. intros j'. destruct (decide (j = j')) as [<-|].
        + by rewrite list_lookup_alter_eq, Hj.
        + by rewrite list_lookup_alter_ne. }
    by rewrite list_insert_id.
Qed.

Lemma tracks_find (landing : nat) (p : Node → bool) (body : option NodeRef → M unit)
  (F : option path → Node → Node) :
  (∀ q, tracks (body (match q with Some q => Some (landing, q) | None => None end))
          landing (F q)) →
  tracks (findOneIn landing p ≫= body) landing (fun t => F (findOne p t) t).
Proof.
  intros Hbody w t Hk. unfold mbind, M_bind, findOneIn. rewrite Hk.
  by apply Hbody.
Qed.

Lemma tracks_text_last (landing : nat) (anchor : jsstring) (value : optional jsstring) :
  tracks (findText landing anchor ≫= (fun n => setText n value)) landing
    (runOp (OpText anchor value)).
Proof.
  apply (tracks_find landing _ (fun n => setText n value) (fun q => assignText q value)).
  intros q. apply tracks_setText.
Qed.

Lemma tracks_text_then (landing : nat) (anchor : jsstring) (value : optional jsstring)
  (rest : M unit) (F : Node → Node) :
  tracks rest landing F →
  tracks (findText landing anchor ≫= (fun n => setText n value ≫= (fun _ => rest)))
    landing (fun t => F (runOp (OpText anchor value) t)).
Proof.
  intros Hrest.
  apply (tracks_find landing _ (fun n => setText n value ≫= (fun _ => rest))
           (fun q t => F (assignText q value t))).
  intros q. apply (tracks_bind _ (fun _ => rest) landing (assignText q value) F).
  - apply tracks_setText.
  - intros _. exact Hrest.
Qed.

Lemma tracks_assignVisible (landing : nat) (q : option path) (v : bool) :
  tracks (match (match q with Some q => Some (landing, q) | None => None end) with
          | Some row => mutate row (set_visible v)
          | None => mret tt
          end) landing (assignVisible q v).
Proof. destruct q as [q|]; [apply tracks_mutate | apply tracks_ret]. Qed.

Lemma tracks_applyRow (landing : nat) (rowName textName : jsstring)
  (entry : optional jsstring) :
  tracks (applyRow landing rowName textName entry) landing
    (runOp (OpRow rowName textName entry)).
Proof.
  unfold applyRow, findText.
  apply (tracks_find landing _ _
           (fun qt t => match provided entry, qt with
                        | true, Some _ =>
                            assignVisible (namedNode rowName t) true (assignText qt entry t)
                        | _, _ => assignVisible (namedNode rowName t) false t
                        end)).
  intros qt.
  apply (tracks_find landing _ _
           (fun qr t => match provided entry, qt with
                        | true, Some _ => assignVisible qr true (assignText qt entry t)
                        | _, _ => assignVisible qr false t
                        end)).
  intros qr. destruct (provided entry); [destruct qt as [qt|]|].
  - apply (tracks_bind _ _ landing (assignText (Some qt) entry) (assignVisible qr true)).
    + apply (tracks_setText landing (Some qt)).
    + intros _. apply tracks_assignVisible.
  - apply tracks_assignVisible.
  - destruct qt; apply tracks_assignVisible.
Qed.

(** [applyGeminiContent] changes the world by running the plan on the
    landing tree, and by loading fonts. *)
Lemma applyGeminiContent_tracks (landing : nat) (content : GeminiSiteContent) :
  tracks (applyGeminiContent landing content) landing (runPlan (plan content)).
Proof.
  eapply tracks_ext; cycle 1.
  - unfold applyGeminiContent.
    do 5 apply tracks_text_then.
    eapply tracks_bind.
    { apply tracks_forM. intros u i. apply tracks_applyRow. }
    intros _. eapply tracks_bind.
    { apply tracks_forM. intros u i. apply tracks_text_then. apply tracks_text_last. }
    intros _. do 6 apply tracks_text_then.
    eapply tracks_bind.
    { apply tracks_forM. intros u i. apply tracks_applyRow. }
    intros _. do 3 apply tracks_text_then.
    apply tracks_text_last.
  - intros t. reflexivity.
Qed.

(** ** Effect of the steps on texts and visibility *)

Lemma set_characters_frame (s : jsstring) : keeps_frame (set_characters s).
Proof. by intros []. Qed.

Lemma set_visible_frame (v : bool) : keeps_frame (set_visible v).
Proof. by intros []. Qed.

Lemma text_anchor_pred (anchor : jsstring) :
  by_type_and_name (fun node => is_type TEXT node && name_is anchor node).
Proof. intros n1 n2 Ht Hn. unfold is_type, name_is. by rewrite Ht, Hn. Qed.

Lemma named_node_pred (anchor : jsstring) :
  by_type_and_name (fun node => name_is anchor node).
Proof. intros n1 n2 Ht Hn. unfold name_is. by rewrite Hn. Qed.

Lemma textAnchor_skeleton (anchor : jsstring) (n1 n2 : Node) :
  skeleton n1 = skeleton n2 → textAnchor anchor n1 = textAnchor anchor n2.
Proof. apply findOne_skeleton, text_anchor_pred. Qed.

Lemma namedNode_skeleton (anchor : jsstring) (n1 n2 : Node) :
  skeleton n1 = skeleton n2 → namedNode anchor n1 = namedNode anchor n2.
Proof. apply findOne_skeleton, named_node_pred. Qed.

Lemma textAnchor_name (anchor : jsstring) (root : Node) (q : path) :
  textAnchor anchor root = Some q →
  ∃ m, node_at q root = Some m ∧ name m = Some anchor ∧ node_type m = TEXT.
Proof.
  intros H. apply findOne_sound in H as (m & Hm & Hp).
  apply andb_true_iff in Hp as [Ht Hn]. exists m. repeat split; [done | |].
  - by apply bool_decide_eq_true in Hn.
  - unfold is_type in Ht. by destruct (node_type m).
Qed.

Lemma namedNode_name (anchor : jsstring) (root : Node) (q : path) :
  namedNode anchor root = Some q → ∃ m, node_at q root = Some m ∧ name m = Some anchor.
Proof.
  intros H. apply findOne_sound in H as (m & Hm & Hp).
  exists m. split; [done|]. by apply bool_decide_eq_true in Hp.
Qed.

Lemma assignText_skeleton (q : option path) (value : optional jsstring) (root : Node) :
  skeleton (assignText q value root) = skeleton root.
Proof.
  destruct q as [q|], value as [| |s]; simpl; try reflexivity.
  apply update_skeleton, set_characters_frame.
Qed.

Lemma assignVisible_skeleton (q : option path) (v : bool) (root : Node) :
  skeleton (assignVisible q v root) = skeleton root.
Proof.
  destruct q as [q|]; simpl; [|reflexivity].
  apply update_skeleton, set_visible_frame.
Qed.

Lemma runOp_skeleton (op : Op) (root : Node) : skeleton (runOp op root) = skeleton root.
Proof.
  destruct op as [anchor value | rowName textName entry]; simpl.
  - apply assignText_skeleton.
  - destruct (provided entry), (textAnchor textName root);
      by rewrite assignVisible_skeleton, ?assignText_skeleton.
Qed.

Lemma runPlan_cons (op : Op) (ops : list Op) (root : Node) :
  runPlan (op :: ops) root = runPlan ops (runOp op root).
Proof. reflexivity. Qed.

Lemma runPlan_app (ops1 ops2 : list Op) (root : Node) :
  runPlan (ops1 ++ ops2) root = runPlan ops2 (runPlan ops1 root).
Proof. apply foldl_app. Qed.

Lemma runPlan_skeleton (ops : list Op) (root : Node) :
  skeleton (runPlan ops root) = skeleton root.
Proof.
  revert root. induction ops as [|op ops IH]; intros root; [reflexivity|].
  by rewrite runPlan_cons, IH, runOp_skeleton.
Qed.

(** Assigning the visibility leaves every text as it was, and assigning a
    text leaves every visibility as it was. *)
Lemma text_at_assignVisible (qr : option path) (v : bool) (q : path) (root : Node) :
  text_at q (assignVisible qr v root) = text_at q root.
Proof.
  destruct qr as [qr|]; simpl; [|reflexivity]. unfold text_at.
  destruct (decide (q = qr)) as [->|Hne].
  - rewrite node_at_update_same. by destruct (node_at qr root) as [[]|].
  - apply node_at_update_other; [by intros [] | by intros [] | done].
Qed.

Lemma visible_at_assignText (qt : option path) (value : optional jsstring) (q : path)
  (root : Node) :
  visible_at q (assignText qt value root) = visible_at q root.
Proof.
  destruct qt as [qt|], value as [| |s]; simpl; try reflexivity. unfold visible_at.
  destruct (decide (q = qt)) as [->|Hne].
  - rewrite node_at_update_same. by destruct (node_at qt root) as [[]|].
  - apply node_at_update_other; [by intros [] | by intros [] | done].
Qed.

Lemma text_at_assignText (qt : path) (s : jsstring) (q : path) (root : Node) :
  is_Some (node_at qt root) →
  text_at q (assignText (Some qt) (defined s) root)
  = if decide (qt = q) then Some s else text_at q root.
Proof.
  intros [m Hm]. simpl. unfold text_at. destruct (decide (qt = q)) as [<-|Hne].
  - by rewrite node_at_update_same, Hm.
  - apply node_at_update_other; [by intros [] | by intros [] | done].
Qed.

Lemma visible_at_assignVisible (qr : path) (v : bool) (q : path) (root : Node) :
  is_Some (node_at qr root) →
  visible_at q (assignVisible (Some qr) v root)
  = if decide (qr = q) then Some v else visible_at q root.
Proof.
  intros [m Hm]. simpl. unfold visible_at. destruct (decide (qr = q)) as [<-|Hne].
  - by rewrite node_at_update_same, Hm.
  - apply node_at_update_other; [by intros [] | by intros [] | done].
Qed.

Lemma provided_value (entry : optional jsstring) :
  provided entry = true → ∃ s, entry = defined s ∧ truthy s = true.
Proof. destruct entry as [| |s]; simpl; try done. eauto. Qed.

(** The text behind a reference after one step. *)
Lemma runOp_text_at (op : Op) (root : Node) (q : path) :
  text_at q (runOp op root) =
    if decide (textAnchor (op_text_name op) root = Some q)
    then match op_text_value op with
         | Some s => Some s
         | None => text_at q root
         end
    else text_at q root.
Proof.
  destruct op as [anchor value | rowName textName entry]; simpl.
  - destruct (textAnchor anchor root) as [qt|] eqn:Hq.
    + destruct value as [| |s]; try (by case_decide).
      rewrite text_at_assignText.
      * repeat case_decide; congruence.
      * apply textAnchor_name in Hq as (m & Hm & _). eauto.
    + by case_decide.
  - destruct (provided entry) eqn:Hp.
    + apply provided_value in Hp as (s & -> & Hs). simpl. rewrite Hs.
      destruct (textAnchor textName root) as [qt|] eqn:Hq.
      * rewrite text_at_assignVisible, text_at_assignText.
        -- repeat case_decide; congruence.
        -- apply textAnchor_name in Hq as (m & Hm & _). eauto.
      * rewrite text_at_assignVisible. by case_decide.
    + assert (op_text_value (OpRow rowName textName entry) = None) as Hv.
      { destruct entry as [| |s]; simpl in *; try done.
        by destruct (truthy s). }
      simpl in Hv. rewrite Hv.
      destruct (textAnchor textName root); rewrite text_at_assignVisible; by case_decide.
Qed.

(** The visibility behind a reference after one step. *)
Lemma runOp_visible_at (op : Op) (root : Node) (q : path) :
  visible_at q (runOp op root) =
    match op with
    | OpText _ _ => visible_at q root
    | OpRow rowName textName entry =>
        if decide (namedNode rowName root = Some q)
        then Some (provided entry && bool_decide (is_Some (textAnchor textName root)))
        else visible_at q root
    end.
Proof.
  destruct op as [anchor value | rowName textName entry]; simpl.
  - apply visible_at_assignText.
  - assert (Hvis : ∀ v T, skeleton T = skeleton root →
              visible_at q (assignVisible (namedNode rowName root) v T)
              = if decide (namedNode rowName root = Some q) then Some v
                else visible_at q T).
    { intros v T HT. destruct (namedNode rowName root) as [qr|] eqn:Hq.
      - rewrite visible_at_assignVisible.
        + repeat case_decide; congruence.
        + rewrite <- (namedNode_skeleton rowName T root HT) in Hq.
          apply namedNode_name in Hq as (m & Hm & _). eauto.
      - destruct (decide (None = Some q)); [congruence | reflexivity]. }
    destruct (provided entry); simpl.
    + destruct (textAnchor textName root) as [qt|] eqn:Hqt.
      * rewrite Hvis by apply assignText_skeleton.
        rewrite visible_at_assignText.
        rewrite bool_decide_eq_true_2 by eauto. reflexivity.
      * rewrite Hvis by reflexivity.
        rewrite bool_decide_eq_false_2 by (by intros [? ?]). reflexivity.
    + destruct (textAnchor textName root); by rewrite Hvis.
Qed.

(** ** Effect of the whole plan *)

Lemma runPlan_text_untouched (ops : list Op) (root T : Node) (q : path) :
  skeleton T = skeleton root →
  Forall (fun op => textAnchor (op_text_name op) root ≠ Some q) ops →
  text_at q (runPlan ops T) = text_at q T.
Proof.
  revert T. induction ops as [|op ops IH]; intros T HT Hall; [reflexivity|].
  apply Forall_cons in Hall as [Hop Hops].
  rewrite runPlan_cons, IH; [| by rewrite runOp_skeleton | done].
  rewrite runOp_text_at, (textAnchor_skeleton _ T root HT).
  by case_decide.
Qed.

Lemma runPlan_visible_untouched (ops : list Op) (root T : Node) (q : path) :
  skeleton T = skeleton root →
  Forall (fun op => ∀ rn, op_row_name op = Some rn → namedNode rn root ≠ Some q) ops →
  visible_at q (runPlan ops T) = visible_at q T.
Proof.
  revert T. induction ops as [|op ops IH]; intros T HT Hall; [reflexivity|].
  apply Forall_cons in Hall as [Hop Hops].
  rewrite runPlan_cons, IH; [| by rewrite runOp_skeleton | done].
  rewrite runOp_visible_at. destruct op as [|rn tn e]; [reflexivity|].
  rewrite (namedNode_skeleton _ T root HT).
  case_decide; [|reflexivity]. by destruct (Hop rn eq_refl).
Qed.

(** Two anchors found at the same place have the same name. *)
Lemma textAnchor_same_place (a1 a2 : jsstring) (root : Node) (q : path) :
  textAnchor a1 root = Some q → textAnchor a2 root = Some q → a1 = a2.
Proof.
  intros H1 H2. apply textAnchor_name in H1 as (m1 & Hm1 & Hn1 & _).
  apply textAnchor_name in H2 as (m2 & Hm2 & Hn2 & _). congruence.
Qed.

Lemma namedNode_same_place (a1 a2 : jsstring) (root : Node) (q : path) :
  namedNode a1 root = Some q → namedNode a2 root = Some q → a1 = a2.
Proof.
  intros H1 H2. apply namedNode_name in H1 as (m1 & Hm1 & Hn1).
  apply namedNode_name in H2 as (m2 & Hm2 & Hn2). congruence.
Qed.

(** When every step of a plan has its own text anchor, the text behind the
    anchor of a step is, after the plan, what that step made it. *)
Lemma runPlan_text_at (ops : list Op) (root : Node) (op : Op) (q : path) :
  NoDup (map op_text_name ops) → op ∈ ops →
  textAnchor (op_text_name op) root = Some q →
  text_at q (runPlan ops root) =
    match op_text_value op with
    | Some s => Some s
    | None => text_at q root
    end.
Proof.
  intros Hnd Hin Hq.
  apply list_elem_of_split in Hin as (pre & post & ->).
  rewrite map_app in Hnd. simpl in Hnd.
  apply NoDup_app in Hnd as (_ & Hpre & Hpost).
  apply NoDup_cons in Hpost as [Hpost _].
  assert (Hother : ∀ l, op_text_name op ∉ map op_text_name l →
            Forall (fun op' => textAnchor (op_text_name op') root ≠ Some q) l).
  { intros l Hl. apply Forall_forall. intros op' Hop' Hq'.
    apply Hl. rewrite (textAnchor_same_place _ _ _ _ Hq Hq').
    apply list_elem_of_fmap. eauto. }
  rewrite runPlan_app, runPlan_cons.
  rewrite (runPlan_text_untouched post root);
    [| by rewrite runOp_skeleton, runPlan_skeleton | by apply Hother ].
  rewrite runOp_text_at.
  rewrite (textAnchor_skeleton _ _ root) by apply runPlan_skeleton.
  rewrite decide_True by done.
  destruct (op_text_value op); [reflexivity|].
  apply (runPlan_text_untouched pre root root); [reflexivity|].
  apply Hother. intros Hin. apply (Hpre _ Hin). left.
Qed.

(** When every row step of a plan has its own row, the row is visible after
    the plan exactly when its step found an entry and a text anchor. *)
Lemma runPlan_visible_at (ops : list Op) (root : Node)
  (rowName textName : jsstring) (entry : optional jsstring) (q : path) :
  NoDup (omap op_row_name ops) → OpRow rowName textName entry ∈ ops →
  namedNode rowName root = Some q →
  visible_at q (runPlan ops root)
  = Some (provided entry && bool_decide (is_Some (textAnchor textName root))).
Proof.
  intros Hnd Hin Hq.
  apply list_elem_of_split in Hin as (pre & post & ->).
  rewrite omap_app in Hnd. simpl in Hnd.
  apply NoDup_app in Hnd as (_ & Hpre & Hpost).
  apply NoDup_cons in Hpost as [Hpost _].
  assert (Hother : ∀ l, rowName ∉ omap op_row_name l →
            Forall (fun op' => ∀ rn, op_row_name op' = Some rn →
                                 namedNode rn root ≠ Some q) l).
  { intros l Hl. apply Forall_forall. intros op' Hop' rn Hrn Hq'.
    apply Hl. rewrite (namedNode_same_place _ _ _ _ Hq Hq').
    apply list_elem_of_omap. eauto. }
  rewrite runPlan_app, runPlan_cons.
  rewrite (runPlan_visible_untouched post root);
    [| by rewrite runOp_skeleton, runPlan_skeleton | by apply Hother ].
  rewrite runOp_visible_at.
  rewrite (namedNode_skeleton _ _ root) by apply runPlan_skeleton.
  rewrite (textAnchor_skeleton _ _ root) by apply runPlan_skeleton.
  by rewrite decide_True.
Qed.

(** A node that bears the name of no row of the plan keeps its
    visibility. *)
Lemma runPlan_visible_frame (ops : list Op) (root : Node) (q : path) (m : Node) :
  node_at q root = Some m →
  (∀ rn, name m = Some rn → rn ∉ omap op_row_name ops) →
  visible_at q (runPlan ops root) = Some (visible m).
Proof.
  intros Hm Hname. rewrite (runPlan_visible_untouched ops root); [| reflexivity |].
  - unfold visible_at. by rewrite Hm.
  - apply Forall_forall. intros op Hop rn Hrn Hq.
    apply namedNode_name in Hq as (m' & Hm' & Hn').
    apply (Hname rn); [congruence|]. apply list_elem_of_omap. eauto.
Qed.

Lemma plan_text_names_distinct (content : GeminiSiteContent) :
  NoDup (map op_text_name (plan content)).
Proof. apply (bool_decide_unpack _). vm_compute. exact I. Qed.

Lemma plan_row_names_distinct (content : GeminiSiteContent) :
  NoDup (omap op_row_name (plan content)).
Proof. apply (bool_decide_unpack _). vm_compute. exact I. Qed.

Lemma applied_root (w : World) (landing : nat) (root : Node) (content : GeminiSiteContent) :
  page w !! landing = Some root →
  page (applied landing content w) !! landing = Some (runPlan (plan content) root).
Proof.
  intros Hk. unfold applied.
  destruct (applyGeminiContent_tracks landing content w root Hk) as [events ->].
  cbn [snd page]. apply list_lookup_insert_eq. eapply lookup_lt_Some; eauto.
Qed.

Lemma plan_text_effect (content : GeminiSiteContent) (root : Node)
  (anchor : jsstring) (value : optional jsstring) (q : path) :
  OpText anchor value ∈ plan content → textAnchor anchor root = Some q →
  text_at q (runPlan (plan content) root) =
    match value with
    | defined s => Some s
    | _ => text_at q root
    end.
Proof.
  intros Hin Hq.
  rewrite (runPlan_text_at _ root (OpText anchor value) q
             (plan_text_names_distinct content) Hin Hq).
  by destruct value.
Qed.

Lemma plan_row_effect (content : GeminiSiteContent) (root : Node)
  (prefix : jsstring) (entries : list (optional jsstring)) (i : nat) :
  rowOp prefix entries i ∈ plan content →
  row_outcome prefix (item entries i) i root (runPlan (plan content) root).
Proof.
  intros Hin. unfold row_outcome. split.
  - intros s qt Hs Hne Hqt. split.
    + rewrite (runPlan_text_at _ root _ qt (plan_text_names_distinct content) Hin Hqt).
      cbn [rowOp op_text_value]. rewrite Hs.
      apply truthy_true in Hne. by rewrite Hne.
    + intros qr Hqr.
      rewrite (runPlan_visible_at _ root _ _ _ qr (plan_row_names_distinct content) Hin Hqr).
      rewrite Hs, Hqt, bool_decide_eq_true_2 by eauto.
      cbn [provided]. apply truthy_true in Hne. by rewrite Hne.
  - intros Hcase. split.
    + intros qr Hqr.
      rewrite (runPlan_visible_at _ root _ _ _ qr (plan_row_names_distinct content) Hin Hqr).
      destruct Hcase as [-> | ->]; [reflexivity|].
      rewrite bool_decide_eq_false_2 by (by intros [? ?]). by rewrite andb_false_r.
    + intros qt Hqt. destruct Hcase as [Hp | Hnone]; [|congruence].
      rewrite (runPlan_text_at _ root _ qt (plan_text_names_distinct content) Hin Hqt).
      simpl. destruct (item entries i) as [| |s]; try reflexivity.
      simpl in Hp. by rewrite Hp.
Qed.

Lemma highlight_in_plan (content : GeminiSiteContent) (i : nat) :
  (i < 3)%nat → rowOp (str "Hero:Highlight:") (highlightsOf content) i ∈ plan content.
Proof.
  intros Hi. apply list_elem_of_lookup. exists (5 + i)%nat.
  destruct i as [|[|[|]]]; [reflexivity.. | lia].
Qed.

Lemma bullet_in_plan (content : GeminiSiteContent) (i : nat) :
  (i < 3)%nat → rowOp (str "Testimonial:Bullet:") (bulletsOf content) i ∈ plan content.
Proof.
  intros Hi. apply list_elem_of_lookup. exists (20 + i)%nat.
  destruct i as [|[|[|]]]; [reflexivity.. | lia].
Qed.

Lemma metric_value_in_plan (content : GeminiSiteContent) (i : nat) :
  (i < 3)%nat →
  OpText (str "HeroMetric:" ++ index_text i ++ str ":Value") (metricValue content i)
    ∈ plan content.
Proof.
  intros Hi. apply list_elem_of_lookup. exists (8 + 2 * i)%nat.
  destruct i as [|[|[|]]]; [reflexivity.. | lia].
Qed.

Lemma metric_label_in_plan (content : GeminiSiteContent) (i : nat) :
  (i < 3)%nat →
  OpText (str "HeroMetric:" ++ index_text i ++ str ":Label") (metricLabel content i)
    ∈ plan content.
Proof.
  intros Hi. apply list_elem_of_lookup. exists (9 + 2 * i)%nat.
  destruct i as [|[|[|]]]; [reflexivity.. | lia].
Qed.

(** ** Content application engine *)

(** C4 (amended). For every index [i] below 3 of the hero highlights and of
    the testimonial bullets: when the payload's entry at [i] is a non-empty
    string and the text anchor of the row is in the tree, the anchor's text
    becomes that entry and the row container, when the tree has one, is
    visible; in every other case (no entry, [null], the empty string, or no
    text anchor) the row container, when the tree has one, is hidden and
    the text anchor keeps its text. *)
Theorem rows_follow_payload (w : World) (landing : nat) (root : Node)
  (content : GeminiSiteContent) (i : nat) :
  page w !! landing = Some root → (i < 3)%nat →
  ∃ root',
    page (applied landing content w) !! landing = Some root'
    ∧ skeleton root' = skeleton root
    ∧ row_outcome (str "Hero:Highlight:") (item (highlightsOf content) i) i root root'
    ∧ row_outcome (str "Testimonial:Bullet:") (item (bulletsOf content) i) i root root'.
Proof.
  intros Hroot Hi. exists (runPlan (plan content) root).
  split; [|split; [|split]].
  - by apply applied_root.
  - apply runPlan_skeleton.
  - apply plan_row_effect, highlight_in_plan, Hi.
  - apply plan_row_effect, bullet_in_plan, Hi.
Qed.

Lemma builtWorld_root : page builtWorld !! 0%nat = Some builtRoot.
Proof. vm_compute. reflexivity. Qed.

Lemma rows_follow_payload_witness :
  ∃ root',
    page (applied 0 payloadAB builtWorld) !! 0%nat = Some root'
    ∧ text_at [0; 2; 0; 2; 0; 1]%nat root' = Some (str "A")
    ∧ visible_at [0; 2; 0; 2; 0]%nat root' = Some true
    ∧ text_at [0; 2; 0; 2; 1; 1]%nat root' = Some (str "B")
    ∧ visible_at [0; 2; 0; 2; 1]%nat root' = Some true
    ∧ visible_at [0; 2; 0; 2; 2]%nat root' = Some false.
Proof.
  destruct (rows_follow_payload builtWorld 0 builtRoot payloadAB 0
              builtWorld_root ltac:(lia)) as (root' & Hroot' & _ & [H0 _] & _).
  destruct (rows_follow_payload builtWorld 0 builtRoot payloadAB 1
              builtWorld_root ltac:(lia)) as (root1 & Hroot1 & _ & [H1 _] & _).
  destruct (rows_follow_payload builtWorld 0 builtRoot payloadAB 2
              builtWorld_root ltac:(lia)) as (root2 & Hroot2 & _ & [_ H2] & _).
  assert (root1 = root') as -> by congruence.
  assert (root2 = root') as -> by congruence.
  exists root'. split; [exact Hroot'|].
  destruct (H0 (str "A") [0; 2; 0; 2; 0; 1]%nat) as [Ha Hva];
    [reflexivity | discriminate | vm_compute; reflexivity |].
  destruct (H1 (str "B") [0; 2; 0; 2; 1; 1]%nat) as [Hb Hvb];
    [reflexivity | discriminate | vm_compute; reflexivity |].
  destruct H2 as [Hv2 _]; [left; reflexivity|].
  repeat split.
  - exact Ha.
  - apply Hva. vm_compute. reflexivity.
  - exact Hb.
  - apply Hvb. vm_compute. reflexivity.
  - apply Hv2. vm_compute. reflexivity.
Defined.

(** C4, as stated, fails: the payload [{ hero: { highlights: [""] } }] has
    an entry at index 0 and the built tree has the text anchor of highlight
    row 0, yet after the engine ran that row is hidden and the anchor still
    holds the text the builder gave it. *)
Lemma rows_empty_item_counterexample :
  item (highlightsOf payloadEmptyItem) 0 = defined []
  ∧ page builtWorld !! 0%nat = Some builtRoot
  ∧ textAnchor (str "Hero:Highlight:0:Text") builtRoot = Some [0; 2; 0; 2; 0; 1]%nat
  ∧ namedNode (str "Hero:Highlight:0") builtRoot = Some [0; 2; 0; 2; 0]%nat
  ∧ ∃ root',
      page (applied 0 payloadEmptyItem builtWorld) !! 0%nat = Some root'
      ∧ visible_at [0; 2; 0; 2; 0]%nat root' = Some false
      ∧ text_at [0; 2; 0; 2; 0; 1]%nat root'
        = Some (str "Token & styles tersinkron otomatis ke seluruh platform").
Proof.
  split; [reflexivity|]. split; [apply builtWorld_root|].
  split; [vm_compute; reflexivity|]. split; [vm_compute; reflexivity|].
  eexists. split; [vm_compute; reflexivity|].
  split; vm_compute; reflexivity.
Qed.

Lemma metric_row_is_no_row_of_the_plan (content : GeminiSiteContent) (i : nat) :
  (i < 3)%nat → str "HeroMetric:" ++ index_text i ∉ omap op_row_name (plan content).
Proof.
  intros Hi. destruct i as [|[|[|]]]; [| | | lia];
    apply (bool_decide_unpack _); vm_compute; exact I.
Qed.

(** C5. For every metric index [i] below 3 and every payload: a node that
    bears the name of metric row [i] has, after the engine ran, the
    visibility it had before; and when the payload has no value (no label)
    at [i], the value (label) anchor of the row keeps its text. *)
Theorem metric_rows_stay (w : World) (landing : nat) (root : Node)
  (content : GeminiSiteContent) (i : nat) :
  page w !! landing = Some root → (i < 3)%nat →
  ∃ root',
    page (applied landing content w) !! landing = Some root'
    ∧ skeleton root' = skeleton root
    ∧ (∀ q m, node_at q root = Some m →
         name m = Some (str "HeroMetric:" ++ index_text i) →
         visible_at q root' = Some (visible m))
    ∧ (absent (metricValue content i) →
       ∀ q, textAnchor (str "HeroMetric:" ++ index_text i ++ str ":Value") root = Some q →
            text_at q root' = text_at q root)
    ∧ (absent (metricLabel content i) →
       ∀ q, textAnchor (str "HeroMetric:" ++ index_text i ++ str ":Label") root = Some q →
            text_at q root' = text_at q root).
Proof.
  intros Hroot Hi. exists (runPlan (plan content) root).
  split; [|split; [|split; [|split]]].
  - by apply applied_root.
  - apply runPlan_skeleton.
  - intros q m Hm Hname. apply (runPlan_visible_frame _ _ _ _ Hm).
    intros rn Hrn. rewrite Hname in Hrn. injection Hrn as <-.
    by apply metric_row_is_no_row_of_the_plan.
  - intros Habs q Hq.
    rewrite (plan_text_effect content root _ _ q (metric_value_in_plan content i Hi) Hq).
    by destruct (metricValue content i).
  - intros Habs q Hq.
    rewrite (plan_text_effect content root _ _ q (metric_label_in_plan content i Hi) Hq).
    by destruct (metricLabel content i).
Qed.

Lemma metric_rows_stay_witness :
  ∃ root',
    page (applied 0 payloadOneMetric builtWorld) !! 0%nat = Some root'
    ∧ visible_at [0; 3; 0]%nat root' = Some true
    ∧ visible_at [0; 3; 1]%nat root' = Some true
    ∧ visible_at [0; 3; 2]%nat root' = Some true
    ∧ text_at [0; 3; 1; 0]%nat root' = Some (str "2x")
    ∧ text_at [0; 3; 1; 1]%nat root' = Some (str "Lebih cepat menyiapkan handoff")
    ∧ text_at [0; 3; 2; 0]%nat root' = Some (str "5 menit")
    ∧ text_at [0; 3; 2; 1]%nat root' = Some (str "Update dokumen developer otomatis").
Proof.
  destruct (metric_rows_stay builtWorld 0 builtRoot payloadOneMetric 0
              builtWorld_root ltac:(lia)) as (root' & Hroot' & _ & Hv0 & _ & _).
  destruct (metric_rows_stay builtWorld 0 builtRoot payloadOneMetric 1
              builtWorld_root ltac:(lia)) as (root1 & Hroot1 & _ & Hv1 & Hval1 & Hlab1).
  destruct (metric_rows_stay builtWorld 0 builtRoot payloadOneMetric 2
              builtWorld_root ltac:(lia)) as (root2 & Hroot2 & _ & Hv2 & Hval2 & Hlab2).
  assert (root1 = root') as -> by congruence.
  assert (root2 = root') as -> by congruence.
  exists root'. split; [exact Hroot'|].
  pose (node := fun q => default builtRoot (node_at q builtRoot)).
  rewrite (Hv0 [0; 3; 0]%nat (node [0; 3; 0]%nat)) by (vm_compute; reflexivity).
  rewrite (Hv1 [0; 3; 1]%nat (node [0; 3; 1]%nat)) by (vm_compute; reflexivity).
  rewrite (Hv2 [0; 3; 2]%nat (node [0; 3; 2]%nat)) by (vm_compute; reflexivity).
  rewrite (Hval1 I [0; 3; 1; 0]%nat) by (vm_compute; reflexivity).
  rewrite (Hlab1 I [0; 3; 1; 1]%nat) by (vm_compute; reflexivity).
  rewrite (Hval2 I [0; 3; 2; 0]%nat) by (vm_compute; reflexivity).
  rewrite (Hlab2 I [0; 3; 2; 1]%nat) by (vm_compute; reflexivity).
  repeat split; vm_compute; reflexivity.
Defined.

Lemma textFields_plan (content : GeminiSiteContent) :
  textFields content = omap text_of_op (plan content).
Proof. reflexivity. Qed.

Lemma text_field_in_plan (content : GeminiSiteContent) (anchor : jsstring)
  (value : optional jsstring) :
  (anchor, value) ∈ textFields content → OpText anchor value ∈ plan content.
Proof.
  rewrite textFields_plan. intros Hin.
  apply list_elem_of_omap in Hin as (op & Hop & Heq).
  destruct op as [a v|]; simpl in Heq; [|discriminate].
  by injection Heq as -> ->.
Qed.

(** C10. A text field that is not a row entry overwrites its anchor with
    whatever string the payload gives, the empty string included, and
    leaves the anchor alone when the payload gives [undefined] or [null];
    an empty string as the entry of a highlight or bullet row counts as no
    entry: the row container is hidden and the row's text anchor keeps its
    text. *)
Theorem empty_string_asymmetry (w : World) (landing : nat) (root : Node)
  (content : GeminiSiteContent) :
  page w !! landing = Some root →
  ∃ root',
    page (applied landing content w) !! landing = Some root'
    ∧ (∀ anchor value q,
         (anchor, value) ∈ textFields content → textAnchor anchor root = Some q →
         (value = defined [] → text_at q root' = Some [])
         ∧ (∀ s, value = defined s → text_at q root' = Some s)
         ∧ (absent value → text_at q root' = text_at q root))
    ∧ (∀ i prefix entries,
         (i < 3)%nat →
         (prefix, entries) ∈ [ (str "Hero:Highlight:", highlightsOf content);
                               (str "Testimonial:Bullet:", bulletsOf content) ] →
         item entries i = defined [] →
         (∀ qr, namedNode (prefix ++ index_text i) root = Some qr →
                visible_at qr root' = Some false)
         ∧ (∀ qt, textAnchor (prefix ++ index_text i ++ str ":Text") root = Some qt →
                  text_at qt root' = text_at qt root)).
Proof.
  intros Hroot. exists (runPlan (plan content) root). split; [|split].
  - by apply applied_root.
  - intros anchor value q Hin Hq.
    rewrite (plan_text_effect content root anchor value q (text_field_in_plan _ _ _ Hin) Hq).
    repeat split.
    + by intros ->.
    + by intros s ->.
    + by destruct value.
  - intros i prefix entries Hi Hin Hempty.
    assert (Hop : rowOp prefix entries i ∈ plan content).
    { apply elem_of_cons in Hin as [[= -> ->] | Hin]; [by apply highlight_in_plan|].
      apply list_elem_of_singleton in Hin as [= -> ->]. by apply bullet_in_plan. }
    destruct (plan_row_effect content root prefix entries i Hop) as [_ Hhidden].
    apply Hhidden. left. by rewrite Hempty.
Qed.

Lemma empty_string_asymmetry_witness :
  (∃ root',
     page (applied 0 payloadEmptyTitle builtWorld) !! 0%nat = Some root'
     ∧ text_at [0; 2; 0; 0]%nat builtRoot
       = Some (str "Bangun hero landing page siap handoff")
     ∧ text_at [0; 2; 0; 0]%nat root' = Some [])
  ∧ (∃ root',
       page (applied 0 payloadEmptyItem builtWorld) !! 0%nat = Some root'
       ∧ visible_at [0; 2; 0; 2; 0]%nat root' = Some false
       ∧ text_at [0; 2; 0; 2; 0; 1]%nat root' = text_at [0; 2; 0; 2; 0; 1]%nat builtRoot).
Proof.
  split.
  - destruct (empty_string_asymmetry builtWorld 0 builtRoot payloadEmptyTitle
                builtWorld_root) as (root' & Hroot' & Htext & _).
    exists root'. split; [exact Hroot'|]. split; [vm_compute; reflexivity|].
    apply (Htext (str "Hero:Heading") (defined [])).
    + apply list_elem_of_here.
    + vm_compute. reflexivity.
    + reflexivity.
  - destruct (empty_string_asymmetry builtWorld 0 builtRoot payloadEmptyItem
                builtWorld_root) as (root' & Hroot' & _ & Hrows).
    exists root'. split; [exact Hroot'|].
    destruct (Hrows 0%nat (str "Hero:Highlight:") (highlightsOf payloadEmptyItem))
      as [Hvis Htxt]; [lia | apply list_elem_of_here | reflexivity |].
    split; [apply Hvis | apply Htxt]; vm_compute; reflexivity.
Defined.

(** ** Generation orchestrator *)

Lemma trimStart_spaces (s : jsstring) : spaces s → trimStart s = [].
Proof. induction 1 as [|c s Hc _ IH]; simpl; [reflexivity|]. by rewrite Hc. Qed.

Lemma trim_spaces (s : jsstring) : spaces s → trim s = [].
Proof. intros H. unfold trim, trimEnd. by rewrite (trimStart_spaces s). Qed.

Lemma blank_rejected (prompt : Unknown) : blank prompt → promptRejected prompt = true.
Proof.
  destruct prompt as [s|]; simpl; [|reflexivity]. intros H. by rewrite trim_spaces.
Qed.

(** C7. For a prompt that is not a string, is empty or is white space only,
    and for any prompt when no provider credential is configured, the
    handler posts the status [error] and nothing else to the status
    channel, issues no request to the provider, and leaves the canvas as it
    was. *)
Theorem invalid_request_no_network (tk : Tokens) (key model : option jsstring)
  (fetch : Request → FetchOutcome) (JSON_parse : jsstring → option GeminiSiteContent)
  (prompt : Unknown) (w : World) :
  blank prompt ∨ credential_missing key →
  ∃ events,
    handleGenerateAiSite tk key model fetch JSON_parse prompt w
      = (Ok tt, mkWorld (nextId w) (page w) (log w ++ events))
    ∧ statuses events = [error]
    ∧ forallb (fun e => negb (is_fetch e)) events = true.
Proof.
  intros Hcase. unfold handleGenerateAiSite.
  destruct (promptRejected prompt) eqn:Hrej.
  - eexists. split; [reflexivity|]. split; reflexivity.
  - destruct Hcase as [Hblank | Hkey].
    + apply blank_rejected in Hblank. congruence.
    + assert (truthy (default [] (GEMINI_API_KEY key)) = false) as ->.
      { unfold GEMINI_API_KEY. destruct Hkey as [Hk | Hk]; by rewrite Hk. }
      eexists. split; [|split].
      * cbn [negb]. unfold mbind, M_bind, postStatus, notify, emit.
        cbn [nextId page log]. rewrite <- app_assoc. reflexivity.
      * reflexivity.
      * reflexivity.
Qed.

Lemma invalid_request_no_network_witness :
  ∃ events,
    handleGenerateAiSite sampleTokens (Some (str "key")) None
      (answering (str "{}")) rejecting (UString (str "   ")) emptyWorld
      = (Ok tt, mkWorld 0 [] events)
    ∧ statuses events = [error]
    ∧ forallb (fun e => negb (is_fetch e)) events = true.
Proof.
  destruct (invalid_request_no_network sampleTokens (Some (str "key")) None
              (answering (str "{}")) rejecting (UString (str "   ")) emptyWorld)
    as (events & Hrun & Hst & Hfetch).
  - left. repeat constructor.
  - exists events. by rewrite Hrun.
Defined.

Lemma star_any_none (s : jsstring) (caps : captures) (k : kont) :
  125 ∉ s →
  rmatch (Star any_unit) s caps (fun s' caps' => rmatch (lit 125) s' caps' k) = None.
Proof.
  induction s as [|c s IH]; intros Hnot; rewrite rmatch_star_class; [reflexivity|].
  rewrite IH by (intros Hin; apply Hnot; by right).
  unfold lit. rewrite rmatch_class_cons.
  destruct (N.eqb_spec 125 c) as [<-|]; [|reflexivity].
  destruct Hnot. by left.
Qed.

Lemma match_at_brace (c : N) (s : jsstring) :
  match_at BRACE_PATTERN (c :: s) =
    if 123 =? c
    then rmatch (Star any_unit) s []
           (fun s' caps' =>
              rmatch (lit 125) s' caps'
                (fun s'' caps'' =>
                   Some (caps'' ++ [take (length (c :: s) - length s'') (c :: s)])))
    else None.
Proof.
  unfold match_at, BRACE_PATTERN.
  rewrite rmatch_group, rmatch_cat. unfold lit at 1. rewrite rmatch_class_cons.
  destruct (123 =? c); [|reflexivity]. by rewrite rmatch_cat.
Qed.

Lemma match_at_brace_nil : match_at BRACE_PATTERN [] = None.
Proof. reflexivity. Qed.

Lemma no_brace_region_tail (c : N) (s : jsstring) :
  no_brace_region (c :: s) → no_brace_region s.
Proof.
  intros H (before & inside & after & ->). apply H.
  by exists (c :: before), inside, after.
Qed.

Lemma no_open_brace_no_region (s : jsstring) : 123 ∉ s → no_brace_region s.
Proof.
  intros Hnot (before & inside & after & ->). apply Hnot.
  apply elem_of_app. right. by left.
Qed.

(** A text without a brace-delimited region has no match. *)
Lemma search_brace_none (s : jsstring) :
  no_brace_region s → search BRACE_PATTERN s = None.
Proof.
  induction s as [|c s IH]; intros Hno; [reflexivity|].
  cbn [search]. rewrite match_at_brace.
  rewrite IH by (by eapply no_brace_region_tail).
  destruct (N.eqb_spec 123 c) as [<-|]; [|reflexivity].
  rewrite star_any_none; [reflexivity|].
  intros Hin. apply list_elem_of_split in Hin as (inside & after & ->).
  apply Hno. by exists [], inside, after.
Qed.

(** The match of a text with a brace-delimited region runs from the
    leftmost [{] to the rightmost [}]. *)
Lemma search_brace_region (s region : jsstring) :
  brace_region s region → search BRACE_PATTERN s = Some [region].
Proof.
  intros (before & inside & after & -> & -> & Hbefore & Hafter).
  induction before as [|c before IH].
  - apply search_here. cbn [app]. rewrite match_at_brace, N.eqb_refl.
    rewrite <- app_assoc. apply star_class_skip; [by apply Forall_forall|].
    cbn [app]. rewrite rmatch_star_class.
    rewrite star_any_none by done.
    unfold lit. rewrite rmatch_class_cons, N.eqb_refl. cbn [app]. do 2 f_equal.
    change (123 :: inside ++ 125 :: after) with ((123 :: inside) ++ 125 :: after).
    replace ((123 :: inside) ++ 125 :: after)
      with (((123 :: inside) ++ [125]) ++ after) by (by rewrite <- app_assoc).
    by rewrite take_matched.
  - cbn [app search]. rewrite match_at_brace.
    destruct (N.eqb_spec 123 c) as [<-|].
    + destruct Hbefore. by left.
    + apply IH. intros Hin. apply Hbefore. by right.
Qed.

Lemma parseGeminiJson_no_region (JSON_parse : jsstring → option GeminiSiteContent)
  (rawText : jsstring) :
  no_brace_region rawText →
  parseGeminiJson JSON_parse rawText = Throw (Error MSG_NO_JSON).
Proof. intros H. unfold parseGeminiJson. by rewrite search_brace_none. Qed.

Lemma parseGeminiJson_unparsable (JSON_parse : jsstring → option GeminiSiteContent)
  (rawText region : jsstring) :
  brace_region rawText region → JSON_parse region = None →
  parseGeminiJson JSON_parse rawText = Throw (Error MSG_PARSE_FAILED).
Proof.
  intros H Hparse. unfold parseGeminiJson.
  by rewrite (search_brace_region _ _ H), Hparse.
Qed.

(** What [requestGeminiContent] comes to when the response is a success
    whose text cannot be used. *)
Lemma requestGeminiContent_unusable (key model : option jsstring)
  (fetch : Request → FetchOutcome) (JSON_parse : jsstring → option GeminiSiteContent)
  (userPrompt : jsstring) (data : GeminiResponse) (w : World) :
  fetch (request_for key model userPrompt) = HttpSuccess (Ok data) →
  no_brace_region (rawTextOf data)
  ∨ (∃ region, brace_region (rawTextOf data) region ∧ JSON_parse region = None) →
  ∃ message,
    requestGeminiContent key model fetch JSON_parse userPrompt w
      = (Throw (Error message),
         mkWorld (nextId w) (page w) (log w ++ [Fetch (request_for key model userPrompt)]))
    ∧ message ∈ contentFormatMessages
    ∧ (rawTextOf data = [] → message = MSG_NO_CONTENT)
    ∧ (rawTextOf data ≠ [] → no_brace_region (rawTextOf data) → message = MSG_NO_JSON)
    ∧ ((∃ region, brace_region (rawTextOf data) region) → message = MSG_PARSE_FAILED).
Proof.
  intros Hfetch Hcase. unfold requestGeminiContent.
  fold (request_for key model userPrompt).
  unfold mbind, M_bind, emit. rewrite Hfetch. cbn [nextId page log].
  destruct (rawTextOf data) as [|c raw] eqn:Hraw.
  - exists MSG_NO_CONTENT. cbn [truthy negb]. unfold throw.
    split; [reflexivity|]. split; [apply list_elem_of_here|].
    split; [done|]. split; [done|].
    intros (region & before & inside & after & Heq & -> & _). by destruct before.
  - cbn [truthy negb]. destruct Hcase as [Hno | (region & Hregion & Hparse)].
    + exists MSG_NO_JSON. rewrite parseGeminiJson_no_region by done. unfold throw.
      split; [reflexivity|]. split; [apply list_elem_of_further, list_elem_of_here|].
      split; [done|]. split; [done|].
      intros (region & before & inside & after & Heq & -> & _).
      destruct Hno. exists before, inside, after. by rewrite Heq, <- !app_assoc.
    + exists MSG_PARSE_FAILED.
      rewrite (parseGeminiJson_unparsable _ _ _ Hregion Hparse). unfold throw.
      split; [reflexivity|].
      split; [apply list_elem_of_further, list_elem_of_further, list_elem_of_here|].
      split; [done|]. split; [|done].
      intros _ Hno. destruct Hregion as (before & inside & after & Heq & -> & _).
      destruct Hno. exists before, inside, after. by rewrite Heq, <- !app_assoc.
Qed.

(** C6. When the prompt and the credential are accepted and the provider
    answers with a success whose text has no brace-delimited region, or
    whose region from the leftmost [{] to the rightmost [}] does not parse,
    the handler ends in the status [error] with one of the fixed
    content-format messages, after [loading] and one request; the page and
    the node counter are as before: nothing was built and no node was
    changed. *)
Theorem unusable_response_no_mutation (tk : Tokens) (key model : option jsstring)
  (fetch : Request → FetchOutcome) (JSON_parse : jsstring → option GeminiSiteContent)
  (prompt : Unknown) (data : GeminiResponse) (w : World) :
  promptRejected prompt = false →
  truthy (default [] key) = true →
  fetch (request_for key model (trim (promptText prompt))) = HttpSuccess (Ok data) →
  no_brace_region (rawTextOf data)
  ∨ (∃ region, brace_region (rawTextOf data) region ∧ JSON_parse region = None) →
  ∃ message,
    handleGenerateAiSite tk key model fetch JSON_parse prompt w
      = (Ok tt,
         mkWorld (nextId w) (page w)
           (log w ++ failedRunEvents (request_for key model (trim (promptText prompt)))
                       message))
    ∧ message ∈ contentFormatMessages
    ∧ (rawTextOf data = [] → message = MSG_NO_CONTENT)
    ∧ (rawTextOf data ≠ [] → no_brace_region (rawTextOf data) → message = MSG_NO_JSON)
    ∧ ((∃ region, brace_region (rawTextOf data) region) → message = MSG_PARSE_FAILED).
Proof.
  intros Hprompt Hkey Hfetch Hcase. unfold handleGenerateAiSite.
  rewrite Hprompt. unfold GEMINI_API_KEY at 1. rewrite Hkey. cbn [negb].
  destruct (requestGeminiContent_unusable key model fetch JSON_parse
              (trim (promptText prompt)) data
              (mkWorld (nextId w) (page w)
                 (log w ++ [PostStatus loading
                              (str "Menghubungi Gemini untuk merumuskan konten...")]))
              Hfetch Hcase) as (message & Hreq & Hmsg).
  exists message. split; [|exact Hmsg].
  cbn [nextId page log] in Hreq.
  unfold try_catch, mbind, M_bind, postStatus, notify, emit. cbn [nextId page log].
  rewrite Hreq. cbn [nextId page log].
  unfold failedRunEvents. by rewrite <- !app_assoc.
Qed.

Lemma unusable_response_no_mutation_witness :
  handleGenerateAiSite sampleTokens (Some (str "key")) None
    (answering (str "no json here")) rejecting (UString (str "landing page")) builtWorld
  = (Ok tt,
     mkWorld (nextId builtWorld) (page builtWorld)
       (log builtWorld
        ++ failedRunEvents (request_for (Some (str "key")) None (str "landing page"))
             MSG_NO_JSON)).
Proof.
  destruct (unusable_response_no_mutation sampleTokens (Some (str "key")) None
              (answering (str "no json here")) rejecting (UString (str "landing page"))
              {| candidates := Some [ {| candidate_content :=
                   Some {| parts := Some [ {| part_text := Some (str "no json here") |} ] |} |} ] |}
              builtWorld)
    as (message & Hrun & _ & _ & Hmsg & _).
  - reflexivity.
  - reflexivity.
  - reflexivity.
  - left. apply no_open_brace_no_region.
    apply (bool_decide_unpack _). vm_compute. exact I.
  - rewrite Hrun, Hmsg; [reflexivity | discriminate |].
    apply no_open_brace_no_region.
    apply (bool_decide_unpack _). vm_compute. exact I.
Defined.

(** [paint] leaves the world as it is. *)
Lemma paint_run (tk : Tokens) (token : jsstring) (w : World) :
  paint tk token w = (Ok tt, w) ∨ ∃ e, paint tk token w = (Throw e, w).
Proof.
  unfold paint. destruct (getColor tk DEFAULT_THEME token) as [[hex|key|]|];
    [by left|right; eauto..].
Qed.

(** ** Scene graph builder: independence of the world *)

(** [paint] on a token of the builders. *)
Lemma paint_palette (tk : Tokens) (token : jsstring) :
  palette token = true →
  paint tk token = match colors tk !! DEFAULT_THEME with
                   | Some _ => mret tt
                   | None => throw (undefinedRead (groupNameOf token))
                   end.
Proof.
  intros Hp. pose proof (getColor_default_theme tk token Hp) as H. unfold paint.
  destruct (colors tk !! DEFAULT_THEME); [destruct H as [hex ->]|rewrite H]; reflexivity.
Qed.

Lemma sim_ret {A} (P : Prop) (R : A → A → Prop) (a1 a2 : A) :
  R a1 a2 → sim P R (mret a1) (mret a2).
Proof. intros H w1 w2. unfold mret, M_ret. auto. Qed.

Lemma sim_bind {A B} (P : Prop) (RA : A → A → Prop) (RB : B → B → Prop)
  (m1 m2 : M A) (f1 f2 : A → M B) :
  sim P RA m1 m2 → (∀ a1 a2, RA a1 a2 → sim P RB (f1 a1) (f2 a2)) →
  sim P RB (m1 ≫= f1) (m2 ≫= f2).
Proof.
  intros Hm Hf w1 w2. unfold mbind, M_bind. specialize (Hm w1 w2).
  destruct (m1 w1) as [[a1|e1] w1'], (m2 w2) as [[a2|e2] w2']; try done.
  destruct Hm as (Ha & Hp1 & Hp2). specialize (Hf a1 a2 Ha w1' w2').
  destruct (f1 a1 w1') as [[b1|e1] w1''], (f2 a2 w2') as [[b2|e2] w2'']; try done.
  - destruct Hf as (? & ? & ?). repeat split; congruence.
  - destruct Hf as (? & ? & ? & ?). repeat split; congruence.
Qed.

Lemma sim_throw {A} (P : Prop) (R : A → A → Prop) (e : Exn) :
  P → sim P R (throw e) (throw e).
Proof. intros HP w1 w2. unfold throw. auto. Qed.

Lemma sim_emit (P : Prop) (e : Event) : sim P eq (emit e) (emit e).
Proof. intros w1 w2. unfold emit. auto. Qed.

Lemma sim_createNode (P : Prop) (t : NodeType) :
  sim P same_shape (createNode t) (createNode t).
Proof. intros w1 w2. unfold createNode. simpl. repeat split. Qed.

Lemma sim_forM {A B} (P : Prop) (R : B → B → Prop) (items : list A)
  (body1 body2 : B → A → M B) :
  (∀ b1 b2 x, R b1 b2 → sim P R (body1 b1 x) (body2 b2 x)) →
  ∀ b1 b2, R b1 b2 → sim P R (forM items b1 body1) (forM items b2 body2).
Proof.
  intros Hbody. induction items as [|x items IH]; intros b1 b2 Hb; simpl.
  - by apply sim_ret.
  - eapply sim_bind; [by apply Hbody | exact IH].
Qed.

(** The pure operations on nodes respect the shape. *)
Lemma same_shape_refl (n : Node) : same_shape n n.
Proof. reflexivity. Qed.

Lemma same_shape_set_name (s : jsstring) (n1 n2 : Node) :
  same_shape n1 n2 → same_shape (set_name s n1) (set_name s n2).
Proof. unfold same_shape. destruct n1, n2; simpl. congruence. Qed.

Lemma same_shape_set_characters (s : jsstring) (n1 n2 : Node) :
  same_shape n1 n2 → same_shape (set_characters s n1) (set_characters s n2).
Proof. unfold same_shape. destruct n1, n2; simpl. congruence. Qed.

Lemma same_shape_set_fontName (f : FontSetting) (n1 n2 : Node) :
  same_shape n1 n2 → same_shape (set_fontName f n1) (set_fontName f n2).
Proof. unfold same_shape. destruct n1, n2; simpl. congruence. Qed.

Lemma same_shape_set_layoutMode (lm : LayoutMode) (n1 n2 : Node) :
  same_shape n1 n2 → same_shape (set_layoutMode lm n1) (set_layoutMode lm n2).
Proof. unfold same_shape. destruct n1, n2; simpl. congruence. Qed.

Lemma same_shape_appendChild (p1 p2 c1 c2 : Node) :
  same_shape p1 p2 → same_shape c1 c2 →
  same_shape (appendChild p1 c1) (appendChild p2 c2).
Proof.
  unfold same_shape. destruct p1, p2; simpl. rewrite !map_app. simpl.
  intros [= -> -> -> -> -> ->] ->. congruence.
Qed.

Lemma skeleton_anonymous (n : Node) : skeleton (anonymous n) = skeleton n.
Proof.
  induction n as [n IH] using Node_ind'. destruct n as [i t lm nm v c f kids].
  simpl in *. f_equal. rewrite map_map. apply map_ext_Forall. exact IH.
Qed.

Lemma same_shape_skeleton (n1 n2 : Node) : same_shape n1 n2 → skeleton n1 = skeleton n2.
Proof.
  intros H. rewrite <- (skeleton_anonymous n1), <- (skeleton_anonymous n2). by rewrite H.
Qed.

Lemma anonymous_update (f : Node → Node) (q : path) :
  (∀ m, anonymous (f m) = f (anonymous m)) →
  ∀ n, anonymous (update q f n) = update q f (anonymous n).
Proof.
  intros Hf. induction q as [|i q IH]; intros n; simpl; [apply Hf|].
  destruct n as [a t lm nm v c fn kids]. unfold set_children. simpl. f_equal.
  apply (list_fmap_alter anonymous). apply Forall_forall. intros x _. apply IH.
Qed.

Lemma same_shape_nameLabel (labelName : jsstring) (b1 b2 : Node) :
  same_shape b1 b2 → same_shape (nameLabel labelName b1) (nameLabel labelName b2).
Proof.
  intros H. unfold nameLabel.
  rewrite (findOne_skeleton (is_type TEXT) b1 b2).
  - destruct (findOne (is_type TEXT) b2) as [q|]; [|exact H].
    unfold same_shape. rewrite !anonymous_update by (by intros []). by rewrite H.
  - intros n1 n2 Ht _. unfold is_type. by rewrite Ht.
  - by apply same_shape_skeleton.
Qed.

Create HintDb shape discriminated.
#[local] Hint Resolve same_shape_refl same_shape_set_name same_shape_set_characters
  same_shape_set_fontName same_shape_set_layoutMode same_shape_appendChild
  same_shape_nameLabel : shape.
#[local] Hint Resolve sim_createNode sim_emit : shape.

(** The tokens of the builders are literals: their side conditions are
    computed. *)
#[local] Hint Extern 1 (palette _ = true) =>
  first [assumption | vm_compute; reflexivity] : shape.
#[local] Hint Extern 1 (palette_fill _ = true) =>
  first [assumption | vm_compute; reflexivity] : shape.

(** One step of a builder against the same step of its second run; the
    loops, which run over literal arrays, are unrolled. *)
Ltac sim_step :=
  unfold indexed; cbn [forM length seq zip_with]; cbv beta zeta;
  lazymatch goal with
  | |- sim _ _ (mret _) (mret _) => apply sim_ret; auto 40 with shape
  | |- sim _ _ (throw _) (throw _) => apply sim_throw; eauto
  | |- sim _ _ (forM _ _ _) (forM _ _ _) =>
      apply (sim_forM _ same_shape); [intros ? ? ? ? | auto 40 with shape]
  | |- sim _ _ (forM _ _ _ ≫= _) (forM _ _ _ ≫= _) =>
      eapply sim_bind;
        [apply (sim_forM _ same_shape); [intros ? ? ? ? | auto 40 with shape]
        | intros ? ? ?]
  | |- sim _ _ ((_ ≫= _) ≫= _) ((_ ≫= _) ≫= _) =>
      eapply (sim_bind _ same_shape); [ | intros ? ? ?]
  | |- sim _ _ (_ ≫= _) (_ ≫= _) =>
      eapply sim_bind; [solve [eauto 40 with shape] | intros ? ? ?]
  | |- sim _ _ (let '(_, _) := ?x in _) _ => destruct x
  end.

Ltac sim_auto := repeat sim_step.

Section BuilderSim.

Variable tk : Tokens.

Lemma sim_createFrame : sim (unbuildable tk) same_shape createFrame createFrame.
Proof. apply sim_createNode. Qed.
Lemma sim_createText : sim (unbuildable tk) same_shape createText createText.
Proof. apply sim_createNode. Qed.
Lemma sim_createRectangle : sim (unbuildable tk) same_shape createRectangle createRectangle.
Proof. apply sim_createNode. Qed.
Lemma sim_createEllipse : sim (unbuildable tk) same_shape createEllipse createEllipse.
Proof. apply sim_createNode. Qed.
#[local] Hint Resolve sim_createFrame sim_createText sim_createRectangle sim_createEllipse : shape.

Lemma sim_loadFontAsync (f : FontName) : sim (unbuildable tk) eq (loadFontAsync f) (loadFontAsync f).
Proof. apply sim_emit. Qed.
#[local] Hint Resolve sim_loadFontAsync : shape.

Lemma sim_paint (token : jsstring) :
  palette token = true → sim (unbuildable tk) eq (paint tk token) (paint tk token).
Proof.
  intros Hp. rewrite (paint_palette tk token Hp).
  destruct (colors tk !! DEFAULT_THEME) eqn:E.
  - by apply sim_ret.
  - apply sim_throw. by left.
Qed.
#[local] Hint Resolve sim_paint : shape.

Lemma sim_fill (fillToken : option jsstring) :
  palette_fill fillToken = true →
  sim (unbuildable tk) eq
    match fillToken with
    | Some token => if truthy token then paint tk token else mret tt
    | None => mret tt
    end
    match fillToken with
    | Some token => if truthy token then paint tk token else mret tt
    | None => mret tt
    end.
Proof.
  intros Hfill. destruct fillToken as [token|]; [destruct (truthy token)|].
  - by apply sim_paint.
  - by apply sim_ret.
  - by apply sim_ret.
Qed.

Lemma sim_applyTextStyle (n1 n2 : Node) (variant : TypographyVariant) :
  same_shape n1 n2 →
  sim (unbuildable tk) same_shape (applyTextStyle tk n1 variant) (applyTextStyle tk n2 variant).
Proof.
  intros H. unfold applyTextStyle.
  destruct (typography_scale tk variant) eqn:Hstyle; sim_auto.
  right. unfold lacks_variant. eauto.
Qed.
#[local] Hint Resolve sim_applyTextStyle : shape.

Lemma sim_createTextNode (content : jsstring) (variant : TypographyVariant)
  (fillToken : option jsstring) :
  palette_fill fillToken = true →
  sim (unbuildable tk) same_shape (createTextNode tk content variant fillToken)
    (createTextNode tk content variant fillToken).
Proof.
  intros Hfill. unfold createTextNode. sim_auto.
  eapply sim_bind; [exact (sim_fill _ Hfill) | intros ? ? ?]. sim_auto.
Qed.
#[local] Hint Resolve sim_createTextNode : shape.

Lemma sim_createAutoLayout (direction : LayoutMode) :
  sim (unbuildable tk) same_shape (createAutoLayout direction) (createAutoLayout direction).
Proof. unfold createAutoLayout. sim_auto. Qed.
#[local] Hint Resolve sim_createAutoLayout : shape.

Lemma sim_createButton (label : jsstring) (variant : ButtonVariant) :
  sim (unbuildable tk) same_shape (createButton tk label variant) (createButton tk label variant).
Proof. unfold createButton. destruct variant; sim_auto. Qed.
#[local] Hint Resolve sim_createButton : shape.

Lemma sim_createMetricCard (index : nat) (value label accent : jsstring) :
  palette accent = true →
  sim (unbuildable tk) same_shape (createMetricCard tk index value label accent)
    (createMetricCard tk index value label accent).
Proof. intros Haccent. unfold createMetricCard. sim_auto. Qed.
#[local] Hint Resolve sim_createMetricCard : shape.

Lemma sim_createHeroVisualHeader :
  sim (unbuildable tk) same_shape (createHeroVisualHeader tk) (createHeroVisualHeader tk).
Proof. unfold createHeroVisualHeader. sim_auto. Qed.

Lemma sim_createHeroVisualToolbar :
  sim (unbuildable tk) same_shape (createHeroVisualToolbar tk) (createHeroVisualToolbar tk).
Proof. unfold createHeroVisualToolbar. sim_auto. Qed.

Lemma sim_createHeroVisualMainCard :
  sim (unbuildable tk) same_shape (createHeroVisualMainCard tk) (createHeroVisualMainCard tk).
Proof. unfold createHeroVisualMainCard. sim_auto. Qed.

Lemma sim_createHeroVisualSidebar :
  sim (unbuildable tk) same_shape (createHeroVisualSidebar tk) (createHeroVisualSidebar tk).
Proof. unfold createHeroVisualSidebar. sim_auto. Qed.

Lemma sim_createHeroVisualReviewRow :
  sim (unbuildable tk) same_shape (createHeroVisualReviewRow tk) (createHeroVisualReviewRow tk).
Proof. unfold createHeroVisualReviewRow. sim_auto. Qed.
#[local] Hint Resolve sim_createHeroVisualHeader sim_createHeroVisualToolbar
  sim_createHeroVisualMainCard sim_createHeroVisualSidebar
  sim_createHeroVisualReviewRow : shape.

Lemma sim_createHeroVisualContent :
  sim (unbuildable tk) same_shape (createHeroVisualContent tk) (createHeroVisualContent tk).
Proof. unfold createHeroVisualContent. sim_auto. Qed.
#[local] Hint Resolve sim_createHeroVisualContent : shape.

Lemma sim_createHeroVisualBody :
  sim (unbuildable tk) same_shape (createHeroVisualBody tk) (createHeroVisualBody tk).
Proof. unfold createHeroVisualBody. sim_auto. Qed.

Lemma sim_createHeroVisualStats :
  sim (unbuildable tk) same_shape (createHeroVisualStats tk) (createHeroVisualStats tk).
Proof. unfold createHeroVisualStats. sim_auto. Qed.
#[local] Hint Resolve sim_createHeroVisualBody sim_createHeroVisualStats : shape.

Lemma sim_createHeroVisual : sim (unbuildable tk) same_shape (createHeroVisual tk) (createHeroVisual tk).
Proof. unfold createHeroVisual. sim_auto. Qed.
#[local] Hint Resolve sim_createHeroVisual : shape.

Lemma sim_createHeroSection : sim (unbuildable tk) same_shape (createHeroSection tk) (createHeroSection tk).
Proof. unfold createHeroSection. sim_auto. Qed.

Lemma sim_createTestimonialCopyColumn :
  sim (unbuildable tk) same_shape (createTestimonialCopyColumn tk) (createTestimonialCopyColumn tk).
Proof. unfold createTestimonialCopyColumn. sim_auto. Qed.

Lemma sim_buildTestimonialCard (data : Testimonial) :
  palette (t_accent data) = true →
  sim (unbuildable tk) same_shape (buildTestimonialCard tk data) (buildTestimonialCard tk data).
Proof.
  intros Haccent. unfold buildTestimonialCard. sim_auto.
  destruct (t_metric data) as [metric|]; [destruct (truthy metric)|]; sim_auto.
Qed.
#[local] Hint Resolve sim_createTestimonialCopyColumn sim_buildTestimonialCard : shape.

Lemma sim_createTestimonialCards :
  sim (unbuildable tk) same_shape (createTestimonialCards tk) (createTestimonialCards tk).
Proof. unfold createTestimonialCards. sim_auto. Qed.
#[local] Hint Resolve sim_createTestimonialCards : shape.

Lemma sim_createTestimonialSection :
  sim (unbuildable tk) same_shape (createTestimonialSection tk) (createTestimonialSection tk).
Proof. unfold createTestimonialSection. sim_auto. Qed.

Lemma sim_createCTASection : sim (unbuildable tk) same_shape (createCTASection tk) (createCTASection tk).
Proof. unfold createCTASection. sim_auto. Qed.
#[local] Hint Resolve sim_createHeroSection sim_createTestimonialSection sim_createCTASection
  : shape.

Lemma sim_buildLanding : sim (unbuildable tk) same_shape (buildLanding tk) (buildLanding tk).
Proof. unfold buildLanding. sim_auto. Qed.

End BuilderSim.

Lemma anchor_names_skeleton (n : Node) : anchor_names n = skeleton_names (skeleton n).
Proof.
  induction n as [n IH] using Node_ind'. destruct n as [i t lm nm v c f kids].
  simpl in *. f_equal. f_equal. rewrite map_map. apply map_ext_Forall. exact IH.
Qed.

Lemma applyTokensDemo_split (tk : Tokens) (w : World) :
  applyTokensDemo tk w = (buildLanding tk ≫= publish) w.
Proof.
  unfold applyTokensDemo, buildLanding, publish, mbind, M_bind.
  destruct (createAutoLayout VERTICAL w) as [[landing|e] w0]; [|reflexivity].
  destruct (paint tk (str "neutral/50") w0) as [[[]|e] wa]; [|reflexivity].
  destruct (paint tk (str "neutral/100") wa) as [[[]|e] wb]; [|reflexivity].
  destruct (paint tk (str "neutral/200") wb) as [[[]|e] wc]; [|reflexivity].
  destruct (createHeroSection tk wc) as [[c1|e] w1]; [|reflexivity].
  destruct (createTestimonialSection tk w1) as [[c2|e] w2]; [|reflexivity].
  destruct (createCTASection tk w2) as [[c3|e] w3]; reflexivity.
Qed.


(** On the sample schema the build returns, and a second build on the
    resulting canvas adds a second tree with the same anchors and fresh
    node identities. *)
Example builds_twice :
  let w2 := (applyTokensDemo sampleTokens builtWorld).2 in
  (applyTokensDemo sampleTokens builtWorld).1 = Ok 1%nat
  ∧ map anchor_names (page w2) = [anchor_names builtRoot; anchor_names builtRoot]
  ∧ map node_id (page w2) = [0; nextId builtWorld].
Proof. vm_compute. repeat split. Qed.

(** * Properties of the rest of the sources *)

(** ** [spacing] *)

(** X1. On a non-empty scale, [spacing] returns an entry of the scale for
    every integer step: the first entry for a step of 0 or less, the last
    for a step at or beyond the last index, and the entry at the step
    otherwise. *)
Theorem spacing_saturates (scale : list Q) (step : Z) :
  scale ≠ [] →
  ∃ v, spacing scale step = Some v
       ∧ v ∈ scale
       ∧ ((step <= 0)%Z → scale !! 0%nat = Some v)
       ∧ ((Z.of_nat (length scale) - 1 <= step)%Z → last scale = Some v)
       ∧ ((0 <= step <= Z.of_nat (length scale) - 1)%Z →
          scale !! Z.to_nat step = Some v).
Proof.
  intros Hne. unfold spacing.
  set (index := Z.max 0 (Z.min (Z.of_nat (length scale) - 1) step)%Z).
  assert (Hlen : (0 < length scale)%nat) by (destruct scale; simpl; [done | lia]).
  assert (Hidx : (Z.to_nat index < length scale)%nat) by (unfold index; lia).
  destruct (lookup_lt_is_Some_2 scale _ Hidx) as [v Hv].
  exists v. split; [exact Hv|]. split; [by eapply list_elem_of_lookup_2|].
  repeat split.
  - intros Hs. assert (Z.to_nat index = 0%nat) as <- by (unfold index; lia). exact Hv.
  - intros Hs. rewrite last_lookup.
    assert (Z.to_nat index = Nat.pred (length scale)) as <- by (unfold index; lia).
    exact Hv.
  - intros Hs. assert (Z.to_nat index = Z.to_nat step) as <- by (unfold index; lia).
    exact Hv.
Qed.

Lemma spacing_saturates_witness :
  ∃ v, spacing [0; 4; 8; 16; 24; 32]%Q 9 = Some v
       ∧ v ∈ [0; 4; 8; 16; 24; 32]%Q
       ∧ ((9 <= 0)%Z → [0; 4; 8; 16; 24; 32]%Q !! 0%nat = Some v)
       ∧ ((Z.of_nat (length [0; 4; 8; 16; 24; 32]%Q) - 1 <= 9)%Z →
          last [0; 4; 8; 16; 24; 32]%Q = Some v)
       ∧ ((0 <= 9 <= Z.of_nat (length [0; 4; 8; 16; 24; 32]%Q) - 1)%Z →
          [0; 4; 8; 16; 24; 32]%Q !! Z.to_nat 9 = Some v).
Proof.
  apply (spacing_saturates [0; 4; 8; 16; 24; 32]%Q 9). discriminate.
Defined.

(** ** [hexToRgb] and [hexToRgba] *)

Lemma land_255 (x : Z) : Z.land x 255 = (x mod 256)%Z.
Proof. change 255%Z with (Z.ones 8). by rewrite Z.land_ones. Qed.

Lemma channel_unit (k : Z) : (0 <= k <= 255)%Z → (0 <= inject_Z k / 255 <= 1)%Q.
Proof.
  intros Hk. unfold Qle, Qdiv, Qmult, Qinv, inject_Z; simpl. lia.
Qed.

Lemma is_hexDigit_range (c : N) :
  is_hexDigit c = true → 48 <= c <= 57 ∨ 97 <= c <= 102 ∨ 65 <= c <= 70.
Proof.
  unfold is_hexDigit, hexDigit.
  destruct ((48 <=? c) && (c <=? 57)) eqn:H1.
  { apply andb_true_iff in H1 as [?%N.leb_le ?%N.leb_le]. lia. }
  destruct ((97 <=? c) && (c <=? 102)) eqn:H2.
  { apply andb_true_iff in H2 as [?%N.leb_le ?%N.leb_le]. lia. }
  destruct ((65 <=? c) && (c <=? 70)) eqn:H3; [|discriminate].
  apply andb_true_iff in H3 as [?%N.leb_le ?%N.leb_le]. lia.
Qed.

Lemma hexDigit_bounds (c : N) : (0 <= default 0 (hexDigit c) < 16)%Z.
Proof.
  unfold hexDigit.
  destruct ((48 <=? c) && (c <=? 57)) eqn:H1.
  { apply andb_true_iff in H1 as [?%N.leb_le ?%N.leb_le]. simpl. lia. }
  destruct ((97 <=? c) && (c <=? 102)) eqn:H2.
  { apply andb_true_iff in H2 as [?%N.leb_le ?%N.leb_le]. simpl. lia. }
  destruct ((65 <=? c) && (c <=? 70)) eqn:H3; simpl; [|lia].
  apply andb_true_iff in H3 as [?%N.leb_le ?%N.leb_le]. lia.
Qed.

Lemma hexDigit_not_space (c : N) : is_hexDigit c = true → is_space c = false.
Proof.
  intros H%is_hexDigit_range. unfold is_space.
  repeat (apply orb_false_iff; split);
    first [ apply N.eqb_neq; lia
          | apply andb_false_iff;
            first [ left; apply N.leb_gt; lia | right; apply N.leb_gt; lia ] ].
Qed.

Lemma removeFirst_absent (x : N) (s : jsstring) : x ∉ s → removeFirst x s = s.
Proof.
  induction s as [|c s IH]; [reflexivity|]. intros Hx. simpl.
  destruct (N.eqb_spec c x) as [->|_].
  - exfalso. apply Hx. left.
  - f_equal. apply IH. intros ?. apply Hx. by right.
Qed.

Lemma hex_run_no_hash (digits : jsstring) :
  Forall (fun c => is_hexDigit c = true) digits → 35 ∉ digits.
Proof.
  intros Hall Hin. rewrite Forall_forall in Hall.
  apply Hall, is_hexDigit_range in Hin. lia.
Qed.

Lemma hexPrefix_all (digits : jsstring) :
  Forall (fun c => is_hexDigit c = true) digits → hexPrefix digits = digits.
Proof. induction 1 as [|c s Hc _ IH]; simpl; [reflexivity|]. by rewrite Hc, IH. Qed.

Lemma hexValue_fold (digits : jsstring) (acc : Z) :
  fold_left (fun acc c => (16 * acc + default 0 (hexDigit c))%Z) digits acc
  = (acc * 16 ^ Z.of_nat (length digits) + hexValue digits)%Z
  ∧ (0 <= hexValue digits < 16 ^ Z.of_nat (length digits))%Z.
Proof.
  unfold hexValue. revert acc.
  induction digits as [|c s IH]; intros acc.
  - simpl. lia.
  - cbn [fold_left length].
    destruct (IH (16 * acc + default 0 (hexDigit c))%Z) as [-> Hb].
    destruct (IH (16 * 0 + default 0 (hexDigit c))%Z) as [-> _].
    pose proof (hexDigit_bounds c) as Hc.
    rewrite Nat2Z.inj_succ, Z.pow_succ_r by lia.
    split; [ring | nia].
Qed.

Lemma hexValue_snoc_free (c : N) (s : jsstring) :
  hexValue (c :: s)
  = (default 0 (hexDigit c) * 16 ^ Z.of_nat (length s) + hexValue s)%Z.
Proof.
  change (hexValue (c :: s))
    with (fold_left (fun acc c => (16 * acc + default 0 (hexDigit c))%Z) s
            (16 * 0 + default 0 (hexDigit c))%Z).
  destruct (hexValue_fold s (16 * 0 + default 0 (hexDigit c))%Z) as [-> _].
  ring.
Qed.

Lemma parseInt16_hex_run (digits : jsstring) :
  hex_run digits → (length digits <= 13)%nat →
  parseInt16 digits = Finite (hexValue digits).
Proof.
  intros [Hne Hall] Hlen. unfold parseInt16.
  destruct digits as [|c s]; [done|].
  pose proof Hall as Hall'.
  apply Forall_cons in Hall' as [Hc Hs].
  cbn [trimStart]. rewrite (hexDigit_not_space c Hc).
  pose proof (is_hexDigit_range c Hc) as Hr.
  assert (Hsg : match c :: s with
                | 45 :: s' => (true, s')
                | 43 :: s' => (false, s')
                | _ => (false, c :: s)
                end = (false, c :: s)).
  { destruct c as [|p]; [reflexivity|].
    do 6 (destruct p as [p|p|]; try reflexivity); lia. }
  rewrite Hsg. clear Hsg.
  assert (Hpre : match c :: s with
                 | 48 :: x :: s' => if (x =? 120) || (x =? 88) then s' else c :: s
                 | _ => c :: s
                 end = c :: s).
  { destruct s as [|x s'].
    - destruct c as [|p]; [reflexivity|].
      do 6 (destruct p as [p|p|]; try reflexivity).
    - apply Forall_cons in Hs as [Hx _].
      apply is_hexDigit_range in Hx.
      assert (Hx' : (x =? 120) || (x =? 88) = false).
      { apply orb_false_iff; split; apply N.eqb_neq; lia. }
      destruct c as [|p]; [reflexivity|].
      do 6 (destruct p as [p|p|]; try reflexivity).
      by rewrite Hx'. }
  rewrite Hpre, (hexPrefix_all _ Hall).
  destruct (hexValue_fold (c :: s) 0) as [_ Hb].
  assert (Hlt : (hexValue (c :: s) < 2 ^ 53)%Z).
  { eapply Z.lt_le_trans; [apply Hb|].
    transitivity (16 ^ 13)%Z; [|by vm_compute].
    apply Z.pow_le_mono_r; lia. }
  unfold toDouble. apply Z.ltb_lt in Hlt. by rewrite Hlt.
Qed.

Lemma toInt32_congr (n : Z) : ∃ k : Z, toInt32 (Finite n) = (n + k * 2 ^ 32)%Z.
Proof.
  unfold toInt32. pose proof (Z.div_mod n (2 ^ 32) ltac:(lia)) as Hn.
  destruct (n mod 2 ^ 32 <? 2 ^ 31)%Z.
  - exists (- (n / 2 ^ 32))%Z. lia.
  - exists (- (n / 2 ^ 32) - 1)%Z. lia.
Qed.

Lemma byte_of_int32 (n : Z) (i : Z) :
  (0 <= i <= 3)%Z →
  Z.land (Z.shiftr (toInt32 (Finite n)) (8 * i)) 255 = byteOf i n.
Proof.
  intros Hi. destruct (toInt32_congr n) as [k ->].
  rewrite land_255, Z.shiftr_div_pow2 by lia. unfold byteOf.
  assert (H32 : (2 ^ 32 = 2 ^ (8 * i) * (2 ^ (8 * (3 - i)) * 256))%Z).
  { rewrite Z.mul_assoc, <- Z.pow_add_r by lia.
    change 256%Z with (2 ^ 8)%Z. rewrite <- Z.pow_add_r by lia. f_equal. lia. }
  rewrite H32.
  replace (n + k * (2 ^ (8 * i) * (2 ^ (8 * (3 - i)) * 256)))%Z
    with (n + (k * 2 ^ (8 * (3 - i)) * 256) * 2 ^ (8 * i))%Z by ring.
  rewrite Z.div_add by lia.
  replace (n / 2 ^ (8 * i) + k * 2 ^ (8 * (3 - i)) * 256)%Z
    with (n / 2 ^ (8 * i) + (k * 2 ^ (8 * (3 - i))) * 256)%Z by ring.
  by rewrite Z.mod_add.
Qed.

Lemma hexToRgb_value (stripped : jsstring) (n : Z) :
  parseInt16 stripped = Finite n →
  ∀ hex, removeFirst 35 hex = stripped →
  hexToRgb hex
  = {| rgb_r := inject_Z (byteOf 2 n) / 255;
       rgb_g := inject_Z (byteOf 1 n) / 255;
       rgb_b := inject_Z (byteOf 0 n) / 255 |}.
Proof.
  intros Hp hex Hs. unfold hexToRgb. rewrite Hs, Hp.
  change 16%Z with (8 * 2)%Z. change 8%Z with (8 * 1)%Z at 2.
  rewrite !byte_of_int32 by lia.
  replace (Z.land (toInt32 (Finite n)) 255) with (byteOf 0 n); [reflexivity|].
  rewrite <- (byte_of_int32 n 0) by lia. by rewrite Z.shiftr_0_r.
Qed.






(** X5. A text that, once its first [#] is removed, is empty or starts with
    a code unit that is neither white space, a sign nor a hexadecimal digit
    is not reported as an error: [hexToRgb] returns black. *)
Theorem hexToRgb_not_hex_is_black (hex : jsstring) :
  match removeFirst 35 hex with
  | [] => True
  | c :: _ => is_space c = false ∧ c ≠ 45 ∧ c ≠ 43 ∧ is_hexDigit c = false
  end →
  hexToRgb hex = {| rgb_r := 0 / 255; rgb_g := 0 / 255; rgb_b := 0 / 255 |}.
Proof.
  intros H. unfold hexToRgb.
  assert (Hp : parseInt16 (removeFirst 35 hex) = NaN).
  { destruct (removeFirst 35 hex) as [|c s]; [reflexivity|].
    destruct H as (Hsp & H45 & H43 & Hhex).
    unfold parseInt16. cbn [trimStart]. rewrite Hsp.
    assert (Hsg : match c :: s with
                  | 45 :: s' => (true, s')
                  | 43 :: s' => (false, s')
                  | _ => (false, c :: s)
                  end = (false, c :: s)).
    { destruct c as [|p]; [reflexivity|].
      do 6 (destruct p as [p|p|]; try reflexivity); lia. }
    rewrite Hsg.
    assert (H48 : c ≠ 48) by (intros ->; discriminate Hhex).
    assert (Hpre : match c :: s with
                   | 48 :: x :: s' => if (x =? 120) || (x =? 88) then s' else c :: s
                   | _ => c :: s
                   end = c :: s).
    { destruct c as [|p]; [reflexivity|].
      do 6 (destruct p as [p|p|]; try reflexivity). lia. }
    rewrite Hpre. cbn [hexPrefix]. by rewrite Hhex. }
  rewrite Hp. reflexivity.
Qed.

Lemma hexToRgb_not_hex_is_black_witness :
  hexToRgb (str "rgba(15, 23, 42, 0.08)")
  = {| rgb_r := 0 / 255; rgb_g := 0 / 255; rgb_b := 0 / 255 |}.
Proof.
  apply (hexToRgb_not_hex_is_black (str "rgba(15, 23, 42, 0.08)")).
  simpl. repeat split; discriminate.
Defined.

(** ** [getColor]: the segments of a token *)

Lemma split_not_nil (sep : N) (s : jsstring) : split sep s ≠ [].
Proof.
  induction s as [|c s IH]; simpl; [discriminate|].
  destruct (c =? sep); [discriminate|]. by destruct (split sep s).
Qed.

Lemma split_free (sep : N) (g : jsstring) : sep ∉ g → split sep g = [g].
Proof.
  induction g as [|c g IH]; [reflexivity|]. intros Hsep. simpl.
  destruct (N.eqb_spec c sep) as [->|_].
  - exfalso. apply Hsep. left.
  - rewrite IH; [reflexivity|]. intros ?. apply Hsep. by right.
Qed.

Lemma split_app (sep : N) (g rest : jsstring) :
  sep ∉ g → split sep (g ++ sep :: rest) = g :: split sep rest.
Proof.
  induction g as [|c g IH]; intros Hsep.
  - simpl. by rewrite N.eqb_refl.
  - simpl. destruct (N.eqb_spec c sep) as [->|_].
    + exfalso. apply Hsep. left.
    + rewrite IH; [reflexivity|]. intros ?. apply Hsep. by right.
Qed.

Lemma getColor_segments (tk : Tokens) (theme token token' : jsstring) :
  groupNameOf token = groupNameOf token' → shadeOf token = shadeOf token' →
  getColor tk theme token = getColor tk theme token'.
Proof.
  intros Hg Hs. unfold getColor.
  fold (groupNameOf token) (groupNameOf token') (shadeOf token) (shadeOf token').
  by rewrite Hg, Hs.
Qed.

(** X6. Only the first two segments of a token count: a token that ends in
    its slash resolves like the bare group name, and whatever follows a
    second slash is ignored. *)
Theorem getColor_token_segments (tk : Tokens) (theme g s rest : jsstring) :
  47 ∉ g → 47 ∉ s →
  getColor tk theme (g ++ [47]) = getColor tk theme g
  ∧ getColor tk theme (g ++ 47 :: s ++ 47 :: rest) = getColor tk theme (g ++ 47 :: s).
Proof.
  intros Hg Hs. split; apply getColor_segments; unfold groupNameOf, shadeOf.
  - by rewrite (split_app 47 g []), (split_free 47 g).
  - by rewrite (split_app 47 g []), (split_free 47 g).
  - by rewrite !(split_app 47 g).
  - rewrite !(split_app 47 g) by done.
    by rewrite (split_app 47 s), (split_free 47 s).
Qed.

Lemma getColor_token_segments_witness :
  getColor sampleTokens (str "light") (str "primary/") = getColor sampleTokens (str "light") (str "primary")
  ∧ getColor sampleTokens (str "light") (str "primary/600/hover")
    = getColor sampleTokens (str "light") (str "primary/600").
Proof.
  apply (getColor_token_segments sampleTokens (str "light") (str "primary") (str "600") (str "hover"));
    apply (bool_decide_unpack _); vm_compute; exact I.
Defined.

(** X7. For a group that is not a shade map and whose name is not one that
    every object inherits, the shade is ignored: a single-colour group
    resolves to its colour, or to the fixed default colour when the colour
    is the empty string, and a group the theme does not have resolves to
    the fixed default colour, whatever follows the group name. *)
Theorem getColor_shade_ignored (tk : Tokens) (theme g rest : jsstring)
  (themeColors : gmap jsstring ColorGroup) :
  47 ∉ g →
  inherited g = false →
  colors tk !! resolvedThemeOf tk theme = Some themeColors →
  (∀ group, themeColors !! g ≠ Some (Shades group)) →
  getColor tk theme (g ++ 47 :: rest) = getColor tk theme g
  ∧ getColor tk theme g
    = Some (Text match themeColors !! g with
                 | Some (Single c) => if truthy c then c else DEFAULT_COLOR
                 | _ => DEFAULT_COLOR
                 end).
Proof.
  intros Hg Hown Htheme Hsingle.
  assert (Hname : ∀ rest', groupNameOf (g ++ 47 :: rest') = g).
  { intros rest'. unfold groupNameOf. by rewrite (split_app 47 g). }
  assert (Hbare : groupNameOf g = g).
  { unfold groupNameOf. by rewrite (split_free 47 g). }
  assert (Hval : ∀ token, groupNameOf token = g →
            getColor tk theme token
            = Some (Text match themeColors !! g with
                         | Some (Single c) => if truthy c then c else DEFAULT_COLOR
                         | _ => DEFAULT_COLOR
                         end)).
  { intros token Htok. unfold getColor.
    fold (resolvedThemeOf tk theme) (groupNameOf token). rewrite Htheme, Htok, Hown.
    destruct (themeColors !! g) as [[c|group]|] eqn:E; [| |reflexivity].
    - by destruct (truthy c).
    - by destruct (Hsingle group). }
  split; [|by apply Hval]. by rewrite !Hval.
Qed.

Lemma getColor_shade_ignored_witness :
  getColor sampleTokens (str "light") (str "surface/500")
  = getColor sampleTokens (str "light") (str "surface")
  ∧ getColor sampleTokens (str "light") (str "surface")
    = Some (Text match sampleLight !! str "surface" with
                 | Some (Single c) => if truthy c then c else DEFAULT_COLOR
                 | _ => DEFAULT_COLOR
                 end).
Proof.
  apply (getColor_shade_ignored sampleTokens (str "light") (str "surface") (str "500") sampleLight).
  - apply (bool_decide_unpack _); vm_compute; exact I.
  - vm_compute. reflexivity.
  - reflexivity.
  - intros group. vm_compute. discriminate.
Defined.

(** ** [parseGeminiJson]: the text handed to [JSON.parse] *)

Lemma close_brace_after (before rest b i a : jsstring) :
  123 ∉ before →
  before ++ 123 :: rest = b ++ [123] ++ i ++ [125] ++ a → 125 ∈ rest.
Proof.
  revert b. induction before as [|y before IH]; intros b Hnot Heq.
  - destruct b as [|x b]; simpl in Heq.
    + injection Heq as ->. set_solver.
    + injection Heq as _ ->. set_solver.
  - apply not_elem_of_cons in Hnot as [Hy Hnot].
    destruct b as [|x b]; simpl in Heq.
    + injection Heq as Hy' _. by destruct Hy.
    + injection Heq as _ Heq. by apply (IH b).
Qed.

Lemma brace_dichotomy (s : jsstring) :
  no_brace_region s ∨ ∃ region, brace_region s region.
Proof.
  destruct (decide (123 ∈ s)) as [Hopen|Hopen];
    [|left; by apply no_open_brace_no_region].
  apply list_elem_of_split_l in Hopen as (before & rest & -> & Hbefore).
  destruct (decide (125 ∈ rest)) as [Hclose|Hclose].
  - apply list_elem_of_split_r in Hclose as (inside & after & -> & Hafter).
    right. exists ([123] ++ inside ++ [125]), before, inside, after.
    repeat split; try done. by rewrite <- !app_assoc.
  - left. intros (b & i & a & Heq). apply Hclose.
    by apply (close_brace_after before rest b i a).
Qed.

(** X8. [parseGeminiJson] on any text: a text without a [{] that has a
    [}] after it is rejected as not being JSON; every other text has
    exactly one region running from its first [{] to its last [}], and the
    outcome is what [JSON.parse] makes of that region, the text around it
    being dropped. *)
Theorem parseGeminiJson_region (JSON_parse : jsstring → option GeminiSiteContent)
  (rawText : jsstring) :
  (no_brace_region rawText
   ∧ parseGeminiJson JSON_parse rawText = Throw (Error MSG_NO_JSON))
  ∨ (∃ region,
       brace_region rawText region
       ∧ (∀ region', brace_region rawText region' → region' = region)
       ∧ parseGeminiJson JSON_parse rawText
         = match JSON_parse region with
           | Some content => Ok content
           | None => Throw (Error MSG_PARSE_FAILED)
           end).
Proof.
  destruct (brace_dichotomy rawText) as [Hnone|[region Hregion]].
  - left. split; [exact Hnone|]. by apply parseGeminiJson_no_region.
  - right. exists region. split; [exact Hregion|]. split.
    + intros region' Hregion'.
      apply search_brace_region in Hregion, Hregion'. congruence.
    + unfold parseGeminiJson. by rewrite (search_brace_region _ _ Hregion).
Qed.

(** ** The content engine: what it leaves alone *)

Lemma blanked_unfold (n : Node) :
  blanked n = mkNode (node_id n) (node_type n) (layoutMode n) (name n) true []
                (fontName n) (map blanked (children n)).
Proof. by destruct n. Qed.

Lemma blanked_update (f : Node → Node) (q : path) :
  (∀ m, blanked (f m) = blanked m) → ∀ n, blanked (update q f n) = blanked n.
Proof.
  intros Hf. induction q as [|i q IH]; intros n; simpl; [apply Hf|].
  rewrite !blanked_unfold. destruct n as [a t lm nm v c fn kids]. simpl. f_equal.
  apply list_eq. intros j. rewrite !list_lookup_fmap.
  destruct (decide (i = j)) as [<-|Hne].
  - rewrite list_lookup_alter_eq. destruct (kids !! i); simpl; [|done].
    by rewrite IH.
  - by rewrite list_lookup_alter_ne.
Qed.

Lemma blanked_skeleton (n1 n2 : Node) : blanked n1 = blanked n2 → skeleton n1 = skeleton n2.
Proof.
  revert n2. induction n1 as [n1 IH] using Node_ind'. intros n2 H.
  rewrite !blanked_unfold in H. rewrite !skeleton_unfold.
  injection H as _ Ht _ Hn _ Hk. f_equal; [done..|].
  revert Hk IH. generalize (children n1), (children n2). clear.
  induction l as [|x l IHl]; intros [|y k] Hk Hall; try discriminate; [reflexivity|].
  simpl in Hk. injection Hk as Hx Hk.
  apply Forall_cons in Hall as [Hx' Hall]. simpl. f_equal; auto.
Qed.

Lemma runOp_blanked (op : Op) (root : Node) : blanked (runOp op root) = blanked root.
Proof.
  assert (Ht : ∀ q value t, blanked (assignText q value t) = blanked t).
  { intros [q|] [| |s] t; simpl; try reflexivity.
    apply blanked_update. by intros []. }
  assert (Hv : ∀ q v t, blanked (assignVisible q v t) = blanked t).
  { intros [q|] v t; simpl; try reflexivity.
    apply blanked_update. by intros []. }
  destruct op as [anchor value|rowName textName entry]; simpl; [apply Ht|].
  destruct (provided entry), (textAnchor textName root); by rewrite ?Hv, ?Ht.
Qed.

Lemma runPlan_blanked (ops : list Op) (root : Node) :
  blanked (runPlan ops root) = blanked root.
Proof.
  revert root. induction ops as [|op ops IH]; intros root; [reflexivity|].
  rewrite runPlan_cons, IH. apply runOp_blanked.
Qed.

Lemma quiet_ret {A} (a : A) : quiet (mret a).
Proof. intros w. exists []. rewrite app_nil_r. repeat split; [constructor | simpl; lia]. Qed.

Lemma quiet_throw {A} (e : Exn) : quiet (@throw A e).
Proof. intros w. exists []. rewrite app_nil_r. repeat split; [constructor | simpl; lia]. Qed.

Lemma quiet_bind {A B} (m : M A) (f : A → M B) :
  quiet m → (∀ a, quiet (f a)) → quiet (m ≫= f).
Proof.
  intros Hm Hf w. unfold mbind, M_bind.
  destruct (Hm w) as (ev1 & Hlog1 & Hev1 & Hid1).
  destruct (m w) as [[a|e] w1]; simpl in *.
  - destruct (Hf a w1) as (ev2 & Hlog2 & Hev2 & Hid2).
    exists (ev1 ++ ev2). rewrite Hlog2, Hlog1, app_assoc.
    repeat split; [by apply Forall_app | lia].
  - exists ev1. repeat split; assumption.
Qed.

Lemma quiet_loadFontAsync (font : FontName) : quiet (loadFontAsync font).
Proof.
  intros w. exists [LoadFont font]. simpl.
  repeat split; [by repeat constructor | lia].
Qed.

Lemma quiet_createNode (t : NodeType) : quiet (createNode t).
Proof.
  intros w. exists []. simpl. rewrite app_nil_r.
  repeat split; [constructor | lia].
Qed.

Lemma quiet_forM {A B} (items : list A) (body : B → A → M B) :
  (∀ b x, quiet (body b x)) → ∀ b, quiet (forM items b body).
Proof.
  intros Hbody. induction items as [|x items IH]; intros b; simpl.
  - apply quiet_ret.
  - apply quiet_bind; [apply Hbody | apply IH].
Qed.

Lemma quiet_mutate (ref : NodeRef) (f : Node → Node) : quiet (mutate ref f).
Proof.
  intros w. exists []. simpl. rewrite app_nil_r.
  repeat split; [constructor | lia].
Qed.

Lemma quiet_findOneIn (landing : nat) (p : Node → bool) : quiet (findOneIn landing p).
Proof.
  intros w. exists []. unfold findOneIn. rewrite app_nil_r.
  destruct (page w !! landing); simpl; repeat split; try constructor; lia.
Qed.

Lemma quiet_readNode (ref : NodeRef) : quiet (readNode ref).
Proof.
  intros w. exists []. simpl. rewrite app_nil_r.
  repeat split; [constructor | lia].
Qed.

Create HintDb quietly discriminated.
#[local] Hint Resolve quiet_loadFontAsync quiet_createNode quiet_mutate quiet_findOneIn
  quiet_readNode : quietly.

(** One step through the body of a computation. *)
Ltac quiet_step :=
  cbv beta zeta;
  lazymatch goal with
  | |- quiet (mret _) => apply quiet_ret
  | |- quiet (throw _) => apply quiet_throw
  | |- quiet (forM _ _ _) => apply quiet_forM; intros ? ?
  | |- quiet (_ ≫= _) => apply quiet_bind; [|intros ?]
  | |- quiet (let '(_, _) := ?x in _) => destruct x
  | |- quiet (match ?x with _ => _ end) => destruct x
  | |- quiet _ => solve [eauto 10 with quietly]
  end.

Ltac quiet_auto := repeat quiet_step.

Lemma quiet_setText (node : option NodeRef) (value : optional jsstring) :
  quiet (setText node value).
Proof. unfold setText, findText. quiet_auto. Qed.

Lemma quiet_findText (root : nat) (anchor : jsstring) : quiet (findText root anchor).
Proof. apply quiet_findOneIn. Qed.
#[local] Hint Resolve quiet_setText quiet_findText : quietly.

Lemma quiet_applyRow (landing : nat) (rowName textName : jsstring)
  (entry : optional jsstring) :
  quiet (applyRow landing rowName textName entry).
Proof. unfold applyRow. quiet_auto. Qed.
#[local] Hint Resolve quiet_applyRow : quietly.

Lemma quiet_applyGeminiContent (landing : nat) (content : GeminiSiteContent) :
  quiet (applyGeminiContent landing content).
Proof. unfold applyGeminiContent. quiet_auto. Qed.

Lemma applyGeminiContent_run (landing : nat) (content : GeminiSiteContent)
  (w : World) (root : Node) :
  page w !! landing = Some root →
  ∃ events,
    applyGeminiContent landing content w
    = (Ok tt, mkWorld (nextId w) (<[landing := runPlan (plan content) root]> (page w))
                (log w ++ events))
    ∧ font_loads events.
Proof.
  intros Hroot.
  destruct (applyGeminiContent_tracks landing content w root Hroot) as (events & Hrun).
  exists events. split; [exact Hrun|].
  destruct (quiet_applyGeminiContent landing content w) as (events' & Hlog & Hfont & _).
  rewrite Hrun in Hlog. simpl in Hlog. apply app_inv_head in Hlog. by subst.
Qed.

(** X9. On a frame of the page, [applyGeminiContent] never throws, whatever
    fields the payload has or lacks and whatever the frame looks like.  It replaces that
    one entry of the page and no other, creates no node and adds nothing to
    the log but font loads; in the frame it changes text bodies and
    visibility only: identities, types, names, layout, fonts and the tree
    structure stay. *)
Theorem applyGeminiContent_frame (landing : nat) (content : GeminiSiteContent)
  (w : World) (root : Node) :
  page w !! landing = Some root →
  ∃ root' events,
    applyGeminiContent landing content w
    = (Ok tt, mkWorld (nextId w) (<[landing := root']> (page w)) (log w ++ events))
    ∧ font_loads events
    ∧ blanked root' = blanked root
    ∧ skeleton root' = skeleton root
    ∧ (∀ k, k ≠ landing → <[landing := root']> (page w) !! k = page w !! k).
Proof.
  intros Hroot.
  destruct (applyGeminiContent_run landing content w root Hroot) as (events & Hrun & Hfont).
  exists (runPlan (plan content) root), events.
  split; [exact Hrun|]. split; [exact Hfont|].
  split; [apply runPlan_blanked|]. split; [apply runPlan_skeleton|].
  intros k Hk. by apply list_lookup_insert_ne.
Qed.

Lemma applyGeminiContent_frame_witness :
  ∃ root' events,
    applyGeminiContent 0 payloadAB builtWorld
    = (Ok tt, mkWorld (nextId builtWorld) (<[0%nat := root']> (page builtWorld))
                (log builtWorld ++ events))
    ∧ font_loads events
    ∧ blanked root' = blanked builtRoot
    ∧ skeleton root' = skeleton builtRoot
    ∧ (∀ k, k ≠ 0%nat → <[0%nat := root']> (page builtWorld) !! k = page builtWorld !! k).
Proof.
  apply (applyGeminiContent_frame 0 payloadAB builtWorld builtRoot).
  vm_compute. reflexivity.
Defined.

Lemma not_text_target (ops : list Op) (root : Node) (q : path) :
  ¬ text_target ops root q →
  Forall (fun op => textAnchor (op_text_name op) root ≠ Some q) ops.
Proof.
  intros Hnot. apply Forall_forall. intros op Hop Hq. apply Hnot. by exists op.
Qed.

Lemma not_row_target (ops : list Op) (root : Node) (q : path) :
  ¬ row_target ops root q →
  Forall (fun op => ∀ rn, op_row_name op = Some rn → namedNode rn root ≠ Some q) ops.
Proof.
  intros Hnot. apply Forall_forall. intros op Hop rn Hrn Hq. apply Hnot.
  by exists op, rn.
Qed.

Lemma text_target_dec (ops : list Op) (root : Node) (q : path) :
  text_target ops root q ∨ ¬ text_target ops root q.
Proof.
  destruct (decide (Exists (fun op => textAnchor (op_text_name op) root = Some q) ops))
    as [Hex|Hex].
  - left. apply Exists_exists in Hex as (op & Hop & Hq). by exists op.
  - right. intros (op & Hop & Hq). apply Hex, Exists_exists. by exists op.
Qed.

Lemma row_target_dec (ops : list Op) (root : Node) (q : path) :
  row_target ops root q ∨ ¬ row_target ops root q.
Proof.
  destruct (decide (Exists (fun op => match op_row_name op with
                                      | Some rn => bool_decide (namedNode rn root = Some q)
                                      | None => false
                                      end = true) ops))
    as [Hex|Hex].
  - left. apply Exists_exists in Hex as (op & Hop & Hq).
    destruct (op_row_name op) as [rn|] eqn:Hrn; [|discriminate].
    apply bool_decide_eq_true in Hq. by exists op, rn.
  - right. intros (op & rn & Hop & Hrn & Hq). apply Hex, Exists_exists.
    exists op. split; [done|]. rewrite Hrn. by apply bool_decide_eq_true.
Qed.

(** X10. The content engine writes at the nodes its look-ups return and
    nowhere else: a node that is the first text node of no anchor name of
    the plan keeps its text body, and a node that is the first node of no
    row name keeps its visibility.  In particular, of two nodes with the
    same anchor name only the first in document order is ever written, and
    a node whose name is none of the names of the plan is never written. *)
Theorem content_writes_targets_only (w : World) (landing : nat) (root : Node)
  (content : GeminiSiteContent) :
  page w !! landing = Some root →
  ∃ root',
    page (applied landing content w) !! landing = Some root'
    ∧ (∀ q, ¬ text_target (plan content) root q → text_at q root' = text_at q root)
    ∧ (∀ q, ¬ row_target (plan content) root q → visible_at q root' = visible_at q root)
    ∧ (∀ q m anchor first,
         node_at q root = Some m → name m = Some anchor →
         textAnchor anchor root = Some first → first ≠ q →
         text_at q root' = Some (characters m))
    ∧ (∀ q m anchor first,
         node_at q root = Some m → name m = Some anchor →
         namedNode anchor root = Some first → first ≠ q →
         visible_at q root' = Some (visible m))
    ∧ (∀ q m,
         node_at q root = Some m →
         (∀ op, op ∈ plan content → name m ≠ Some (op_text_name op)) →
         text_at q root' = Some (characters m))
    ∧ (∀ q m,
         node_at q root = Some m →
         (∀ op rowName, op ∈ plan content → op_row_name op = Some rowName →
                        name m ≠ Some rowName) →
         visible_at q root' = Some (visible m)).
Proof.
  intros Hroot. exists (runPlan (plan content) root).
  split; [by apply applied_root|].
  assert (Htext : ∀ q, ¬ text_target (plan content) root q →
            text_at q (runPlan (plan content) root) = text_at q root).
  { intros q Hq. apply (runPlan_text_untouched _ root); [reflexivity|].
    by apply not_text_target. }
  assert (Hrow : ∀ q, ¬ row_target (plan content) root q →
            visible_at q (runPlan (plan content) root) = visible_at q root).
  { intros q Hq. apply (runPlan_visible_untouched _ root); [reflexivity|].
    by apply not_row_target. }
  split; [exact Htext|]. split; [exact Hrow|]. split; [|split; [|split]].
  - intros q m anchor first Hm Hname Hfirst Hne.
    rewrite Htext; [unfold text_at; by rewrite Hm|].
    intros (op & _ & Hq).
    destruct (textAnchor_name _ _ _ Hq) as (m' & Hm' & Hname' & _).
    rewrite Hm in Hm'. injection Hm' as <-. congruence.
  - intros q m anchor first Hm Hname Hfirst Hne.
    rewrite Hrow; [unfold visible_at; by rewrite Hm|].
    intros (op & rn & _ & _ & Hq).
    destruct (namedNode_name _ _ _ Hq) as (m' & Hm' & Hname').
    rewrite Hm in Hm'. injection Hm' as <-. congruence.
  - intros q m Hm Hnone.
    rewrite Htext; [unfold text_at; by rewrite Hm|].
    intros (op & Hop & Hq).
    destruct (textAnchor_name _ _ _ Hq) as (m' & Hm' & Hname' & _).
    rewrite Hm in Hm'. injection Hm' as <-. by apply (Hnone op).
  - intros q m Hm Hnone.
    rewrite Hrow; [unfold visible_at; by rewrite Hm|].
    intros (op & rn & Hop & Hrn & Hq).
    destruct (namedNode_name _ _ _ Hq) as (m' & Hm' & Hname').
    rewrite Hm in Hm'. injection Hm' as <-. by apply (Hnone op rn).
Qed.

Lemma content_writes_targets_only_witness :
  ∃ root',
    page (applied 0 payloadAB builtWorld) !! 0%nat = Some root'
    ∧ (∀ q, ¬ text_target (plan payloadAB) builtRoot q →
            text_at q root' = text_at q builtRoot)
    ∧ (∀ q, ¬ row_target (plan payloadAB) builtRoot q →
            visible_at q root' = visible_at q builtRoot)
    ∧ (∀ q m anchor first,
         node_at q builtRoot = Some m → name m = Some anchor →
         textAnchor anchor builtRoot = Some first → first ≠ q →
         text_at q root' = Some (characters m))
    ∧ (∀ q m anchor first,
         node_at q builtRoot = Some m → name m = Some anchor →
         namedNode anchor builtRoot = Some first → first ≠ q →
         visible_at q root' = Some (visible m))
    ∧ (∀ q m,
         node_at q builtRoot = Some m →
         (∀ op, op ∈ plan payloadAB → name m ≠ Some (op_text_name op)) →
         text_at q root' = Some (characters m))
    ∧ (∀ q m,
         node_at q builtRoot = Some m →
         (∀ op rowName, op ∈ plan payloadAB → op_row_name op = Some rowName →
                        name m ≠ Some rowName) →
         visible_at q root' = Some (visible m)).
Proof.
  apply (content_writes_targets_only builtWorld 0 builtRoot payloadAB).
  vm_compute. reflexivity.
Defined.

Lemma node_ext (n1 : Node) :
  ∀ n2, blanked n1 = blanked n2 →
        (∀ q, text_at q n1 = text_at q n2) →
        (∀ q, visible_at q n1 = visible_at q n2) → n1 = n2.
Proof.
  induction n1 as [n1 IH] using Node_ind'. intros n2 Hb Ht Hv.
  destruct n1 as [i1 t1 lm1 nm1 v1 c1 f1 kids1], n2 as [i2 t2 lm2 nm2 v2 c2 f2 kids2].
  simpl in Hb. injection Hb as -> -> -> -> -> Hk.
  pose proof (Ht []) as Hc. pose proof (Hv []) as Hvis.
  unfold text_at, visible_at in Hc, Hvis. simpl in Hc, Hvis.
  injection Hc as ->. injection Hvis as ->. f_equal.
  simpl in IH. apply list_eq. intros j.
  pose proof (f_equal (fun l => l !! j) Hk) as Hj. simpl in Hj.
  rewrite !list_lookup_fmap in Hj.
  destruct (kids1 !! j) as [x|] eqn:Hx, (kids2 !! j) as [y|] eqn:Hy;
    simpl in Hj; try discriminate; [|reflexivity].
  injection Hj as Hxy. f_equal.
  apply (Forall_lookup_1 _ _ _ _ IH Hx); [exact Hxy| |].
  - intros q. specialize (Ht (j :: q)). unfold text_at in *. simpl in Ht.
    by rewrite Hx, Hy in Ht.
  - intros q. specialize (Hv (j :: q)). unfold visible_at in *. simpl in Hv.
    by rewrite Hx, Hy in Hv.
Qed.

Lemma runPlan_twice (content : GeminiSiteContent) (root : Node) :
  runPlan (plan content) (runPlan (plan content) root) = runPlan (plan content) root.
Proof.
  set (ops := plan content). set (root' := runPlan ops root).
  assert (Hsk : skeleton root' = skeleton root) by apply runPlan_skeleton.
  apply node_ext; [apply runPlan_blanked| |].
  - intros q. destruct (text_target_dec ops root q) as [(op & Hop & Hq)|Hnot].
    + assert (Hq' : textAnchor (op_text_name op) root' = Some q)
        by (by rewrite (textAnchor_skeleton _ root' root)).
      rewrite (runPlan_text_at ops root' op q (plan_text_names_distinct content) Hop Hq').
      unfold root'.
      rewrite (runPlan_text_at ops root op q (plan_text_names_distinct content) Hop Hq).
      by destruct (op_text_value op).
    + apply (runPlan_text_untouched _ root); [exact Hsk|]. by apply not_text_target.
  - intros q.
    destruct (row_target_dec ops root q) as [(op & rn & Hop & Hrn & Hq)|Hnot].
    + destruct op as [anchor value|rowName textName entry]; [discriminate|].
      injection Hrn as ->.
      assert (Hq' : namedNode rn root' = Some q)
        by (by rewrite (namedNode_skeleton _ root' root)).
      rewrite (runPlan_visible_at ops root' rn textName entry q
                 (plan_row_names_distinct content) Hop Hq').
      unfold root'.
      rewrite (runPlan_visible_at ops root rn textName entry q
                 (plan_row_names_distinct content) Hop Hq).
      by rewrite (textAnchor_skeleton _ (runPlan ops root) root).
    + apply (runPlan_visible_untouched _ root); [exact Hsk|]. by apply not_row_target.
Qed.

(** X11. Applying a payload to a frame a second time changes nothing: the
    page after the second application is the page after the first. *)
Theorem applyGeminiContent_idempotent (w : World) (landing : nat) (root : Node)
  (content : GeminiSiteContent) :
  page w !! landing = Some root →
  page (applied landing content (applied landing content w))
  = page (applied landing content w).
Proof.
  intros Hroot. unfold applied.
  destruct (applyGeminiContent_run landing content w root Hroot) as (ev1 & Hrun1 & _).
  rewrite Hrun1. cbn [snd].
  set (w1 := mkWorld _ _ _).
  assert (Hroot1 : page w1 !! landing = Some (runPlan (plan content) root)).
  { unfold w1. cbn [page]. apply list_lookup_insert_eq. by eapply lookup_lt_Some. }
  destruct (applyGeminiContent_run landing content w1 _ Hroot1) as (ev2 & Hrun2 & _).
  rewrite Hrun2. unfold w1. cbn [snd page].
  by rewrite runPlan_twice, list_insert_insert_eq.
Qed.

Lemma applyGeminiContent_idempotent_witness :
  page (applied 0 payloadAB (applied 0 payloadAB builtWorld))
  = page (applied 0 payloadAB builtWorld).
Proof.
  apply (applyGeminiContent_idempotent builtWorld 0 builtRoot payloadAB).
  vm_compute. reflexivity.
Defined.

(** ** The orchestrator: failures of the request *)

Lemma request_throws_reported (tk : Tokens) (key model : option jsstring)
  (fetch : Request → FetchOutcome) (JSON_parse : jsstring → option GeminiSiteContent)
  (prompt : Unknown) (e : Exn) (w : World) :
  promptRejected prompt = false →
  truthy (default [] key) = true →
  (∀ w0, requestGeminiContent key model fetch JSON_parse (trim (promptText prompt)) w0
         = (Throw e,
            mkWorld (nextId w0) (page w0)
              (log w0 ++ [Fetch (request_for key model (trim (promptText prompt)))]))) →
  handleGenerateAiSite tk key model fetch JSON_parse prompt w
  = (Ok tt,
     mkWorld (nextId w) (page w)
       (log w ++ rejectedRunEvents (request_for key model (trim (promptText prompt))) e)).
Proof.
  intros Hprompt Hkey Hreq. unfold handleGenerateAiSite.
  rewrite Hprompt. unfold GEMINI_API_KEY at 1. rewrite Hkey. cbn [negb].
  unfold try_catch, mbind, M_bind, postStatus, notify, emit. cbn [nextId page log].
  rewrite Hreq. cbn [nextId page log].
  unfold rejectedRunEvents, reportedMessage. by rewrite <- !app_assoc.
Qed.

Lemma requestGeminiContent_outcome (key model : option jsstring)
  (fetch : Request → FetchOutcome) (JSON_parse : jsstring → option GeminiSiteContent)
  (userPrompt : jsstring) (e : Exn) (w : World) :
  match fetch (request_for key model userPrompt) with
  | FetchRejects e' => e = e'
  | HttpFailure statusText errorMessage =>
      e = Error (default (str "Gemini API error: " ++ statusText) errorMessage)
  | HttpSuccess (Throw e') => e = e'
  | HttpSuccess (Ok _) => False
  end →
  requestGeminiContent key model fetch JSON_parse userPrompt w
  = (Throw e,
     mkWorld (nextId w) (page w) (log w ++ [Fetch (request_for key model userPrompt)])).
Proof.
  intros H. unfold requestGeminiContent. fold (request_for key model userPrompt).
  unfold mbind, M_bind, emit, throw.
  destruct (fetch (request_for key model userPrompt)) as [e'|st em|[data|e']];
    try subst; try done.
Qed.

(** X12. A request that does not complete, or a response whose body cannot
    be read, ends the run without touching the canvas: the status goes
    from loading to error, the UI is shown the message of the exception, or
    a fixed text when what was thrown is no [Error], the exception itself
    goes to the console, and nothing is built. *)
Theorem transport_failure_reported (tk : Tokens) (key model : option jsstring)
  (fetch : Request → FetchOutcome) (JSON_parse : jsstring → option GeminiSiteContent)
  (prompt : Unknown) (e : Exn) (w : World) :
  promptRejected prompt = false →
  truthy (default [] key) = true →
  fetch (request_for key model (trim (promptText prompt))) = FetchRejects e
  ∨ fetch (request_for key model (trim (promptText prompt))) = HttpSuccess (Throw e) →
  handleGenerateAiSite tk key model fetch JSON_parse prompt w
  = (Ok tt,
     mkWorld (nextId w) (page w)
       (log w ++ rejectedRunEvents (request_for key model (trim (promptText prompt))) e))
  ∧ statuses (rejectedRunEvents (request_for key model (trim (promptText prompt))) e)
    = [loading; error].
Proof.
  intros Hprompt Hkey Hfetch. split; [|reflexivity].
  apply request_throws_reported; [done..|].
  intros w0. apply requestGeminiContent_outcome.
  by destruct Hfetch as [-> | ->].
Qed.

Lemma transport_failure_reported_witness :
  handleGenerateAiSite sampleTokens (Some (str "key")) None
    (unreachable NonError) rejecting (UString (str " landing page ")) builtWorld
  = (Ok tt,
     mkWorld (nextId builtWorld) (page builtWorld)
       (log builtWorld
        ++ rejectedRunEvents (request_for (Some (str "key")) None (str "landing page"))
             NonError))
  ∧ statuses (rejectedRunEvents (request_for (Some (str "key")) None (str "landing page"))
                NonError)
    = [loading; error].
Proof.
  apply (transport_failure_reported sampleTokens (Some (str "key")) None
           (unreachable NonError) rejecting (UString (str " landing page ")) NonError
           builtWorld).
  - reflexivity.
  - reflexivity.
  - left. reflexivity.
Defined.

(** X13. An HTTP error response ends the run the same way, and the text
    shown is the provider's own [error.message] when the error body carries
    one, and [Gemini API error: ] followed by the status text otherwise. *)
Theorem http_failure_reported (tk : Tokens) (key model : option jsstring)
  (fetch : Request → FetchOutcome) (JSON_parse : jsstring → option GeminiSiteContent)
  (prompt : Unknown) (statusText : jsstring) (errorMessage : option jsstring)
  (w : World) :
  promptRejected prompt = false →
  truthy (default [] key) = true →
  fetch (request_for key model (trim (promptText prompt)))
    = HttpFailure statusText errorMessage →
  handleGenerateAiSite tk key model fetch JSON_parse prompt w
  = (Ok tt,
     mkWorld (nextId w) (page w)
       (log w ++ failedRunEvents (request_for key model (trim (promptText prompt)))
                   match errorMessage with
                   | Some message => message
                   | None => str "Gemini API error: " ++ statusText
                   end)).
Proof.
  intros Hprompt Hkey Hfetch.
  rewrite (request_throws_reported tk key model fetch JSON_parse prompt
             (Error (default (str "Gemini API error: " ++ statusText) errorMessage)) w
             Hprompt Hkey).
  - by destruct errorMessage.
  - intros w0. apply requestGeminiContent_outcome. by rewrite Hfetch.
Qed.

Lemma http_failure_reported_witness :
  handleGenerateAiSite sampleTokens (Some (str "key")) None
    (refusing (str "Too Many Requests") None) rejecting (UString (str "landing page"))
    builtWorld
  = (Ok tt,
     mkWorld (nextId builtWorld) (page builtWorld)
       (log builtWorld
        ++ failedRunEvents (request_for (Some (str "key")) None (str "landing page"))
             (str "Gemini API error: " ++ str "Too Many Requests"))).
Proof.
  apply (http_failure_reported sampleTokens (Some (str "key")) None
           (refusing (str "Too Many Requests") None) rejecting
           (UString (str "landing page")) (str "Too Many Requests") None builtWorld);
    reflexivity.
Defined.

(** ** The builders: what they add to the log *)

Section BuilderQuiet.

Variable tk : Tokens.

Lemma quiet_createFrame : quiet createFrame.
Proof. apply quiet_createNode. Qed.
Lemma quiet_createText : quiet createText.
Proof. apply quiet_createNode. Qed.
Lemma quiet_createRectangle : quiet createRectangle.
Proof. apply quiet_createNode. Qed.
Lemma quiet_createEllipse : quiet createEllipse.
Proof. apply quiet_createNode. Qed.
#[local] Hint Resolve quiet_createFrame quiet_createText quiet_createRectangle
  quiet_createEllipse : quietly.

Lemma quiet_paint (token : jsstring) : quiet (paint tk token).
Proof.
  unfold paint. destruct (getColor tk DEFAULT_THEME token) as [[hex|key|]|];
    first [apply quiet_ret | apply quiet_throw].
Qed.
#[local] Hint Resolve quiet_paint : quietly.

Lemma quiet_applyTextStyle (n : Node) (variant : TypographyVariant) :
  quiet (applyTextStyle tk n variant).
Proof. unfold applyTextStyle. quiet_auto. Qed.
#[local] Hint Resolve quiet_applyTextStyle : quietly.

Lemma quiet_createTextNode (content : jsstring) (variant : TypographyVariant)
  (fillToken : option jsstring) :
  quiet (createTextNode tk content variant fillToken).
Proof. unfold createTextNode. quiet_auto. Qed.

Lemma quiet_createAutoLayout (direction : LayoutMode) : quiet (createAutoLayout direction).
Proof. unfold createAutoLayout. quiet_auto. Qed.
#[local] Hint Resolve quiet_createTextNode quiet_createAutoLayout : quietly.

Lemma quiet_createButton (label : jsstring) (variant : ButtonVariant) :
  quiet (createButton tk label variant).
Proof. unfold createButton. quiet_auto. Qed.

Lemma quiet_createMetricCard (index : nat) (value label accent : jsstring) :
  quiet (createMetricCard tk index value label accent).
Proof. unfold createMetricCard. quiet_auto. Qed.
#[local] Hint Resolve quiet_createButton quiet_createMetricCard : quietly.

Lemma quiet_createHeroVisualHeader : quiet (createHeroVisualHeader tk).
Proof. unfold createHeroVisualHeader. quiet_auto. Qed.
Lemma quiet_createHeroVisualToolbar : quiet (createHeroVisualToolbar tk).
Proof. unfold createHeroVisualToolbar. quiet_auto. Qed.
Lemma quiet_createHeroVisualMainCard : quiet (createHeroVisualMainCard tk).
Proof. unfold createHeroVisualMainCard. quiet_auto. Qed.
Lemma quiet_createHeroVisualSidebar : quiet (createHeroVisualSidebar tk).
Proof. unfold createHeroVisualSidebar. quiet_auto. Qed.
Lemma quiet_createHeroVisualReviewRow : quiet (createHeroVisualReviewRow tk).
Proof. unfold createHeroVisualReviewRow. quiet_auto. Qed.
#[local] Hint Resolve quiet_createHeroVisualHeader quiet_createHeroVisualToolbar
  quiet_createHeroVisualMainCard quiet_createHeroVisualSidebar
  quiet_createHeroVisualReviewRow : quietly.

Lemma quiet_createHeroVisualContent : quiet (createHeroVisualContent tk).
Proof. unfold createHeroVisualContent. quiet_auto. Qed.
#[local] Hint Resolve quiet_createHeroVisualContent : quietly.

Lemma quiet_createHeroVisualBody : quiet (createHeroVisualBody tk).
Proof. unfold createHeroVisualBody. quiet_auto. Qed.
Lemma quiet_createHeroVisualStats : quiet (createHeroVisualStats tk).
Proof. unfold createHeroVisualStats. quiet_auto. Qed.
#[local] Hint Resolve quiet_createHeroVisualBody quiet_createHeroVisualStats : quietly.

Lemma quiet_createHeroVisual : quiet (createHeroVisual tk).
Proof. unfold createHeroVisual. quiet_auto. Qed.
#[local] Hint Resolve quiet_createHeroVisual : quietly.

Lemma quiet_createHeroSection : quiet (createHeroSection tk).
Proof. unfold createHeroSection. quiet_auto. Qed.

Lemma quiet_createTestimonialCopyColumn : quiet (createTestimonialCopyColumn tk).
Proof. unfold createTestimonialCopyColumn. quiet_auto. Qed.

Lemma quiet_buildTestimonialCard (data : Testimonial) : quiet (buildTestimonialCard tk data).
Proof. unfold buildTestimonialCard. quiet_auto. Qed.
#[local] Hint Resolve quiet_createTestimonialCopyColumn quiet_buildTestimonialCard : quietly.

Lemma quiet_createTestimonialCards : quiet (createTestimonialCards tk).
Proof. unfold createTestimonialCards. quiet_auto. Qed.
#[local] Hint Resolve quiet_createTestimonialCards : quietly.

Lemma quiet_createTestimonialSection : quiet (createTestimonialSection tk).
Proof. unfold createTestimonialSection. quiet_auto. Qed.

Lemma quiet_createCTASection : quiet (createCTASection tk).
Proof. unfold createCTASection. quiet_auto. Qed.
#[local] Hint Resolve quiet_createHeroSection quiet_createTestimonialSection
  quiet_createCTASection : quietly.

Lemma quiet_buildLanding : quiet (buildLanding tk).
Proof. unfold buildLanding. quiet_auto. Qed.

End BuilderQuiet.

(** ** The builders: what does not depend on the schema *)

Lemma plain_unfold (n : Node) :
  plain n = mkNode 0 (node_type n) (layoutMode n) (name n) (visible n) (characters n)
              (Uniform HOST_DEFAULT_FONT) (map plain (children n)).
Proof. by destruct n. Qed.

Lemma sim_emit_any (P : Prop) (e1 e2 : Event) : sim P eq (emit e1) (emit e2).
Proof. intros w1 w2. unfold emit. auto. Qed.

Lemma design_createNode (P : Prop) (t : NodeType) :
  sim P same_design (createNode t) (createNode t).
Proof. intros w1 w2. unfold createNode. simpl. repeat split. Qed.

Lemma same_design_refl (n : Node) : same_design n n.
Proof. reflexivity. Qed.

Lemma same_design_set_name (s : jsstring) (n1 n2 : Node) :
  same_design n1 n2 → same_design (set_name s n1) (set_name s n2).
Proof. unfold same_design. destruct n1, n2; simpl. congruence. Qed.

Lemma same_design_set_characters (s : jsstring) (n1 n2 : Node) :
  same_design n1 n2 → same_design (set_characters s n1) (set_characters s n2).
Proof. unfold same_design. destruct n1, n2; simpl. congruence. Qed.

Lemma same_design_set_fontName (f1 f2 : FontSetting) (n1 n2 : Node) :
  same_design n1 n2 → same_design (set_fontName f1 n1) (set_fontName f2 n2).
Proof. unfold same_design. destruct n1, n2; simpl. congruence. Qed.

Lemma same_design_set_layoutMode (lm : LayoutMode) (n1 n2 : Node) :
  same_design n1 n2 → same_design (set_layoutMode lm n1) (set_layoutMode lm n2).
Proof. unfold same_design. destruct n1, n2; simpl. congruence. Qed.

Lemma same_design_appendChild (p1 p2 c1 c2 : Node) :
  same_design p1 p2 → same_design c1 c2 →
  same_design (appendChild p1 c1) (appendChild p2 c2).
Proof.
  unfold same_design. destruct p1, p2; simpl. rewrite !map_app. simpl.
  intros H1 H2. injection H1 as -> -> -> -> -> ->. by rewrite H2.
Qed.

Lemma skeleton_plain (n : Node) : skeleton (plain n) = skeleton n.
Proof.
  induction n as [n IH] using Node_ind'. destruct n as [i t lm nm v c f kids].
  simpl in *. f_equal. rewrite map_map. apply map_ext_Forall. exact IH.
Qed.

Lemma same_design_skeleton (n1 n2 : Node) : same_design n1 n2 → skeleton n1 = skeleton n2.
Proof.
  intros H. rewrite <- (skeleton_plain n1), <- (skeleton_plain n2). by rewrite H.
Qed.

Lemma plain_update (f : Node → Node) (q : path) :
  (∀ m, plain (f m) = f (plain m)) →
  ∀ n, plain (update q f n) = update q f (plain n).
Proof.
  intros Hf. induction q as [|i q IH]; intros n; simpl; [apply Hf|].
  destruct n as [a t lm nm v c fn kids]. unfold set_children. simpl. f_equal.
  apply (list_fmap_alter plain). apply Forall_forall. intros x _. apply IH.
Qed.

Lemma same_design_nameLabel (labelName : jsstring) (b1 b2 : Node) :
  same_design b1 b2 → same_design (nameLabel labelName b1) (nameLabel labelName b2).
Proof.
  intros H. unfold nameLabel.
  rewrite (findOne_skeleton (is_type TEXT) b1 b2).
  - destruct (findOne (is_type TEXT) b2) as [q|]; [|exact H].
    unfold same_design. rewrite !plain_update by (by intros []). by rewrite H.
  - intros n1 n2 Ht _. unfold is_type. by rewrite Ht.
  - by apply same_design_skeleton.
Qed.

Create HintDb design discriminated.
#[local] Hint Resolve same_design_refl same_design_set_name same_design_set_characters
  same_design_set_fontName same_design_set_layoutMode same_design_appendChild
  same_design_nameLabel : design.
#[local] Hint Resolve design_createNode sim_emit_any : design.

#[local] Hint Extern 1 (palette _ = true) =>
  first [assumption | vm_compute; reflexivity] : design.
#[local] Hint Extern 1 (palette_fill _ = true) =>
  first [assumption | vm_compute; reflexivity] : design.

(** One step of a builder against the same step under another schema; the
    loops, which run over literal arrays, are unrolled. *)
Ltac design_step :=
  unfold indexed; cbn [forM length seq zip_with]; cbv beta zeta;
  lazymatch goal with
  | |- sim _ _ (mret _) (mret _) => apply sim_ret; auto 40 with design
  | |- sim _ _ (forM _ _ _) (forM _ _ _) =>
      apply (sim_forM _ same_design); [intros ? ? ? ? | auto 40 with design]
  | |- sim _ _ (forM _ _ _ ≫= _) (forM _ _ _ ≫= _) =>
      eapply sim_bind;
        [apply (sim_forM _ same_design); [intros ? ? ? ? | auto 40 with design]
        | intros ? ? ?]
  | |- sim _ _ ((_ ≫= _) ≫= _) ((_ ≫= _) ≫= _) =>
      eapply (sim_bind _ same_design); [ | intros ? ? ?]
  | |- sim _ _ (_ ≫= _) (_ ≫= _) =>
      eapply sim_bind; [solve [eauto 40 with design] | intros ? ? ?]
  | |- sim _ _ (let '(_, _) := ?x in _) _ => destruct x
  end.

Ltac design_auto := repeat design_step.

Section BuilderDesign.

Variables tk1 tk2 : Tokens.
Hypothesis same_domain : same_variants tk1 tk2.
Hypothesis themed1 : is_Some (colors tk1 !! DEFAULT_THEME).
Hypothesis themed2 : is_Some (colors tk2 !! DEFAULT_THEME).

Lemma design_createFrame : sim (lacks_variant tk1) same_design createFrame createFrame.
Proof. apply design_createNode. Qed.
Lemma design_createText : sim (lacks_variant tk1) same_design createText createText.
Proof. apply design_createNode. Qed.
Lemma design_createRectangle : sim (lacks_variant tk1) same_design createRectangle createRectangle.
Proof. apply design_createNode. Qed.
Lemma design_createEllipse : sim (lacks_variant tk1) same_design createEllipse createEllipse.
Proof. apply design_createNode. Qed.
#[local] Hint Resolve design_createFrame design_createText design_createRectangle
  design_createEllipse : design.

Lemma design_paint (token : jsstring) :
  palette token = true → sim (lacks_variant tk1) eq (paint tk1 token) (paint tk2 token).
Proof.
  intros Hp. rewrite !paint_palette by exact Hp.
  destruct themed1 as [c1 ->], themed2 as [c2 ->]. by apply sim_ret.
Qed.
#[local] Hint Resolve design_paint : design.

Lemma design_fill (fillToken : option jsstring) :
  palette_fill fillToken = true →
  sim (lacks_variant tk1) eq
    match fillToken with
    | Some token => if truthy token then paint tk1 token else mret tt
    | None => mret tt
    end
    match fillToken with
    | Some token => if truthy token then paint tk2 token else mret tt
    | None => mret tt
    end.
Proof.
  intros Hfill. destruct fillToken as [token|]; [destruct (truthy token)|].
  - by apply design_paint.
  - by apply sim_ret.
  - by apply sim_ret.
Qed.

Lemma design_applyTextStyle (n1 n2 : Node) (variant : TypographyVariant) :
  same_design n1 n2 →
  sim (lacks_variant tk1) same_design (applyTextStyle tk1 n1 variant) (applyTextStyle tk2 n2 variant).
Proof.
  intros H. unfold applyTextStyle.
  pose proof (same_domain variant) as Hdom.
  destruct (typography_scale tk1 variant) as [s1|] eqn:H1,
           (typography_scale tk2 variant) as [s2|] eqn:H2.
  - eapply sim_bind; [apply sim_emit_any|]. intros _ _ _. cbv zeta.
    eapply sim_bind; [by apply design_paint|]. intros _ _ _.
    apply sim_ret. by apply same_design_set_fontName.
  - destruct Hdom as [Hdom _]. destruct Hdom as [? [=]]. eauto.
  - destruct Hdom as [_ Hdom]. destruct Hdom as [? [=]]. eauto.
  - apply sim_throw. by exists variant.
Qed.
#[local] Hint Resolve design_applyTextStyle : design.

Lemma design_createTextNode (content : jsstring) (variant : TypographyVariant)
  (fillToken : option jsstring) :
  palette_fill fillToken = true →
  sim (lacks_variant tk1) same_design (createTextNode tk1 content variant fillToken)
    (createTextNode tk2 content variant fillToken).
Proof.
  intros Hfill. unfold createTextNode. design_auto.
  eapply sim_bind; [exact (design_fill _ Hfill) | intros ? ? ?]. design_auto.
Qed.
#[local] Hint Resolve design_createTextNode : design.

Lemma design_createAutoLayout (direction : LayoutMode) :
  sim (lacks_variant tk1) same_design (createAutoLayout direction) (createAutoLayout direction).
Proof. unfold createAutoLayout. design_auto. Qed.
#[local] Hint Resolve design_createAutoLayout : design.

Lemma design_createButton (label : jsstring) (variant : ButtonVariant) :
  sim (lacks_variant tk1) same_design (createButton tk1 label variant) (createButton tk2 label variant).
Proof. unfold createButton. destruct variant; design_auto. Qed.
#[local] Hint Resolve design_createButton : design.

Lemma design_createMetricCard (index : nat) (value label accent : jsstring) :
  palette accent = true →
  sim (lacks_variant tk1) same_design (createMetricCard tk1 index value label accent)
    (createMetricCard tk2 index value label accent).
Proof. intros Haccent. unfold createMetricCard. design_auto. Qed.
#[local] Hint Resolve design_createMetricCard : design.

Lemma design_createHeroVisualHeader :
  sim (lacks_variant tk1) same_design (createHeroVisualHeader tk1) (createHeroVisualHeader tk2).
Proof. unfold createHeroVisualHeader. design_auto. Qed.

Lemma design_createHeroVisualToolbar :
  sim (lacks_variant tk1) same_design (createHeroVisualToolbar tk1) (createHeroVisualToolbar tk2).
Proof. unfold createHeroVisualToolbar. design_auto. Qed.

Lemma design_createHeroVisualMainCard :
  sim (lacks_variant tk1) same_design (createHeroVisualMainCard tk1) (createHeroVisualMainCard tk2).
Proof. unfold createHeroVisualMainCard. design_auto. Qed.

Lemma design_createHeroVisualSidebar :
  sim (lacks_variant tk1) same_design (createHeroVisualSidebar tk1) (createHeroVisualSidebar tk2).
Proof. unfold createHeroVisualSidebar. design_auto. Qed.

Lemma design_createHeroVisualReviewRow :
  sim (lacks_variant tk1) same_design (createHeroVisualReviewRow tk1) (createHeroVisualReviewRow tk2).
Proof. unfold createHeroVisualReviewRow. design_auto. Qed.
#[local] Hint Resolve design_createHeroVisualHeader design_createHeroVisualToolbar
  design_createHeroVisualMainCard design_createHeroVisualSidebar
  design_createHeroVisualReviewRow : design.

Lemma design_createHeroVisualContent :
  sim (lacks_variant tk1) same_design (createHeroVisualContent tk1) (createHeroVisualContent tk2).
Proof. unfold createHeroVisualContent. design_auto. Qed.
#[local] Hint Resolve design_createHeroVisualContent : design.

Lemma design_createHeroVisualBody :
  sim (lacks_variant tk1) same_design (createHeroVisualBody tk1) (createHeroVisualBody tk2).
Proof. unfold createHeroVisualBody. design_auto. Qed.

Lemma design_createHeroVisualStats :
  sim (lacks_variant tk1) same_design (createHeroVisualStats tk1) (createHeroVisualStats tk2).
Proof. unfold createHeroVisualStats. design_auto. Qed.
#[local] Hint Resolve design_createHeroVisualBody design_createHeroVisualStats : design.

Lemma design_createHeroVisual :
  sim (lacks_variant tk1) same_design (createHeroVisual tk1) (createHeroVisual tk2).
Proof. unfold createHeroVisual. design_auto. Qed.
#[local] Hint Resolve design_createHeroVisual : design.

Lemma design_createHeroSection :
  sim (lacks_variant tk1) same_design (createHeroSection tk1) (createHeroSection tk2).
Proof. unfold createHeroSection. design_auto. Qed.

Lemma design_createTestimonialCopyColumn :
  sim (lacks_variant tk1) same_design (createTestimonialCopyColumn tk1) (createTestimonialCopyColumn tk2).
Proof. unfold createTestimonialCopyColumn. design_auto. Qed.

Lemma design_buildTestimonialCard (data : Testimonial) :
  palette (t_accent data) = true →
  sim (lacks_variant tk1) same_design (buildTestimonialCard tk1 data) (buildTestimonialCard tk2 data).
Proof.
  intros Haccent. unfold buildTestimonialCard. design_auto.
  destruct (t_metric data) as [metric|]; [destruct (truthy metric)|]; design_auto.
Qed.
#[local] Hint Resolve design_createTestimonialCopyColumn design_buildTestimonialCard
  : design.

Lemma design_createTestimonialCards :
  sim (lacks_variant tk1) same_design (createTestimonialCards tk1) (createTestimonialCards tk2).
Proof. unfold createTestimonialCards. design_auto. Qed.
#[local] Hint Resolve design_createTestimonialCards : design.

Lemma design_createTestimonialSection :
  sim (lacks_variant tk1) same_design (createTestimonialSection tk1) (createTestimonialSection tk2).
Proof. unfold createTestimonialSection. design_auto. Qed.

Lemma design_createCTASection :
  sim (lacks_variant tk1) same_design (createCTASection tk1) (createCTASection tk2).
Proof. unfold createCTASection. design_auto. Qed.
#[local] Hint Resolve design_createHeroSection design_createTestimonialSection
  design_createCTASection : design.

Lemma design_buildLanding : sim (lacks_variant tk1) same_design (buildLanding tk1) (buildLanding tk2).
Proof. unfold buildLanding. design_auto. Qed.

End BuilderDesign.

(** ** The build contract *)

Lemma sampleTokens_themed : themed sampleTokens.
Proof. exists sampleLight. reflexivity. Qed.

Lemma sampleTokens_complete : complete sampleTokens.
Proof. intros variant. unfold sampleTokens, sampleScale. simpl. eauto. Qed.

Lemma buildLanding_sample :
  buildLanding sampleTokens emptyWorld
  = (Ok builtRoot, (buildLanding sampleTokens emptyWorld).2).
Proof. vm_compute. reflexivity. Qed.

Lemma buildLanding_complete (tk : Tokens) (w : World) :
  themed tk →
  complete tk →
  ∃ l n' fonts,
    buildLanding tk w = (Ok l, mkWorld n' (page w) (log w ++ fonts))
    ∧ same_design l builtRoot ∧ font_loads fonts ∧ nextId w <= n'.
Proof.
  intros Ht Hc.
  assert (Hdom : same_variants tk sampleTokens).
  { intros variant. split; intros _; [apply sampleTokens_complete | apply Hc]. }
  pose proof (design_buildLanding tk sampleTokens Hdom Ht sampleTokens_themed w emptyWorld)
    as Hsim.
  rewrite buildLanding_sample in Hsim.
  destruct (quiet_buildLanding tk w) as (fonts & Hlog & Hfonts & Hid).
  destruct (buildLanding tk w) as [[l|e] [n' p' g']];
    cbn [fst snd log nextId page] in *.
  - destruct Hsim as (Hd & Hp & _). rewrite Hp, Hlog.
    exists l, n', fonts.
    split; [reflexivity|]. split; [exact Hd|]. split; [exact Hfonts | exact Hid].
  - destruct Hsim.
Qed.

Lemma applyTokensDemo_unthemed (tk : Tokens) (w : World) :
  colors tk !! DEFAULT_THEME = None →
  ∃ w', applyTokensDemo tk w = (Throw (undefinedRead (str "neutral")), w').
Proof.
  intros Hnone. unfold applyTokensDemo, createAutoLayout, createFrame, createNode.
  unfold mbind at 1 2, M_bind at 1 2. cbn [mret M_ret]. cbv zeta.
  unfold mbind at 1, M_bind at 1.
  rewrite (paint_palette tk (str "neutral/50")) by reflexivity. rewrite Hnone.
  unfold throw. eauto.
Qed.

Lemma applyTokensDemo_complete (tk : Tokens) (w : World) :
  themed tk →
  complete tk →
  ∃ l n' fonts,
    applyTokensDemo tk w
    = (Ok (length (page w)),
       mkWorld n' (page w ++ [l]) (log w ++ fonts ++ viewEvents l))
    ∧ same_design l builtRoot ∧ font_loads fonts ∧ nextId w <= n'.
Proof.
  intros Ht Hc.
  destruct (buildLanding_complete tk w Ht Hc) as (l & n' & fonts & Hrun & Hd & Hf & Hid).
  exists l, n', fonts.
  split; [|split; [exact Hd|split; [exact Hf | exact Hid]]].
  rewrite applyTokensDemo_split. unfold mbind, M_bind. rewrite Hrun.
  unfold publish, appendToPage, emit, mbind, M_bind, mret, M_ret, viewEvents.
  cbn [fst snd log nextId page]. by rewrite <- !app_assoc.
Qed.

Lemma node_at_plain (q : path) : ∀ n, node_at q (plain n) = plain <$> node_at q n.
Proof.
  induction q as [|i q IH]; intros n; [reflexivity|].
  destruct n as [a t lm nm v c f kids]. simpl. rewrite list_lookup_fmap.
  destruct (kids !! i) as [k|]; simpl; [apply IH | reflexivity].
Qed.

Lemma same_design_node_at (q : path) (n1 n2 : Node) :
  same_design n1 n2 → plain <$> node_at q n1 = plain <$> node_at q n2.
Proof. intros H. rewrite <- !node_at_plain. by rewrite H. Qed.

Lemma same_design_text_at (q : path) (n1 n2 : Node) :
  same_design n1 n2 → text_at q n1 = text_at q n2.
Proof.
  intros H. apply (same_design_node_at q) in H. unfold text_at.
  destruct (node_at q n1) as [m1|], (node_at q n2) as [m2|]; simpl in *; try done.
  injection H as H. destruct m1, m2. simpl in *. congruence.
Qed.

Lemma same_design_visible_at (q : path) (n1 n2 : Node) :
  same_design n1 n2 → visible_at q n1 = visible_at q n2.
Proof.
  intros H. apply (same_design_node_at q) in H. unfold visible_at.
  destruct (node_at q n1) as [m1|], (node_at q n2) as [m2|]; simpl in *; try done.
  injection H as H. destruct m1, m2. simpl in *. congruence.
Qed.

Lemma built_names_distinct : NoDup (anchor_names builtRoot).
Proof. apply (bool_decide_unpack _). vm_compute. exact I. Qed.

Lemma built_text_anchors (content : GeminiSiteContent) :
  Forall (fun anchor => is_Some (textAnchor anchor builtRoot))
    (map op_text_name (plan content)).
Proof. apply (bool_decide_unpack _). vm_compute. exact I. Qed.

Lemma built_row_anchors (content : GeminiSiteContent) :
  Forall (fun rowName => is_Some (namedNode rowName builtRoot))
    (omap op_row_name (plan content)).
Proof. apply (bool_decide_unpack _). vm_compute. exact I. Qed.





(** ** The orchestrator: a run that succeeds *)

Lemma brace_region_nonempty (s region : jsstring) : brace_region s region → truthy s = true.
Proof.
  intros (before & inside & after & -> & -> & _). by destruct before.
Qed.

Lemma requestGeminiContent_ok (key model : option jsstring)
  (fetch : Request → FetchOutcome) (JSON_parse : jsstring → option GeminiSiteContent)
  (userPrompt : jsstring) (data : GeminiResponse) (region : jsstring)
  (content : GeminiSiteContent) (w : World) :
  fetch (request_for key model userPrompt) = HttpSuccess (Ok data) →
  brace_region (rawTextOf data) region → JSON_parse region = Some content →
  requestGeminiContent key model fetch JSON_parse userPrompt w
  = (Ok content,
     mkWorld (nextId w) (page w) (log w ++ [Fetch (request_for key model userPrompt)])).
Proof.
  intros Hfetch Hregion Hparse. unfold requestGeminiContent.
  fold (request_for key model userPrompt).
  unfold mbind, M_bind, emit. rewrite Hfetch.
  rewrite (brace_region_nonempty _ _ Hregion). cbn [negb].
  unfold parseGeminiJson. rewrite (search_brace_region _ _ Hregion), Hparse.
  reflexivity.
Qed.

Lemma font_loads_statuses (events : list Event) : font_loads events → statuses events = [].
Proof.
  induction 1 as [|e events He _ IH]; [reflexivity|].
  destruct e; try discriminate. exact IH.
Qed.

Lemma font_loads_no_fetch (events : list Event) :
  font_loads events → filter (fun e => is_fetch e = true) events = [].
Proof.
  induction 1 as [|e events He _ IH]; [reflexivity|].
  destruct e; try discriminate. exact IH.
Qed.

Lemma generate_run (tk : Tokens) (key model : option jsstring)
  (fetch : Request → FetchOutcome) (JSON_parse : jsstring → option GeminiSiteContent)
  (prompt : Unknown) (data : GeminiResponse) (region : jsstring)
  (content : GeminiSiteContent) (w : World) :
  themed tk →
  complete tk →
  promptRejected prompt = false →
  truthy (default [] key) = true →
  fetch (request_for key model (trim (promptText prompt))) = HttpSuccess (Ok data) →
  brace_region (rawTextOf data) region → JSON_parse region = Some content →
  ∃ l n' buildFonts contentFonts,
    handleGenerateAiSite tk key model fetch JSON_parse prompt w
    = (Ok tt,
       mkWorld n' (page w ++ [runPlan (plan content) l])
         (log w ++ successRunEvents (request_for key model (trim (promptText prompt)))
                     l buildFonts contentFonts))
    ∧ same_design l builtRoot
    ∧ font_loads buildFonts ∧ font_loads contentFonts.
Proof.
  intros Ht Hc Hprompt Hkey Hfetch Hregion Hparse. unfold handleGenerateAiSite.
  rewrite Hprompt. unfold GEMINI_API_KEY at 1. rewrite Hkey. cbn [negb].
  unfold try_catch.
  set (request := request_for key model (trim (promptText prompt))).
  unfold mbind at 1, M_bind at 1, postStatus at 1, emit at 1.
  unfold mbind at 1, M_bind at 1.
  rewrite (requestGeminiContent_ok key model fetch JSON_parse _ data region content _
             Hfetch Hregion Hparse).
  fold request. cbn [nextId page log].
  unfold mbind at 1, M_bind at 1, postStatus at 1, emit at 1. cbn [nextId page log].
  unfold mbind at 1, M_bind at 1.
  match goal with
  | |- context [applyTokensDemo tk ?w1] =>
      destruct (applyTokensDemo_complete tk w1 Ht Hc)
        as (l & n' & buildFonts & Hbuild & Hd & Hbf & _)
  end.
  rewrite Hbuild. cbn [nextId page log].
  unfold mbind at 1, M_bind at 1.
  match goal with
  | |- context [applyGeminiContent ?k content ?w2] =>
      destruct (applyGeminiContent_run k content w2 l)
        as (contentFonts & Hfill & Hcf)
  end.
  { cbn [page]. rewrite lookup_app_r by lia. rewrite Nat.sub_diag. reflexivity. }
  rewrite Hfill. cbn [nextId page log].
  unfold mbind, M_bind, postStatus, notify, emit. cbn [nextId page log].
  exists l, n', buildFonts, contentFonts.
  split; [|split; [exact Hd | split; [exact Hbf | exact Hcf]]].
  f_equal. f_equal.
  - replace (length (page w)) with (length (page w) + 0)%nat by lia.
    rewrite insert_app_r. reflexivity.
  - unfold successRunEvents. rewrite <- !app_assoc. reflexivity.
Qed.





(** ** The orchestrator: every run *)

Lemma buildLanding_any (tk : Tokens) (w : World) :
  ∃ r n' fonts,
    buildLanding tk w = (r, mkWorld n' (page w) (log w ++ fonts))
    ∧ font_loads fonts ∧ nextId w <= n'.
Proof.
  pose proof (sim_buildLanding tk w w) as Hsim.
  destruct (quiet_buildLanding tk w) as (fonts & Hlog & Hfonts & Hid).
  destruct (buildLanding tk w) as [r [n' p' g']]; cbn [fst snd log nextId page] in *.
  exists r, n', fonts. rewrite Hlog.
  assert (Hp : p' = page w) by (destruct r; tauto).
  rewrite Hp. split; [reflexivity|]. split; [exact Hfonts | exact Hid].
Qed.

Lemma applyTokensDemo_any (tk : Tokens) (w : World) :
  ∃ n' fonts,
    font_loads fonts ∧ nextId w <= n'
    ∧ ((∃ l, applyTokensDemo tk w
             = (Ok (length (page w)),
                mkWorld n' (page w ++ [l]) (log w ++ fonts ++ viewEvents l)))
       ∨ (∃ e, applyTokensDemo tk w
               = (Throw e, mkWorld n' (page w) (log w ++ fonts)))).
Proof.
  destruct (buildLanding_any tk w) as (r & n' & fonts & Hrun & Hf & Hid).
  exists n', fonts. split; [exact Hf|]. split; [exact Hid|].
  rewrite applyTokensDemo_split. unfold mbind, M_bind. rewrite Hrun.
  destruct r as [l|e]; [left; exists l | right; exists e; reflexivity].
  unfold publish, appendToPage, emit, mbind, M_bind, mret, M_ret, viewEvents.
  cbn [fst snd log nextId page]. by rewrite <- !app_assoc.
Qed.

Lemma requestGeminiContent_any (key model : option jsstring)
  (fetch : Request → FetchOutcome) (JSON_parse : jsstring → option GeminiSiteContent)
  (userPrompt : jsstring) (w : World) :
  ∃ r, requestGeminiContent key model fetch JSON_parse userPrompt w
       = (r, mkWorld (nextId w) (page w)
               (log w ++ [Fetch (request_for key model userPrompt)])).
Proof.
  unfold requestGeminiContent. fold (request_for key model userPrompt).
  unfold mbind, M_bind, emit, throw.
  destruct (fetch (request_for key model userPrompt)) as [e|st em|[data|e]]; eauto.
  destruct (negb (truthy (rawTextOf data))); eauto.
  destruct (parseGeminiJson JSON_parse (rawTextOf data)); eauto.
Qed.

Lemma handleGenerateAiSite_cases (tk : Tokens) (key model : option jsstring)
  (fetch : Request → FetchOutcome) (JSON_parse : jsstring → option GeminiSiteContent)
  (prompt : Unknown) (w : World) :
  ∃ n' added events,
    handleGenerateAiSite tk key model fetch JSON_parse prompt w
    = (Ok tt, mkWorld n' (page w ++ added) (log w ++ events))
    ∧ nextId w <= n'
    ∧ (length added <= 1)%nat
    ∧ statuses events ∈ runStatuses
    ∧ (filter (fun e => is_fetch e = true) events = []
       ∨ filter (fun e => is_fetch e = true) events
         = [Fetch (request_for key model (trim (promptText prompt)))])
    ∧ (last (statuses events) = Some success → ∃ l, added = [l])
    ∧ (applying ∉ statuses events → added = [] ∧ n' = nextId w).
Proof.
  unfold handleGenerateAiSite.
  destruct (promptRejected prompt).
  { exists (nextId w), [], [PostStatus error (str "Masukkan prompt yang jelas untuk Gemini.")].
    rewrite app_nil_r. split; [reflexivity|]. split; [lia|]. split; [simpl; lia|].
    split; [apply list_elem_of_here|]. split; [left; reflexivity|].
    split; [discriminate|]. intros _. split; reflexivity. }
  destruct (negb (truthy (default [] (GEMINI_API_KEY key)))).
  { exists (nextId w), [],
      [PostStatus error
         (str "Konfigurasi Gemini API belum tersedia (VITE_GEMINI_API_KEY).");
       Notify (str "Set VITE_GEMINI_API_KEY di file .env anda.")].
    rewrite app_nil_r. split.
    { unfold mbind, M_bind, postStatus, notify, emit. cbn [nextId page log].
      by rewrite <- app_assoc. }
    split; [lia|]. split; [simpl; lia|]. split; [apply list_elem_of_here|]. split; [left; reflexivity|].
    split; [discriminate|]. intros _. split; reflexivity. }
  set (request := request_for key model (trim (promptText prompt))).
  unfold try_catch.
  unfold mbind at 1, M_bind at 1, postStatus at 1, emit at 1.
  unfold mbind at 1, M_bind at 1.
  match goal with
  | |- context [requestGeminiContent _ _ _ _ _ ?w1] =>
      destruct (requestGeminiContent_any key model fetch JSON_parse
                  (trim (promptText prompt)) w1) as [r Hreq]
  end.
  rewrite Hreq. fold request. cbn [nextId page log].
  destruct r as [content|e].
  2: { exists (nextId w), [], (rejectedRunEvents request e).
       rewrite app_nil_r. split.
       { unfold mbind, M_bind, postStatus, notify, emit. cbn [nextId page log].
         unfold rejectedRunEvents, reportedMessage. by rewrite <- !app_assoc. }
       split; [lia|]. split; [simpl; lia|].
       split; [apply list_elem_of_further, list_elem_of_here|].
       split; [right; reflexivity|].
       split; [discriminate|]. intros _. split; reflexivity. }
  unfold mbind at 1, M_bind at 1, postStatus at 1, emit at 1. cbn [nextId page log].
  unfold mbind at 1, M_bind at 1.
  match goal with
  | |- context [applyTokensDemo tk ?w2] =>
      destruct (applyTokensDemo_any tk w2) as (n' & fonts & Hf & Hid & [[l Hb]|[e Hb]])
  end; rewrite Hb; cbn [nextId page log] in *.
  - unfold mbind at 1, M_bind at 1.
    match goal with
    | |- context [applyGeminiContent ?k content ?w3] =>
        destruct (applyGeminiContent_run k content w3 l) as (contentFonts & Hfill & Hcf)
    end.
    { cbn [page]. rewrite lookup_app_r by lia. rewrite Nat.sub_diag. reflexivity. }
    rewrite Hfill. cbn [nextId page log].
    unfold mbind, M_bind, postStatus, notify, emit. cbn [nextId page log].
    exists n', [runPlan (plan content) l], (successRunEvents request l fonts contentFonts).
    split.
    { f_equal. f_equal.
      - replace (length (page w)) with (length (page w) + 0)%nat by lia.
        rewrite insert_app_r. reflexivity.
      - unfold successRunEvents. rewrite <- !app_assoc. reflexivity. }
    split; [exact Hid|]. split; [simpl; lia|].
    assert (Hst : statuses (successRunEvents request l fonts contentFonts)
                  = [loading; applying; success]).
    { unfold successRunEvents, statuses. rewrite !omap_app.
      fold (statuses fonts) (statuses contentFonts).
      rewrite (font_loads_statuses _ Hf), (font_loads_statuses _ Hcf). reflexivity. }
    rewrite Hst.
    split; [do 3 apply list_elem_of_further; apply list_elem_of_here|].
    split.
    { right. unfold successRunEvents. rewrite !filter_app.
      rewrite (font_loads_no_fetch _ Hf), (font_loads_no_fetch _ Hcf). reflexivity. }
    split; [intros _; by exists (runPlan (plan content) l)|].
    intros Hnot. exfalso. apply Hnot. apply list_elem_of_further, list_elem_of_here.
  - unfold mbind, M_bind, postStatus, notify, emit. cbn [nextId page log].
    exists n', [],
      ([PostStatus loading (str "Menghubungi Gemini untuk merumuskan konten...");
        Fetch request;
        PostStatus applying
          (str "Menyiapkan layout Refigma berdasarkan konten Gemini...")]
       ++ fonts
       ++ [PostStatus error (reportedMessage e);
           Notify (str "Gagal menghasilkan website dari Gemini.");
           ConsoleError e]).
    rewrite app_nil_r. split.
    { unfold reportedMessage. by rewrite <- !app_assoc. }
    split; [exact Hid|]. split; [simpl; lia|].
    assert (Hst : statuses
                    ([PostStatus loading
                        (str "Menghubungi Gemini untuk merumuskan konten...");
                      Fetch request;
                      PostStatus applying
                        (str "Menyiapkan layout Refigma berdasarkan konten Gemini...")]
                     ++ fonts
                     ++ [PostStatus error (reportedMessage e);
                         Notify (str "Gagal menghasilkan website dari Gemini.");
                         ConsoleError e])
                  = [loading; applying; error]).
    { unfold statuses. rewrite !omap_app. fold (statuses fonts).
      rewrite (font_loads_statuses _ Hf). reflexivity. }
    rewrite Hst.
    split; [do 2 apply list_elem_of_further; apply list_elem_of_here|].
    split.
    { right. rewrite !filter_app. rewrite (font_loads_no_fetch _ Hf). reflexivity. }
    split; [discriminate|].
    intros Hnot. exfalso. apply Hnot. apply list_elem_of_further, list_elem_of_here.
Qed.

(** X18. Every run of [handleGenerateAiSite], whatever the prompt, the
    configuration, the provider, the parser and the schema: the handler
    returns and never throws; the statuses it posts are one of four
    sequences, each ending in error or in success; it sends at most one
    request, and that one for the trimmed prompt; the frames that were on
    the page stay as they were; a run that ends in success has added
    exactly one frame, and a run that never reached the applying status has
    added none. *)
Theorem handler_outcomes (tk : Tokens) (key model : option jsstring)
  (fetch : Request → FetchOutcome) (JSON_parse : jsstring → option GeminiSiteContent)
  (prompt : Unknown) (w : World) :
  ∃ n' added events,
    handleGenerateAiSite tk key model fetch JSON_parse prompt w
    = (Ok tt, mkWorld n' (page w ++ added) (log w ++ events))
    ∧ nextId w <= n'
    ∧ statuses events ∈ runStatuses
    ∧ (filter (fun e => is_fetch e = true) events = []
       ∨ filter (fun e => is_fetch e = true) events
         = [Fetch (request_for key model (trim (promptText prompt)))])
    ∧ (last (statuses events) = Some success → ∃ l, added = [l])
    ∧ (applying ∉ statuses events → added = [] ∧ n' = nextId w).
Proof.
  destruct (handleGenerateAiSite_cases tk key model fetch JSON_parse prompt w)
    as (n' & added & events & Hrun & Hid & _ & Hrest).
  exists n', added, events. split; [exact Hrun|]. split; [exact Hid | exact Hrest].
Qed.

(** ** [resolveInterFont]: the style of each weight *)

(** X19. The font [resolveInterFont] returns has the family of the schema,
    whatever the weight, and one of four styles: Bold from 700 up, Semi
    Bold from 600 up to 700, Medium from 500 up to 600, and Regular below
    500, negative weights included. *)
Theorem resolveInterFont_table (tk : Tokens) (weight : Q) :
  family (resolveInterFont tk weight) = typography_fontFamily tk
  ∧ style (resolveInterFont tk weight)
    = (if Qle_bool 700 weight then str "Bold"
       else if Qle_bool 600 weight then str "Semi Bold"
       else if Qle_bool 500 weight then str "Medium"
       else str "Regular")
  ∧ ((700 <= weight)%Q → style (resolveInterFont tk weight) = str "Bold")
  ∧ ((600 <= weight)%Q → (weight < 700)%Q →
     style (resolveInterFont tk weight) = str "Semi Bold")
  ∧ ((500 <= weight)%Q → (weight < 600)%Q →
     style (resolveInterFont tk weight) = str "Medium")
  ∧ ((weight < 500)%Q → style (resolveInterFont tk weight) = str "Regular").
Proof.
  assert (Hno : ∀ t, (weight < t)%Q → Qle_bool t weight = false).
  { intros t Hlt. destruct (Qle_bool t weight) eqn:E; [|reflexivity].
    apply Qle_bool_iff in E. exfalso. by apply (Qlt_not_le _ _ Hlt). }
  assert (Hyes : ∀ t, (t <= weight)%Q → Qle_bool t weight = true).
  { intros t Hle. by apply Qle_bool_iff. }
  assert (Hstyle : style (resolveInterFont tk weight)
                   = (if Qle_bool 700 weight then str "Bold"
                      else if Qle_bool 600 weight then str "Semi Bold"
                      else if Qle_bool 500 weight then str "Medium"
                      else str "Regular")).
  { unfold resolveInterFont, chosenStyle, INTER_STYLES, chooseStyle. cbn [style threshold].
    destruct (Qle_bool 700 weight); [reflexivity|].
    destruct (Qle_bool 600 weight); [reflexivity|].
    destruct (Qle_bool 500 weight); [reflexivity|].
    destruct (Qle_bool 0 weight); reflexivity. }
  split; [reflexivity|]. split; [exact Hstyle|]. rewrite Hstyle.
  split; [|split; [|split]].
  - intros H7. by rewrite (Hyes _ H7).
  - intros H6 H7. by rewrite (Hno _ H7), (Hyes _ H6).
  - intros H5 H6.
    assert (H7 : (weight < 700)%Q) by (eapply Qlt_trans; [exact H6|reflexivity]).
    by rewrite (Hno _ H7), (Hno _ H6), (Hyes _ H5).
  - intros H5.
    assert (H6 : (weight < 600)%Q) by (eapply Qlt_trans; [exact H5|reflexivity]).
    assert (H7 : (weight < 700)%Q) by (eapply Qlt_trans; [exact H5|reflexivity]).
    by rewrite (Hno _ H7), (Hno _ H6), (Hno _ H5).
Qed.

(** ** The prompt: what is accepted and what is sent *)

Lemma trimStart_decompose (s : jsstring) :
  ∃ l, s = l ++ trimStart s ∧ spaces l
       ∧ match trimStart s with c :: _ => is_space c = false | [] => True end.
Proof.
  induction s as [|c s IH]; [by exists []; repeat split; constructor|].
  simpl. destruct (is_space c) eqn:Hc.
  - destruct IH as (l & Heq & Hl & Hhead). exists (c :: l).
    split; [simpl; congruence|]. split; [by constructor | exact Hhead].
  - exists []. repeat split; [constructor | exact Hc].
Qed.

Lemma last_rev_head (s : jsstring) : last (rev s) = head s.
Proof. destruct s as [|c s]; [reflexivity|]. simpl. apply last_snoc. Qed.

Lemma trimEnd_decompose (s : jsstring) :
  ∃ r, s = trimEnd s ++ r ∧ spaces r
       ∧ match last (trimEnd s) with Some c => is_space c = false | None => True end.
Proof.
  unfold trimEnd. destruct (trimStart_decompose (rev s)) as (l & Heq & Hl & Hhead).
  exists (rev l). split; [|split].
  - rewrite <- rev_app_distr, <- Heq. by rewrite rev_involutive.
  - unfold spaces in *. by apply Forall_rev.
  - rewrite last_rev_head. by destruct (trimStart (rev s)).
Qed.

Lemma trim_decompose (s : jsstring) :
  ∃ l r, s = l ++ trim s ++ r ∧ spaces l ∧ spaces r ∧ trimmed (trim s).
Proof.
  unfold trim. destruct (trimStart_decompose s) as (l & Hs & Hl & Hhead).
  destruct (trimEnd_decompose (trimStart s)) as (r & Ht & Hr & Hlast).
  exists l, r. split; [by rewrite <- Ht|]. split; [exact Hl|]. split; [exact Hr|].
  split; [|exact Hlast].
  destruct (trimEnd (trimStart s)) as [|c t] eqn:E; [exact I|].
  rewrite Ht in Hhead. exact Hhead.
Qed.

(** X20. Which prompts are accepted: a prompt is turned away exactly when
    it is no string or a string of white space only.  The text that goes
    on to the provider is the prompt without the white space at its two
    ends: what was cut off is white space, and what is left neither starts
    nor ends with it and, for an accepted prompt, is not empty. *)
Theorem prompt_validation (prompt : Unknown) :
  (promptRejected prompt = true ↔ blank prompt)
  ∧ (∃ l r, promptText prompt = l ++ trim (promptText prompt) ++ r
            ∧ spaces l ∧ spaces r ∧ trimmed (trim (promptText prompt)))
  ∧ (promptRejected prompt = false → trim (promptText prompt) ≠ []).
Proof.
  split; [|split].
  - split; [|apply blank_rejected].
    destruct prompt as [s|]; [|done]. simpl. intros Hrej.
    destruct (trim_decompose s) as (l & r & Hs & Hl & Hr & _).
    destruct (trim s); [|discriminate]. rewrite Hs. simpl.
    unfold spaces in *. by apply Forall_app.
  - apply trim_decompose.
  - destruct prompt as [s|]; [|discriminate]. simpl.
    by destruct (trim s).
Qed.

Lemma join_splice (sep x p u s : jsstring) (y : jsstring) (rest : list jsstring) :
  join sep (x :: (p ++ quoted u ++ s) :: y :: rest)
  = (x ++ sep ++ p ++ [34]) ++ u ++ ([34] ++ s ++ sep ++ join sep (y :: rest)).
Proof.
  unfold quoted. cbn [join]. rewrite <- !app_assoc. simpl. by rewrite <- !app_assoc.
Qed.

(** X21. The prompt sent to the provider is a fixed template with the
    user's text put in at a fixed place, unchanged: no unit of the text is
    escaped or removed, whatever it is. *)
Theorem buildGeminiPrompt_splice (userPrompt : jsstring) :
  buildGeminiPrompt userPrompt
  = take promptOffset (buildGeminiPrompt []) ++ userPrompt
    ++ drop promptOffset (buildGeminiPrompt [])
  ∧ length (buildGeminiPrompt userPrompt)
    = (length (buildGeminiPrompt []) + length userPrompt)%nat.
Proof.
  assert (Hform : ∀ u, buildGeminiPrompt u
            = take promptOffset (buildGeminiPrompt []) ++ u
              ++ drop promptOffset (buildGeminiPrompt [])).
  { intros u. unfold buildGeminiPrompt at 1. cbn [app]. rewrite join_splice.
    apply (f_equal2 app); [vm_compute; reflexivity|].
    apply (f_equal (app u)). vm_compute. reflexivity. }
  split; [apply Hform|].
  rewrite (Hform userPrompt). rewrite !length_app.
  rewrite <- (take_drop promptOffset (buildGeminiPrompt [])) at 3.
  rewrite length_app. lia.
Qed.

(** ** The entry points *)



(** ** The build on a schema that lacks a variant *)

Lemma domain_build (b1 b2 b3 bBody bBodyBold bCaption bCaptionBold : bool) :
  thrown (buildLanding
            (domainTokens (variantChoice b1 b2 b3 bBody bBodyBold bCaption bCaptionBold))
            emptyWorld).1
  = unknownVariant
      <$> firstLacking
            (domainTokens (variantChoice b1 b2 b3 bBody bBodyBold bCaption bCaptionBold)).
Proof.
  destruct b1, b2, b3, bBody, bBodyBold, bCaption, bCaptionBold;
    vm_compute; reflexivity.
Qed.

Lemma find_ext {A} (f g : A → bool) (l : list A) :
  (∀ x, f x = g x) → List.find f l = List.find g l.
Proof. intros H. induction l as [|x l IH]; simpl; [reflexivity|]. by rewrite H, IH. Qed.

Lemma lacks_domain (tk : Tokens) (variant : TypographyVariant) :
  lacks
    (domainTokens
       (variantChoice (negb (lacks tk h1)) (negb (lacks tk h2)) (negb (lacks tk h3))
          (negb (lacks tk body)) (negb (lacks tk bodyBold)) (negb (lacks tk caption))
          (negb (lacks tk captionBold)))) variant
  = lacks tk variant.
Proof.
  unfold lacks at 1. unfold domainTokens, variantChoice. cbn [typography_scale].
  destruct variant;
    match goal with |- context [negb (lacks tk ?v)] => by destruct (lacks tk v) end.
Qed.

Lemma same_variants_domain (tk : Tokens) :
  same_variants tk
    (domainTokens
       (variantChoice (negb (lacks tk h1)) (negb (lacks tk h2)) (negb (lacks tk h3))
          (negb (lacks tk body)) (negb (lacks tk bodyBold)) (negb (lacks tk caption))
          (negb (lacks tk captionBold)))).
Proof.
  intros variant. pose proof (lacks_domain tk variant) as H. unfold lacks in H.
  destruct (typography_scale tk variant),
    (typography_scale (domainTokens _) variant); try discriminate;
    split; intros [? [=]]; eauto.
Qed.

Lemma firstLacking_complete (tk : Tokens) : firstLacking tk = None ↔ complete tk.
Proof.
  unfold firstLacking. split.
  - intros Hnone variant.
    pose proof (find_none _ _ Hnone variant) as Hv.
    assert (Hin : In variant variantUseOrder).
    { unfold variantUseOrder. destruct variant; simpl; tauto. }
    specialize (Hv Hin). unfold lacks in Hv.
    destruct (typography_scale tk variant); [eauto | discriminate].
  - intros Hc.
    assert (Hall : ∀ variant, lacks tk variant = false).
    { intros variant. unfold lacks. by destruct (Hc variant) as [s ->]. }
    unfold variantUseOrder. simpl. by rewrite !Hall.
Qed.


(** ** The builders: every font is loaded before it is used *)

Lemma styled_mono (tk : Tokens) (E E' : FontName → Prop) (n : Node) :
  (∀ font, E font → E' font) → styled tk E n → styled tk E' n.
Proof.
  intros Hsub Hn q m Hm Ht. destruct (Hn q m Hm Ht) as (font & Hf & Hs & He).
  exists font. auto.
Qed.

Lemma styled_root (tk : Tokens) (E : FontName → Prop) (n n' : Node) :
  children n' = children n →
  (text_ready tk E n → text_ready tk E n') →
  styled tk E n → styled tk E n'.
Proof.
  intros Hk Hroot Hn [|i q] m Hm.
  - injection Hm as <-. apply Hroot. by apply (Hn []).
  - apply (Hn (i :: q)). simpl in *. by rewrite <- Hk.
Qed.

Lemma styled_set_name (tk : Tokens) (E : FontName → Prop) (s : jsstring) (n : Node) :
  styled tk E n → styled tk E (set_name s n).
Proof. by apply styled_root. Qed.

Lemma styled_set_layoutMode (tk : Tokens) (E : FontName → Prop) (lm : LayoutMode)
  (n : Node) :
  styled tk E n → styled tk E (set_layoutMode lm n).
Proof. by apply styled_root. Qed.

Lemma styled_set_characters (tk : Tokens) (E : FontName → Prop) (s : jsstring) (n : Node) :
  styled tk E n → styled tk E (set_characters s n).
Proof. by apply styled_root. Qed.

Lemma styled_appendChild (tk : Tokens) (E : FontName → Prop) (p c : Node) :
  styled tk E p → styled tk E c → styled tk E (appendChild p c).
Proof.
  intros Hp Hc [|i q] m Hm.
  - injection Hm as <-. exact (Hp [] p eq_refl).
  - unfold appendChild in Hm. simpl in Hm.
    destruct (decide (i < length (children p))%nat) as [Hi|Hi].
    + rewrite lookup_app_l in Hm by done. by apply (Hp (i :: q)).
    + rewrite lookup_app_r in Hm by lia.
      destruct (i - length (children p))%nat as [|j]; simpl in Hm; [|done].
      by apply (Hc q).
Qed.

Lemma styled_update (tk : Tokens) (E : FontName → Prop) (f : Node → Node) (q : path) :
  (∀ m, node_type (f m) = node_type m) →
  (∀ m, fontName (f m) = fontName m) →
  (∀ m, children (f m) = children m) →
  ∀ n, styled tk E n → styled tk E (update q f n).
Proof.
  intros Htype Hfont Hkids n Hn q' m' Hm'.
  destruct (decide (q' = q)) as [->|Hne].
  - rewrite node_at_update_same in Hm'.
    destruct (node_at q n) as [m|] eqn:Hm; [|discriminate]. injection Hm' as <-.
    unfold text_ready. rewrite Htype, Hfont. by apply (Hn q).
  - pose proof (node_at_update_other (fun m => (node_type m, fontName m)) f
                  (fun m kids => eq_refl) Hkids q q' n Hne) as Hsame.
    rewrite Hm' in Hsame. simpl in Hsame.
    destruct (node_at q' n) as [m|] eqn:Hm; [|discriminate].
    injection Hsame as Ht Hf. unfold text_ready. rewrite Ht, Hf. by apply (Hn q').
Qed.

Lemma styled_nameLabel (tk : Tokens) (E : FontName → Prop) (labelName : jsstring)
  (b : Node) :
  styled tk E b → styled tk E (nameLabel labelName b).
Proof.
  intros H. unfold nameLabel. destruct (findOne (is_type TEXT) b) as [q|]; [|exact H].
  by apply styled_update.
Qed.

Lemma styles_ret (tk : Tokens) (E : FontName → Prop) (n : Node) :
  styled tk E n → styles tk E (mret n).
Proof.
  intros Hn w. exists []. rewrite app_nil_r. split; [reflexivity|].
  revert Hn. apply styled_mono. auto.
Qed.

Lemma styles_bind (tk : Tokens) (E : FontName → Prop) (m : M Node) (k : Node → M Node) :
  styles tk E m →
  (∀ a E', (∀ font, E font → E' font) → styled tk E' a → styles tk E' (k a)) →
  styles tk E (m ≫= k).
Proof.
  intros Hm Hk w. unfold mbind, M_bind. specialize (Hm w).
  destruct (m w) as [[a|e] w1]; [|exact I].
  destruct Hm as (ev1 & Hlog1 & Ha).
  specialize (Hk a (fun font => E font ∨ loaded_in ev1 font) (fun font H => or_introl H)
                Ha w1).
  destruct (k a w1) as [[b|e] w2]; [|exact I].
  destruct Hk as (ev2 & Hlog2 & Hb).
  exists (ev1 ++ ev2). split; [by rewrite Hlog2, Hlog1, app_assoc|].
  revert Hb. apply styled_mono. unfold loaded_in. intros font [[H|H]|H]; auto.
  - right. apply elem_of_app. by left.
  - right. apply elem_of_app. by right.
Qed.

Lemma styles_forM {A} (tk : Tokens) (items : list A) (body : Node → A → M Node) :
  ∀ (E : FontName → Prop) (acc : Node),
    (∀ E' acc' x, (∀ font, E font → E' font) → styled tk E' acc' →
                  styles tk E' (body acc' x)) →
    styled tk E acc → styles tk E (forM items acc body).
Proof.
  induction items as [|x items IH]; intros E acc Hbody Hacc; simpl.
  - by apply styles_ret.
  - apply styles_bind; [apply Hbody; auto|].
    intros a E' Hsub Ha. apply IH; [|exact Ha].
    intros E'' acc' y Hsub' Hacc'. apply Hbody; auto.
Qed.

Lemma styles_createNode (tk : Tokens) (E : FontName → Prop) (t : NodeType) :
  t ≠ TEXT → styles tk E (createNode t).
Proof.
  intros Ht w. exists []. simpl. rewrite app_nil_r. split; [reflexivity|].
  intros [|i q] m Hm; [|discriminate]. injection Hm as <-. intros Htext. done.
Qed.

Create HintDb fonts discriminated.
#[local] Hint Resolve styled_set_name styled_set_layoutMode styled_set_characters
  styled_appendChild styled_nameLabel : fonts.

(** The facts about the nodes built so far, carried over to a larger set
    of loaded fonts. *)
Ltac styled_carry Hsub :=
  repeat match goal with
         | H : styled _ _ _ |- _ => apply (styled_mono _ _ _ _ Hsub) in H
         end;
  clear Hsub.

(** A step that builds nothing: [paint]. *)
Lemma styles_paint (tk : Tokens) (E : FontName → Prop) (token : jsstring)
  (k : unit → M Node) :
  styles tk E (k tt) → styles tk E (paint tk token ≫= k).
Proof.
  intros Hk w. unfold mbind, M_bind.
  destruct (paint_run tk token w) as [-> | [e ->]]; [apply Hk | exact I].
Qed.

(** One step of a builder. *)
Ltac styles_step :=
  cbv beta zeta;
  lazymatch goal with
  | |- styles _ _ (mret _) => apply styles_ret; auto 40 with fonts
  | |- styles _ _ (paint _ _ ≫= _) => apply styles_paint
  | |- styles _ _ (forM _ _ _) =>
      apply styles_forM;
        [ let Hsub := fresh "Hsub" in intros ? ? ? Hsub ?; styled_carry Hsub
        | auto 40 with fonts ]
  | |- styles _ _ (forM _ _ _ ≫= _) =>
      eapply styles_bind;
        [ apply styles_forM;
            [ let Hsub := fresh "Hsub" in intros ? ? ? Hsub ?; styled_carry Hsub
            | auto 40 with fonts ]
        | let Hsub := fresh "Hsub" in intros ? ? Hsub ?; styled_carry Hsub ]
  | |- styles _ _ (_ ≫= _) =>
      eapply styles_bind;
        [ solve [eauto 40 with fonts]
        | let Hsub := fresh "Hsub" in intros ? ? Hsub ?; styled_carry Hsub ]
  | |- styles _ _ (let '(_, _) := ?x in _) => destruct x
  end.

Ltac styles_auto := repeat styles_step.

Section BuilderFonts.

Variable tk : Tokens.

Lemma styles_createFrame E : styles tk E createFrame.
Proof. by apply styles_createNode. Qed.
Lemma styles_createRectangle E : styles tk E createRectangle.
Proof. by apply styles_createNode. Qed.
Lemma styles_createEllipse E : styles tk E createEllipse.
Proof. by apply styles_createNode. Qed.
#[local] Hint Resolve styles_createFrame styles_createRectangle styles_createEllipse
  : fonts.

Lemma styles_createTextNode E (content : jsstring) (variant : TypographyVariant)
  (fillToken : option jsstring) :
  styles tk E (createTextNode tk content variant fillToken).
Proof.
  intros w. unfold createTextNode, applyTextStyle, createText, createNode, loadFontAsync,
    emit, mbind, M_bind, throw.
  destruct (typography_scale tk variant) as [style|] eqn:Hstyle; [|exact I].
  cbn [log nextId page].
  set (w1 := mkWorld _ _ _).
  destruct (paint_run tk (str "neutral/900") w1) as [-> | [e ->]]; [|exact I].
  set (fill := match fillToken with Some _ => _ | None => _ end).
  assert (Hfill : fill w1 = (Ok tt, w1) ∨ ∃ e, fill w1 = (Throw e, w1)).
  { unfold fill. destruct fillToken as [token|]; [destruct (truthy token)|];
      [apply paint_run | by left..]. }
  unfold mret at 1, M_ret at 1.
  destruct Hfill as [-> | [e ->]]; [|exact I].
  unfold mret, M_ret, w1. cbn [log].
  exists [LoadFont (resolveInterFont tk (fontWeight style))]. split; [reflexivity|].
  intros [|i q] m Hm; [|discriminate]. injection Hm as <-. intros _.
  exists (resolveInterFont tk (fontWeight style)). split; [reflexivity|]. split.
  - by exists variant, style.
  - right. apply list_elem_of_here.
Qed.

Lemma styles_createAutoLayout E (direction : LayoutMode) :
  styles tk E (createAutoLayout direction).
Proof. unfold createAutoLayout. styles_auto. Qed.
#[local] Hint Resolve styles_createTextNode styles_createAutoLayout : fonts.

Lemma styles_createButton E (label : jsstring) (variant : ButtonVariant) :
  styles tk E (createButton tk label variant).
Proof. unfold createButton. destruct variant; styles_auto. Qed.

Lemma styles_createMetricCard E (index : nat) (value label accent : jsstring) :
  styles tk E (createMetricCard tk index value label accent).
Proof. unfold createMetricCard. styles_auto. Qed.
#[local] Hint Resolve styles_createButton styles_createMetricCard : fonts.

Lemma styles_createHeroVisualHeader E : styles tk E (createHeroVisualHeader tk).
Proof. unfold createHeroVisualHeader. styles_auto. Qed.
Lemma styles_createHeroVisualToolbar E : styles tk E (createHeroVisualToolbar tk).
Proof. unfold createHeroVisualToolbar. styles_auto. Qed.
Lemma styles_createHeroVisualMainCard E : styles tk E (createHeroVisualMainCard tk).
Proof. unfold createHeroVisualMainCard. styles_auto. Qed.
Lemma styles_createHeroVisualSidebar E : styles tk E (createHeroVisualSidebar tk).
Proof. unfold createHeroVisualSidebar. styles_auto. Qed.
Lemma styles_createHeroVisualReviewRow E : styles tk E (createHeroVisualReviewRow tk).
Proof. unfold createHeroVisualReviewRow. styles_auto. Qed.
#[local] Hint Resolve styles_createHeroVisualHeader styles_createHeroVisualToolbar
  styles_createHeroVisualMainCard styles_createHeroVisualSidebar
  styles_createHeroVisualReviewRow : fonts.

Lemma styles_createHeroVisualContent E : styles tk E (createHeroVisualContent tk).
Proof. unfold createHeroVisualContent. styles_auto. Qed.
#[local] Hint Resolve styles_createHeroVisualContent : fonts.

Lemma styles_createHeroVisualBody E : styles tk E (createHeroVisualBody tk).
Proof. unfold createHeroVisualBody. styles_auto. Qed.
Lemma styles_createHeroVisualStats E : styles tk E (createHeroVisualStats tk).
Proof. unfold createHeroVisualStats. styles_auto. Qed.
#[local] Hint Resolve styles_createHeroVisualBody styles_createHeroVisualStats : fonts.

Lemma styles_createHeroVisual E : styles tk E (createHeroVisual tk).
Proof. unfold createHeroVisual. styles_auto. Qed.
#[local] Hint Resolve styles_createHeroVisual : fonts.

Lemma styles_createHeroSection E : styles tk E (createHeroSection tk).
Proof. unfold createHeroSection. styles_auto. Qed.

Lemma styles_createTestimonialCopyColumn E : styles tk E (createTestimonialCopyColumn tk).
Proof. unfold createTestimonialCopyColumn. styles_auto. Qed.

Lemma styles_buildTestimonialCard E (data : Testimonial) :
  styles tk E (buildTestimonialCard tk data).
Proof.
  unfold buildTestimonialCard. styles_auto.
  destruct (t_metric data) as [metric|]; [destruct (truthy metric)|]; styles_auto.
Qed.
#[local] Hint Resolve styles_createTestimonialCopyColumn styles_buildTestimonialCard
  : fonts.

Lemma styles_createTestimonialCards E : styles tk E (createTestimonialCards tk).
Proof. unfold createTestimonialCards. styles_auto. Qed.
#[local] Hint Resolve styles_createTestimonialCards : fonts.

Lemma styles_createTestimonialSection E : styles tk E (createTestimonialSection tk).
Proof. unfold createTestimonialSection. styles_auto. Qed.

Lemma styles_createCTASection E : styles tk E (createCTASection tk).
Proof. unfold createCTASection. styles_auto. Qed.
#[local] Hint Resolve styles_createHeroSection styles_createTestimonialSection
  styles_createCTASection : fonts.

Lemma styles_buildLanding E : styles tk E (buildLanding tk).
Proof. unfold buildLanding. styles_auto. Qed.

End BuilderFonts.


